(** * span: hash-chain ledger and proof-of-work engine

    A shallow embedding of [src/models/hash_service.py] (class
    [HashService]) and [src/app/blockchain/proof.py] (class
    [ProofGenerator]), with the properties of the specification stated and
    proved over it.

    Layout: the Python values the two classes work on ([bytes], [str],
    exceptions), the SHA-256 function of [hashlib], then the two classes,
    then the theorems. *)

From Stdlib Require Import Strings.Ascii Strings.String.
From Stdlib Require Import ZArith NArith List Bool Lia.
From Stdlib Require Import Strings.Byte.
Import ListNotations.

Local Open Scope Z_scope.

(* ================================================================== *)
(** * Python values *)

Module Py.

(** The exceptions the modelled code can raise. *)
Inductive exn : Type :=
| UnicodeEncodeError   (* str.encode() on a lone surrogate *)
| StructError          (* struct.pack(">Q", n) with n outside 0..2^64-1 *)
| IndexError.          (* list index out of range *)

(** A call either returns a value or raises. *)
Inductive result (A : Type) : Type :=
| Ok (a : A)
| Raise (e : exn).
Arguments Ok {A} a.
Arguments Raise {A} e.

Definition bind {A B} (m : result A) (k : A -> result B) : result B :=
  match m with
  | Ok a => k a
  | Raise e => Raise e
  end.

(** [bytes]: an immutable sequence of octets. *)
Definition bytes := list byte.

Definition byte_of_N (n : N) : byte :=
  match Byte.of_N (n mod 256) with
  | Some b => b
  | None => x00
  end.

Definition byte_of_Z (z : Z) : byte := byte_of_N (Z.to_N (z mod 256)).

(** [bytes([x] * n)]: list repetition, empty when [n <= 0]. *)
Definition bytes_repeat (x : byte) (n : Z) : bytes := repeat x (Z.to_nat n).

(** [a < b] on [bytes]: lexicographic on the octet values, a proper
    prefix being smaller. *)
Fixpoint bytes_lt (a b : bytes) : bool :=
  match a, b with
  | [], [] => false
  | [], _ :: _ => true
  | _ :: _, [] => false
  | x :: a', y :: b' =>
      if (Byte.to_N x <? Byte.to_N y)%N then true
      else if (Byte.to_N y <? Byte.to_N x)%N then false
      else bytes_lt a' b'
  end.

(** [a == b] on sequences. *)
Fixpoint seq_eqb {A} (eqb : A -> A -> bool) (a b : list A) : bool :=
  match a, b with
  | [], [] => true
  | x :: a', y :: b' => eqb x y && seq_eqb eqb a' b'
  | _, _ => false
  end.

Definition bytes_eqb : bytes -> bytes -> bool := seq_eqb Byte.eqb.

(** [str]: a sequence of Unicode code points (each below 0x110000;
    lone surrogates are allowed in a Python [str]). *)
Definition str := list N.

Definition str_eqb : str -> str -> bool := seq_eqb N.eqb.

(** ["0" * n] and the like. *)
Definition str_repeat (c : N) (n : Z) : str := repeat c (Z.to_nat n).

(** UTF-8 of one code point, the default of [str.encode()]; the strict
    error handler raises on surrogates.  The numbers from 0x110000 on are
    no code points and occur in no [str]; they are refused here too. *)
Definition utf8_char (c : N) : result bytes :=
  (if c <? 0x80 then
     Ok [byte_of_N c]
   else if c <? 0x800 then
     Ok [byte_of_N (0xC0 + c / 64); byte_of_N (0x80 + c mod 64)]
   else if c <? 0x10000 then
     if (0xD800 <=? c) && (c <=? 0xDFFF) then Raise UnicodeEncodeError
     else Ok [byte_of_N (0xE0 + c / 4096);
              byte_of_N (0x80 + (c / 64) mod 64);
              byte_of_N (0x80 + c mod 64)]
   else if c <? 0x110000 then
     Ok [byte_of_N (0xF0 + c / 262144);
         byte_of_N (0x80 + (c / 4096) mod 64);
         byte_of_N (0x80 + (c / 64) mod 64);
         byte_of_N (0x80 + c mod 64)]
   else Raise UnicodeEncodeError)%N.

(** [s.encode()] *)
Fixpoint encode (s : str) : result bytes :=
  match s with
  | [] => Ok []
  | c :: s' =>
      bind (utf8_char c) (fun b =>
      bind (encode s') (fun bs => Ok (b ++ bs)))
  end.

(** Decimal digits of [str(n)]. *)
Fixpoint digits (u : Decimal.uint) : str :=
  match u with
  | Decimal.Nil => []
  | Decimal.D0 u' => 48%N :: digits u'
  | Decimal.D1 u' => 49%N :: digits u'
  | Decimal.D2 u' => 50%N :: digits u'
  | Decimal.D3 u' => 51%N :: digits u'
  | Decimal.D4 u' => 52%N :: digits u'
  | Decimal.D5 u' => 53%N :: digits u'
  | Decimal.D6 u' => 54%N :: digits u'
  | Decimal.D7 u' => 55%N :: digits u'
  | Decimal.D8 u' => 56%N :: digits u'
  | Decimal.D9 u' => 57%N :: digits u'
  end.

(** [str(n)] for an [int]. *)
Definition str_of_int (n : Z) : str :=
  match Z.to_int n with
  | Decimal.Pos u => digits u
  | Decimal.Neg u => 45%N :: digits u
  end.

(** Big-endian octets of the low [8*k] bits of [n]. *)
Fixpoint be_bytes (k : nat) (n : Z) : bytes :=
  match k with
  | O => []
  | S k' => be_bytes k' (n / 256) ++ [byte_of_Z (n mod 256)]
  end.

(** [struct.pack(">Q", n)]: unsigned 64 bit, big-endian; raises
    [struct.error] outside the range. *)
Definition pack_Q (n : Z) : result bytes :=
  if (0 <=? n) && (n <? 2 ^ 64) then Ok (be_bytes 8 n)
  else Raise StructError.

(** One lower-case hexadecimal digit. *)
Definition hexdigit (d : N) : N :=
  (if d <? 10 then 48 + d else 87 + d)%N.

(** [.hexdigest()] of a digest: two lower-case digits per octet. *)
Definition hexdigest (d : bytes) : str :=
  flat_map (fun b => [hexdigit (Byte.to_N b / 16);
                      hexdigit (Byte.to_N b mod 16)]) d.

(** A [str] literal of ASCII text. *)
Definition text (s : string) : str := map N_of_ascii (list_ascii_of_string s).

(** A [bytes] literal [b"..."] of ASCII text. *)
Definition btext (s : string) : bytes := list_byte_of_string s.

(** [l[i]] for [0 <= i]. *)
Definition getitem {A} (l : list A) (i : nat) : result A :=
  match nth_error l i with
  | Some x => Ok x
  | None => Raise IndexError
  end.

End Py.

Import Py.

Notation "x <- m ;; k" := (bind m (fun x => k))
  (at level 61, m at next level, right associativity).

(* ================================================================== *)
(** * SHA-256 (FIPS 180-4), the function behind [hashlib.sha256] *)

Module SHA256.

Definition add32 (x y : Z) : Z := (x + y) mod 2 ^ 32.

Definition rotr (n x : Z) : Z :=
  Z.lor (Z.shiftr x n) ((Z.shiftl x (32 - n)) mod 2 ^ 32).

Definition Ch (x y z : Z) : Z :=
  Z.lxor (Z.land x y) (Z.land (Z.lnot x) z).

Definition Maj (x y z : Z) : Z :=
  Z.lxor (Z.lxor (Z.land x y) (Z.land x z)) (Z.land y z).

Definition Sigma0 (x : Z) := Z.lxor (Z.lxor (rotr 2 x) (rotr 13 x)) (rotr 22 x).
Definition Sigma1 (x : Z) := Z.lxor (Z.lxor (rotr 6 x) (rotr 11 x)) (rotr 25 x).
Definition sigma0 (x : Z) := Z.lxor (Z.lxor (rotr 7 x) (rotr 18 x)) (Z.shiftr x 3).
Definition sigma1 (x : Z) := Z.lxor (Z.lxor (rotr 17 x) (rotr 19 x)) (Z.shiftr x 10).

(** The first sixty-four primes. *)
Definition primes : list Z :=
  [2; 3; 5; 7; 11; 13; 17; 19; 23; 29; 31; 37; 41; 43; 47; 53; 59; 61; 67;
   71; 73; 79; 83; 89; 97; 101; 103; 107; 109; 113; 127; 131; 137; 139; 149;
   151; 157; 163; 167; 173; 179; 181; 191; 193; 197; 199; 211; 223; 227;
   229; 233; 239; 241; 251; 257; 263; 269; 271; 277; 281; 283; 293; 307;
   311].

(** The greatest [x + d] with [d < 2 ^ bits] and [(x + d) ^ 3 <= n]. *)
Fixpoint cube_root (bits : nat) (n x : Z) : Z :=
  match bits with
  | O => x
  | S bits' =>
      let y := x + 2 ^ Z.of_nat bits' in
      cube_root bits' n (if y * y * y <=? n then y else x)
  end.

(** Round constants: the first 32 bits of the fractional parts of the cube
    roots of the primes. *)
Definition K : list Z :=
  map (fun p => cube_root 35 (p * 2 ^ 96) 0 mod 2 ^ 32) primes.

(** Initial hash value: the same of the square roots of the first eight
    primes. *)
Definition H0 : list Z :=
  map (fun p => Z.sqrt (p * 2 ^ 64) mod 2 ^ 32) (firstn 8 primes).

(** Message padding: a 1 bit, zeros up to 56 mod 64 octets, then the bit
    length on 64 bits. *)
Definition pad (msg : bytes) : bytes :=
  let len := Z.of_nat (length msg) in
  msg ++ [x80] ++ repeat x00 (Z.to_nat ((55 - len) mod 64))
      ++ be_bytes 8 (8 * len).

(** The octets as big-endian 32-bit words. *)
Fixpoint words (b : bytes) : list Z :=
  match b with
  | b0 :: b1 :: b2 :: b3 :: rest =>
      (Z.of_N (Byte.to_N b0) * 16777216 + Z.of_N (Byte.to_N b1) * 65536
       + Z.of_N (Byte.to_N b2) * 256 + Z.of_N (Byte.to_N b3)) :: words rest
  | _ => []
  end.

(** Message schedule: [n] more words after the ones in [w]. *)
Fixpoint schedule (n : nat) (w : list Z) : list Z :=
  match n with
  | O => w
  | S n' =>
      let t := length w in
      let at_ i := nth (t - i) w 0 in
      schedule n'
        (w ++ [add32 (add32 (sigma1 (at_ 2%nat)) (at_ 7%nat))
                     (add32 (sigma0 (at_ 15%nat)) (at_ 16%nat))])
  end.

Definition round (s : list Z) (kw : Z * Z) : list Z :=
  match s with
  | [a; b; c; d; e; f; g; h] =>
      let t1 := add32 (add32 (add32 h (Sigma1 e)) (add32 (Ch e f g) (fst kw)))
                      (snd kw) in
      let t2 := add32 (Sigma0 a) (Maj a b c) in
      [add32 t1 t2; a; b; c; add32 d t1; e; f; g]
  | _ => s
  end.

Definition compress (h : list Z) (block : list Z) : list Z :=
  let w := schedule 48 block in
  let s := fold_left round (combine K w) h in
  map (fun p => add32 (fst p) (snd p)) (combine h s).

(** The padded message, sixteen words at a time. *)
Fixpoint blocks (fuel : nat) (w : list Z) (h : list Z) : list Z :=
  match fuel with
  | O => h
  | S fuel' =>
      match w with
      | [] => h
      | _ => blocks fuel' (skipn 16 w) (compress h (firstn 16 w))
      end
  end.

Definition state (msg : bytes) : list Z :=
  let w := words (pad msg) in
  blocks (length w) w H0.

(** [hashlib.sha256(msg).digest()] *)
Definition digest (msg : bytes) : bytes :=
  let s := state msg in
  flat_map (fun i => be_bytes 4 (nth i s 0)) (seq 0 8).

End SHA256.

(** The hash function does not send these two inputs to one digest. *)
Definition no_collision (sha256 : bytes -> bytes) (x y : bytes) : Prop :=
  sha256 x = sha256 y -> x = y.

(* ================================================================== *)
(** * [src/models/hash_service.py] *)

Module HashService.

(** [@dataclass class Block] *)
Record Block : Type := mkBlock {
  index : Z;
  timestamp : str;
  data : str;
  previous_hash : str;
  hash : str
}.

(** Which of the two checks of [verify_chain] failed: the error texts
    "Block i has invalid previous hash reference" and
    "Block i has invalid hash". *)
Inductive failure : Type :=
| InvalidPreviousHashReference
| InvalidHash.

(** The dictionaries [verify_chain] returns:
    [{"valid": True, "block_count": n}] and
    [{"valid": False, "error": f"Block {i} has ..."}]. *)
Inductive verdict : Type :=
| Valid (block_count : nat)
| Invalid (i : nat) (error : failure).

(** The text under ["error"]: [f"Block {i} has invalid previous hash
    reference"] and [f"Block {i} has invalid hash"]. *)
Definition error_text (i : nat) (error : failure) : str :=
  text "Block " ++ str_of_int (Z.of_nat i)
  ++ match error with
     | InvalidPreviousHashReference =>
         text " has invalid previous hash reference"
     | InvalidHash => text " has invalid hash"
     end.

(** ["0" * 64] *)
Definition zero_hash : str := str_repeat 48%N 64.

(** [c in "0123456789abcdef"] *)
Definition is_hex_char (c : N) : bool :=
  existsb (N.eqb c) (text "0123456789abcdef").

(** The dictionaries [health_check] returns:
    [{"status": "healthy", "block_count": n, "test_hash_valid": v}] and
    [{"status": "unhealthy", "error": str(e)}]. *)
Inductive health_report : Type :=
| Healthy (block_count : nat) (test_hash_valid : bool)
| Unhealthy (error : exn).

Section WithSha256.

(** [hashlib.sha256(b).digest()] *)
Variable sha256 : bytes -> bytes.

(** [sha256(s.encode()).hexdigest()] *)
Definition sha256_hex (s : str) : result str :=
  b <- encode s ;;
  Ok (hexdigest (sha256 b)).

Definition calculate_hash (index : Z) (timestamp data previous_hash : str)
  : result str :=
  let value := str_of_int index ++ timestamp ++ data ++ previous_hash in
  sha256_hex value.

(** [create_block]: [utcnow] is [datetime.utcnow().isoformat()], [blocks]
    is [self.blocks] before the call; the result is the new block and
    [self.blocks] after it.  A raise leaves [self.blocks] as it was. *)
Definition create_block (utcnow : str) (data : str) (blocks : list Block)
  : result (Block * list Block) :=
  let index := Z.of_nat (length blocks) in
  let timestamp := utcnow in
  let previous_hash :=
    match blocks with
    | [] => zero_hash
    | b :: _ => hash (last blocks b)
    end in
  block_hash <- calculate_hash index timestamp data previous_hash ;;
  let block := mkBlock index timestamp data previous_hash block_hash in
  Ok (block, blocks ++ [block]).

(** The body of [for i in range(1, len(self.blocks))], over the indices
    still to visit. *)
Fixpoint verify_from (blocks : list Block) (indices : list nat)
  : result verdict :=
  match indices with
  | [] => Ok (Valid (length blocks))
  | i :: rest =>
      current <- getitem blocks i ;;
      previous <- getitem blocks (i - 1) ;;
      if negb (str_eqb (previous_hash current) (hash previous)) then
        Ok (Invalid i InvalidPreviousHashReference)
      else
        calculated_hash <-
          calculate_hash (index current) (timestamp current)
                         (data current) (previous_hash current) ;;
        if negb (str_eqb calculated_hash (hash current)) then
          Ok (Invalid i InvalidHash)
        else verify_from blocks rest
  end.

Definition verify_chain (blocks : list Block) : result verdict :=
  verify_from blocks (seq 1 (length blocks - 1)).

Definition get_block (blocks : list Block) (index : Z) : option Block :=
  if (0 <=? index) && (index <? Z.of_nat (length blocks))
  then nth_error blocks (Z.to_nat index)
  else None.

(** [[sha256(data.encode()).hexdigest() for data in data_list]] *)
Fixpoint hash_all (data_list : list str) : result (list str) :=
  match data_list with
  | [] => Ok []
  | data :: rest =>
      h <- sha256_hex data ;;
      hs <- hash_all rest ;;
      Ok (h :: hs)
  end.

(** [if len(hashes) % 2 == 1: hashes.append(hashes[-1])] *)
Definition duplicate_last (hashes : list str) : list str :=
  if Nat.eqb (length hashes mod 2) 1
  then hashes ++ [last hashes []]
  else hashes.

(** [for i in range(0, len(hashes), 2)], over the indices still to
    visit; the result is [next_level]. *)
Fixpoint combine_pairs (hashes : list str) (indices : list nat)
  : result (list str) :=
  match indices with
  | [] => Ok []
  | i :: rest =>
      left <- getitem hashes i ;;
      right <- getitem hashes (i + 1) ;;
      h <- sha256_hex (left ++ right) ;;
      next_level <- combine_pairs hashes rest ;;
      Ok (h :: next_level)
  end.

(** [range(0, n, 2)] *)
Definition range_by_2 (n : nat) : list nat :=
  map (fun k => 2 * k)%nat (seq 0 ((n + 1) / 2)).

(** One turn of [while len(hashes) > 1]. *)
Definition merkle_level (hashes : list str) : result (list str) :=
  let hashes := duplicate_last hashes in
  combine_pairs hashes (range_by_2 (length hashes)).

(** [while len(hashes) > 1]; [None] when [fuel] turns were not
    enough. *)
Fixpoint merkle_while (fuel : nat) (hashes : list str)
  : option (result (list str)) :=
  if (length hashes <=? 1)%nat then Some (Ok hashes)
  else
    match fuel with
    | O => None
    | S fuel' =>
        match merkle_level hashes with
        | Ok next_level => merkle_while fuel' next_level
        | Raise e => Some (Raise e)
        end
    end.

(** [calculate_merkle_root]; every level is shorter than the one
    before, so [length data_list] turns are enough
    (see [merkle_while_reduces]). *)
Definition calculate_merkle_root (data_list : list str)
  : option (result str) :=
  match data_list with
  | [] => Some (sha256_hex [])
  | _ =>
      match hash_all data_list with
      | Raise e => Some (Raise e)
      | Ok hashes =>
          match merkle_while (length hashes) hashes with
          | None => None
          | Some (Raise e) => Some (Raise e)
          | Some (Ok hashes) => Some (getitem hashes 0)
          end
      end
  end.

(** [health_check]; [utcnow] is [datetime.utcnow().isoformat()].  Every
    exception is caught and reported. *)
Definition health_check (utcnow : str) (blocks : list Block) : health_report :=
  match calculate_hash 0 utcnow (text "test") (str_repeat 48%N 64) with
  | Ok test_hash =>
      Healthy (length blocks)
              (Nat.eqb (length test_hash) 64 && forallb is_hex_char test_hash)
  | Raise e => Unhealthy e
  end.

(** ** Vocabulary of the properties *)

(** The ledger after a sequence of [create_block] calls, each given
    by the clock reading and the data, with the number of blocks
    appended; a call that raises appends nothing. *)
Fixpoint run (calls : list (str * str)) (blocks : list Block)
         (appended : nat) : list Block * nat :=
  match calls with
  | [] => (blocks, appended)
  | (utcnow, data) :: rest =>
      match create_block utcnow data blocks with
      | Ok (_, blocks') => run rest blocks' (S appended)
      | Raise _ => run rest blocks appended
      end
  end.

(** The hash of block [i] recomputed from its stored fields. *)
Definition recomputed (blocks : list Block) (i : nat) : result str :=
  current <- getitem blocks i ;;
  calculate_hash (index current) (timestamp current) (data current)
                 (previous_hash current).

(** Block [i] refers to the hash of block [i - 1]. *)
Definition link_ok (blocks : list Block) (i : nat) : Prop :=
  exists current previous,
    nth_error blocks i = Some current
    /\ nth_error blocks (i - 1) = Some previous
    /\ previous_hash current = hash previous.

Definition link_broken (blocks : list Block) (i : nat) : Prop :=
  exists current previous,
    nth_error blocks i = Some current
    /\ nth_error blocks (i - 1) = Some previous
    /\ previous_hash current <> hash previous.

(** The stored hash of block [i] is the recomputed one. *)
Definition hash_ok (blocks : list Block) (i : nat) : Prop :=
  exists current,
    nth_error blocks i = Some current
    /\ recomputed blocks i = Ok (hash current).

Definition hash_broken (blocks : list Block) (i : nat) : Prop :=
  exists current h,
    nth_error blocks i = Some current
    /\ recomputed blocks i = Ok h /\ h <> hash current.

(** Block [i] passes both checks of [verify_chain]. *)
Definition passes (blocks : list Block) (i : nat) : Prop :=
  link_ok blocks i /\ hash_ok blocks i.

(** [r] is what [verify_chain] reports when block [i] is the one that
    stops it: the link is checked first, the hash after it. *)
Definition fails_with (blocks : list Block) (i : nat) (r : result verdict)
  : Prop :=
  (r = Ok (Invalid i InvalidPreviousHashReference) /\ link_broken blocks i)
  \/ (r = Ok (Invalid i InvalidHash)
      /\ link_ok blocks i /\ hash_broken blocks i)
  \/ (exists e, r = Raise e
                /\ link_ok blocks i /\ recomputed blocks i = Raise e).

(** The invariant of the data model. *)
Definition chain_invariant (blocks : list Block) : Prop :=
  (forall b, nth_error blocks 0 = Some b -> previous_hash b = zero_hash)
  /\ (forall i, (0 < i < length blocks)%nat -> link_ok blocks i)
  /\ (forall i, (i < length blocks)%nat ->
                hash_ok blocks i
                /\ exists b, nth_error blocks i = Some b
                             /\ index b = Z.of_nat i).

(** One level of the tree in the words of the specification: adjacent
    hashes paired left to right, each pair hashed as the concatenation;
    the last hash of an odd level is paired with itself. *)
Fixpoint pair_up (hashes : list str) : result (list str) :=
  match hashes with
  | [] => Ok []
  | [a] => h <- sha256_hex (a ++ a) ;; Ok [h]
  | a :: b :: rest =>
      h <- sha256_hex (a ++ b) ;;
      next_level <- pair_up rest ;;
      Ok (h :: next_level)
  end.

(** Levels are built until one hash remains, the root. *)
Inductive reduces_to : list str -> result str -> Prop :=
| reduces_root h : reduces_to [h] (Ok h)
| reduces_raise hashes e :
    (2 <= length hashes)%nat -> pair_up hashes = Raise e ->
    reduces_to hashes (Raise e)
| reduces_level hashes next_level r :
    (2 <= length hashes)%nat -> pair_up hashes = Ok next_level ->
    reduces_to next_level r -> reduces_to hashes r.

End WithSha256.

(** [s.encode()] does not raise. *)
Definition encodable (s : str) : Prop := exists b, encode s = Ok b.

(** The text [calculate_hash] hashes for a block. *)
Definition preimage (b : Block) : str :=
  str_of_int (index b) ++ timestamp b ++ data b ++ previous_hash b.

(** Mutations of a stored block from outside the service:
    [self.blocks[i] = b], and [b.hash = h], [b.previous_hash = p],
    [b.data = d] on a block. *)
Definition replace_block (blocks : list Block) (i : nat) (b : Block)
  : list Block :=
  match nth_error blocks i with
  | Some _ => firstn i blocks ++ b :: skipn (S i) blocks
  | None => blocks
  end.

Definition set_hash (b : Block) (h : str) : Block :=
  mkBlock (index b) (timestamp b) (data b) (previous_hash b) h.

Definition set_previous_hash (b : Block) (p : str) : Block :=
  mkBlock (index b) (timestamp b) (data b) p (hash b).


(** The octets of [.hexdigest()], which is ASCII. *)
Definition hex_bytes (d : bytes) : bytes := map byte_of_N (hexdigest d).

End HashService.

(* ================================================================== *)
(** * [src/app/blockchain/proof.py] *)

Module ProofGenerator.

(** [@dataclass class Proof] *)
Record Proof : Type := mkProof {
  data : bytes;
  nonce : Z;
  hash : bytes;
  timestamp : Z
}.

(** The attributes of a [ProofGenerator] instance. *)
Record t : Type := mk {
  difficulty : Z;
  target : bytes
}.

(** [__init__]: no statement of it can raise on an [int]. *)
Definition init (difficulty : Z) : result t :=
  Ok (mk difficulty
         (bytes_repeat x00 difficulty ++ bytes_repeat xff (32 - difficulty))).

Section WithSha256.

(** [hashlib.sha256(b).digest()] *)
Variable sha256 : bytes -> bytes.

Definition _hash (self : t) (data : bytes) (nonce : Z) : result bytes :=
  packed <- pack_Q nonce ;;
  Ok (sha256 (data ++ packed)).

(** [while nonce < max_attempts], with [remaining] the number of turns
    left, [max_attempts - nonce]. *)
Fixpoint generate_from (self : t) (data : bytes) (start_time : Z)
         (remaining : nat) (nonce : Z) : result (option Proof) :=
  match remaining with
  | O => Ok None
  | S remaining' =>
      hash_result <- _hash self data nonce ;;
      if bytes_lt hash_result (target self) then
        Ok (Some (mkProof data nonce hash_result start_time))
      else generate_from self data start_time remaining' (nonce + 1)
  end.

(** [generate_proof]; [now] is [int(time.time())] at the call. *)
Definition generate_proof (self : t) (now : Z) (data : bytes)
           (max_attempts : Z) : result (option Proof) :=
  let nonce := 0 in
  let start_time := now in
  generate_from self data start_time (Z.to_nat (max_attempts - nonce)) nonce.

Definition verify_proof (self : t) (proof : Proof) : result bool :=
  hash_result <- _hash self (data proof) (nonce proof) ;;
  Ok (bytes_eqb hash_result (hash proof)
      && bytes_lt hash_result (target self)).

Definition verify_chain (self : t) (proof1 proof2 : Proof) : result bool :=
  if timestamp proof1 >=? timestamp proof2 then Ok false
  else
    both <- (ok1 <- verify_proof self proof1 ;;
             if ok1 then verify_proof self proof2 else Ok false) ;;
    if negb both then Ok false
    else
      let chain_hash := sha256 (hash proof1 ++ hash proof2) in
      let chain_target :=
        bytes_repeat x00 (difficulty self - 1)
        ++ bytes_repeat xff (33 - difficulty self) in
      Ok (bytes_lt chain_hash chain_target).

(** [while True] of [find_next_proof], which leaves after the turn that
    brings [nonce] to 1000000; [remaining] is the number of turns
    left. *)
Fixpoint find_from (self : t) (previous_proof : Proof) (data : bytes)
         (start_time : Z) (remaining : nat) (nonce : Z)
  : result (option Proof) :=
  match remaining with
  | O => Ok None
  | S remaining' =>
      hash_result <- _hash self data nonce ;;
      let candidate := mkProof data nonce hash_result start_time in
      ok <- verify_chain self previous_proof candidate ;;
      if ok then Ok (Some candidate)
      else find_from self previous_proof data start_time remaining'
                     (nonce + 1)
  end.

(** [find_next_proof]; [now] is [int(time.time())] at the call. *)
Definition find_next_proof (self : t) (now : Z) (previous_proof : Proof)
           (data : bytes) : result (option Proof) :=
  let nonce := 0 in
  let start_time := now in
  find_from self previous_proof data start_time
            (Z.to_nat (1000000 - nonce)) nonce.

End WithSha256.

(** ** Vocabulary of the properties *)

(** [SHA256(data || big-endian-64-bit(nonce))] *)
Definition digest_of (sha256 : bytes -> bytes) (data : bytes) (nonce : Z)
  : bytes :=
  sha256 (data ++ be_bytes 8 nonce).

(** The digest at [nonce] is below the target of [self]. *)
Definition meets (sha256 : bytes -> bytes) (self : t) (data : bytes)
           (nonce : Z) : bool :=
  bytes_lt (digest_of sha256 data nonce) (target self).

(** [chain_target] of [verify_chain], as a function of the difficulty:
    [bytes([0] * (d - 1)) + bytes([255] * (33 - d))]. *)
Definition chain_target (d : Z) : bytes :=
  bytes_repeat x00 (d - 1) ++ bytes_repeat xff (33 - d).

(** [proof.hash = h] and [proof.nonce = n] after the fact. *)
Definition with_hash (p : Proof) (h : bytes) : Proof :=
  mkProof (data p) (nonce p) h (timestamp p).
Definition with_nonce (p : Proof) (n : Z) : Proof :=
  mkProof (data p) n (hash p) (timestamp p).

(** The candidate [find_next_proof] builds for a nonce. *)
Definition candidate (sha256 : bytes -> bytes) (data : bytes) (start_time : Z)
           (nonce : Z) : Proof :=
  mkProof data nonce (digest_of sha256 data nonce) start_time.

(** The target [__init__] derives from a difficulty. *)
Definition target_of (d : Z) : bytes :=
  bytes_repeat x00 d ++ bytes_repeat xff (32 - d).

(** The nonce fits [struct.pack(">Q", _)], as the data model has it. *)
Definition nonce_in_range (p : Proof) : Prop := 0 <= nonce p < 2 ^ 64.

(** Bit [k] of a nonce flipped. *)
Definition flip_nonce_bit (n k : Z) : Z := Z.lxor n (2 ^ k).

(** Bit [k] of one octet flipped. *)
Definition flip_byte_bit (b : byte) (k : N) : byte :=
  byte_of_N (N.lxor (Byte.to_N b) (2 ^ k)).

(** Bit [k] of octet [i] of a digest flipped. *)
Fixpoint flip_hash_bit (h : bytes) (i : nat) (k : N) : bytes :=
  match h, i with
  | [], _ => []
  | b :: h', O => flip_byte_bit b k :: h'
  | b :: h', S i' => b :: flip_hash_bit h' i' k
  end.

End ProofGenerator.

(* ================================================================== *)
(** * A ledger of three blocks *)

(** The blocks [create_block("a")], [create_block("b")] and
    [create_block("c")] append to an empty ledger when the clock reads
    [sample_time] at each call, with the hashes [hashlib] gives. *)
Module Samples.
Import HashService.

Definition sample_time : str := text "2024-01-01T00:00:00".

Definition block_a : Block :=
  mkBlock 0 sample_time (text "a") zero_hash
    (text "b3b39273afdf85a843c3ec5ef933c5ef661a8511ece4573ff82edcbfc3dd6a6e").

Definition block_b : Block :=
  mkBlock 1 sample_time (text "b") (hash block_a)
    (text "98959f555fce35789c091314809e4000d4af856784d968860a96fcca3ff8e04f").

Definition block_c : Block :=
  mkBlock 2 sample_time (text "c") (hash block_b)
    (text "dc498b145be2ca88b22c51ee2b3b28e2b2f3a87db24b15e989c0e05aeb61eb42").

(** A code point [str.encode()] refuses: the lone surrogate U+D800. *)
Definition lone_surrogate : str := [55296%N].

End Samples.

(* ================================================================== *)
(** * Facts about the Python values *)

Section PyFacts.

Lemma bind_Ok_inv {A B} (m : result A) (k : A -> result B) (b : B) :
  bind m k = Ok b -> exists a, m = Ok a /\ k a = Ok b.
Proof. destruct m as [a|e]; simpl; [eauto | discriminate]. Qed.

Lemma seq_eqb_spec {A} (eqb : A -> A -> bool)
      (eqb_eq : forall x y, eqb x y = true <-> x = y) (a b : list A) :
  seq_eqb eqb a b = true <-> a = b.
Proof.
  revert b; induction a as [|x a IH]; intros [|y b]; simpl;
    try (split; [discriminate | congruence]); [tauto|].
  rewrite andb_true_iff, eqb_eq, IH. split; [intros []|intros [=]]; subst; auto.
Qed.

Lemma bytes_eqb_eq (a b : bytes) : bytes_eqb a b = true <-> a = b.
Proof.
  apply seq_eqb_spec; intros x y; split;
    [apply Byte.byte_dec_bl | apply Byte.byte_dec_lb].
Qed.

Lemma str_eqb_eq (a b : str) : str_eqb a b = true <-> a = b.
Proof. apply seq_eqb_spec, N.eqb_eq. Qed.

Lemma bytes_eqb_refl (a : bytes) : bytes_eqb a a = true.
Proof. now apply bytes_eqb_eq. Qed.

Lemma str_eqb_refl (a : str) : str_eqb a a = true.
Proof. now apply str_eqb_eq. Qed.

Lemma bytes_eqb_neq (a b : bytes) : a <> b -> bytes_eqb a b = false.
Proof.
  intros H; destruct (bytes_eqb a b) eqn:E; [|reflexivity].
  now apply bytes_eqb_eq in E.
Qed.

Lemma str_eqb_neq (a b : str) : a <> b -> str_eqb a b = false.
Proof.
  intros H; destruct (str_eqb a b) eqn:E; [|reflexivity].
  now apply str_eqb_eq in E.
Qed.

Lemma to_N_byte_of_N (n : N) : Byte.to_N (byte_of_N n) = (n mod 256)%N.
Proof.
  unfold byte_of_N. destruct (Byte.of_N (n mod 256)) as [b|] eqn:E.
  - now apply Byte.to_of_N.
  - apply Byte.of_N_None_iff in E.
    pose proof (N.mod_lt n 256 ltac:(discriminate)). lia.
Qed.

Lemma to_N_inj (x y : byte) : Byte.to_N x = Byte.to_N y -> x = y.
Proof.
  intros H. pose proof (Byte.of_to_N x) as Hx.
  rewrite H, Byte.of_to_N in Hx. congruence.
Qed.

Lemma to_N_byte_of_Z (z : Z) :
  Z.of_N (Byte.to_N (byte_of_Z z)) = z mod 256.
Proof.
  unfold byte_of_Z. rewrite to_N_byte_of_N.
  pose proof (Z.mod_pos_bound z 256 ltac:(lia)).
  rewrite N.mod_small by lia. lia.
Qed.

(** ** Order on [bytes] *)

Lemma bytes_lt_irrefl (a : bytes) : bytes_lt a a = false.
Proof.
  induction a as [|x a IH]; simpl; [reflexivity|].
  now rewrite N.ltb_irrefl.
Qed.

(** No sequence of [n] octets is below [n] zero octets. *)
Lemma bytes_lt_zeros (a : bytes) :
  bytes_lt a (repeat x00 (length a)) = false.
Proof.
  induction a as [|x a IH]; simpl; [reflexivity|].
  destruct (Byte.to_N x) eqn:E; simpl; [exact IH | reflexivity].
Qed.

(** A sequence of [n] octets is below [n] octets 0xFF unless it is
    these. *)
Lemma bytes_lt_ones (a : bytes) :
  bytes_lt a (repeat xff (length a)) = negb (bytes_eqb a (repeat xff (length a))).
Proof.
  unfold bytes_eqb.
  induction a as [|x a IH]; simpl; [reflexivity|].
  change (Byte.to_N xff) with 255%N.
  pose proof (Byte.to_N_bounded x) as Hb.
  destruct (Byte.to_N x <? 255)%N eqn:E.
  - apply N.ltb_lt in E.
    replace (Byte.eqb x xff) with false; [reflexivity|].
    symmetry. destruct (Byte.eqb x xff) eqn:E'; [|reflexivity].
    apply Byte.byte_dec_bl in E'. subst x. simpl in E. lia.
  - apply N.ltb_ge in E.
    assert (x = xff) as -> by (apply to_N_inj; simpl; lia).
    simpl. exact IH.
Qed.

(** A sequence of at most [n] octets is below [n + 1] octets 0xFF. *)
Lemma bytes_lt_ones_longer (a : bytes) (n : nat) :
  (length a < n)%nat -> bytes_lt a (repeat xff n) = true.
Proof.
  revert n; induction a as [|x a IH]; intros [|n] H; simpl in *;
    try lia; try reflexivity.
  change (Byte.to_N xff) with 255%N.
  pose proof (Byte.to_N_bounded x) as Hb.
  destruct (Byte.to_N x <? 255)%N eqn:E; [reflexivity|].
  apply N.ltb_ge in E.
  replace (255 <? Byte.to_N x)%N with false by (symmetry; apply N.ltb_ge; lia).
  apply IH. lia.
Qed.

(** ** Big-endian packing *)

Lemma be_bytes_length (k : nat) (n : Z) : length (be_bytes k n) = k.
Proof.
  revert n; induction k as [|k IH]; intros n; simpl; [reflexivity|].
  rewrite length_app, IH. simpl. lia.
Qed.

Lemma be_bytes_inj (k : nat) (n m : Z) :
  0 <= n < 256 ^ Z.of_nat k -> 0 <= m < 256 ^ Z.of_nat k ->
  be_bytes k n = be_bytes k m -> n = m.
Proof.
  revert n m; induction k as [|k IH]; intros n m Hn Hm H.
  - simpl in *. lia.
  - simpl in H. apply app_inj_tail in H. destruct H as [Hhi Hlo].
    rewrite Nat2Z.inj_succ, Z.pow_succ_r in Hn, Hm by lia.
    assert (n / 256 = m / 256) as Hq.
    { apply IH; [| |exact Hhi];
        (split; [apply Z.div_pos; lia | apply Z.div_lt_upper_bound; lia]). }
    assert (n mod 256 = m mod 256) as Hr.
    { apply (f_equal (fun b => Z.of_N (Byte.to_N b))) in Hlo.
      rewrite !to_N_byte_of_Z, !Z.mod_mod in Hlo by lia. exact Hlo. }
    rewrite (Z.div_mod n 256), (Z.div_mod m 256) by lia. congruence.
Qed.

Lemma pack_Q_Ok (n : Z) :
  0 <= n < 2 ^ 64 -> pack_Q n = Ok (be_bytes 8 n).
Proof.
  intros H. unfold pack_Q.
  replace (0 <=? n) with true by (symmetry; apply Z.leb_le; lia).
  replace (n <? 2 ^ 64) with true by (symmetry; apply Z.ltb_lt; lia).
  reflexivity.
Qed.

Lemma pack_Q_Raise (n : Z) :
  n < 0 \/ 2 ^ 64 <= n -> pack_Q n = Raise StructError.
Proof.
  intros H. unfold pack_Q.
  destruct (0 <=? n) eqn:E1; [|reflexivity].
  destruct (n <? 2 ^ 64) eqn:E2; [|reflexivity].
  apply Z.leb_le in E1. apply Z.ltb_lt in E2. lia.
Qed.

Lemma pack_Q_Ok_inv (n : Z) (b : bytes) :
  pack_Q n = Ok b -> 0 <= n < 2 ^ 64 /\ b = be_bytes 8 n.
Proof.
  unfold pack_Q.
  destruct (0 <=? n) eqn:E1; [|discriminate].
  destruct (n <? 2 ^ 64) eqn:E2; [|discriminate].
  apply Z.leb_le in E1. apply Z.ltb_lt in E2. simpl.
  intros [= <-]. split; [lia | reflexivity].
Qed.

Lemma pack_Q_inj (n m : Z) (b : bytes) :
  pack_Q n = Ok b -> pack_Q m = Ok b -> n = m.
Proof.
  intros Hn Hm.
  apply pack_Q_Ok_inv in Hn. apply pack_Q_Ok_inv in Hm.
  destruct Hn as [Hn ->], Hm as [Hm Hb].
  apply (be_bytes_inj 8); [change (256 ^ Z.of_nat 8) with (2 ^ 64); lia ..
                          | exact Hb].
Qed.

End PyFacts.

(** SHA-256 digests have 32 octets, and the function above is the one of
    the standard on its test vectors. *)
Section SHA256Facts.

Lemma sha256_digest_length (msg : bytes) :
  length (SHA256.digest msg) = 32%nat.
Proof.
  unfold SHA256.digest. generalize (SHA256.state msg) as s. intros s.
  cbn [seq flat_map]. rewrite !length_app, !be_bytes_length. reflexivity.
Qed.

(** "" -> e3b0c442...; "abc" -> ba7816bf... *)
Example sha256_empty :
  hexdigest (SHA256.digest [])
  = map Byte.to_N
      ["e";"3";"b";"0";"c";"4";"4";"2";"9";"8";"f";"c";"1";"c";"1";"4";
       "9";"a";"f";"b";"f";"4";"c";"8";"9";"9";"6";"f";"b";"9";"2";"4";
       "2";"7";"a";"e";"4";"1";"e";"4";"6";"4";"9";"b";"9";"3";"4";"c";
       "a";"4";"9";"5";"9";"9";"1";"b";"7";"8";"5";"2";"b";"8";"5";"5"]%byte.
Proof. vm_compute. reflexivity. Qed.

Example sha256_abc :
  hexdigest (SHA256.digest ["a"; "b"; "c"]%byte)
  = map Byte.to_N
      ["b";"a";"7";"8";"1";"6";"b";"f";"8";"f";"0";"1";"c";"f";"e";"a";
       "4";"1";"4";"1";"4";"0";"d";"e";"5";"d";"a";"e";"2";"2";"2";"3";
       "b";"0";"0";"3";"6";"1";"a";"3";"9";"6";"1";"7";"7";"a";"9";"c";
       "b";"4";"1";"0";"f";"f";"6";"1";"f";"2";"0";"0";"1";"5";"a";"d"]%byte.
Proof. vm_compute. reflexivity. Qed.

(** The UTF-8 of U+00E9, U+20AC and U+1F600, and the refusal of a lone
    surrogate. *)
Example encode_utf8 :
  encode [0xE9; 0x20AC; 0x1F600]%N
  = Ok ["195"; "169"; "226"; "130"; "172"; "240"; "159"; "152"; "128"]%byte
  /\ encode [0x61; 0xD800]%N = Raise UnicodeEncodeError.
Proof. split; vm_compute; reflexivity. Qed.

(** [struct.pack(">Q", 258)] and the digest of [b"x"] with nonce 0. *)
Example pack_and_hash :
  pack_Q 258 = Ok ["000"; "000"; "000"; "000"; "000"; "000"; "001"; "002"]%byte
  /\ pack_Q (-1) = Raise StructError /\ pack_Q (2 ^ 64) = Raise StructError
  /\ (h <- ProofGenerator._hash SHA256.digest (ProofGenerator.mk 3 [])
                                (btext "x") 0 ;;
      Ok (hexdigest h))
     = Ok (text "3549372440f3505b0eb134a63fcd3ed9971d049c9ffb24e4e837c55bf32b9c60").
Proof.
  split; [vm_compute; reflexivity|].
  split; [vm_compute; reflexivity|].
  split; vm_compute; reflexivity.
Qed.

End SHA256Facts.

(** [encode] on concatenations and on ASCII text. *)
Section EncodeFacts.
Import HashService.

Lemma encode_app (s t : str) :
  encode (s ++ t) = (a <- encode s ;; b <- encode t ;; Ok (a ++ b)).
Proof.
  induction s as [|c s IH]; simpl.
  - destruct (encode t); reflexivity.
  - destruct (utf8_char c) as [bc|e]; simpl; [|reflexivity].
    rewrite IH. destruct (encode s) as [bs|e]; simpl; [|reflexivity].
    destruct (encode t) as [bt|e]; simpl; [|reflexivity].
    now rewrite app_assoc.
Qed.

Lemma encode_ascii (s : str) :
  Forall (fun c => c < 128)%N s -> encode s = Ok (map byte_of_N s).
Proof.
  induction 1 as [|c s Hc Hs IH]; simpl; [reflexivity|].
  unfold utf8_char. replace (c <? 128)%N with true
    by (symmetry; apply N.ltb_lt; exact Hc).
  simpl. now rewrite IH.
Qed.

Lemma encodable_app (s t : str) :
  encodable s -> encodable t -> encodable (s ++ t).
Proof.
  intros [a Ha] [b Hb]. exists (a ++ b). now rewrite encode_app, Ha, Hb.
Qed.

Lemma encodable_ascii (s : str) :
  Forall (fun c => c < 128)%N s -> encodable s.
Proof. intros H. eexists. now apply encode_ascii. Qed.

Lemma hexdigit_ascii (d : N) : (d < 16 -> hexdigit d < 128)%N.
Proof. unfold hexdigit. destruct (d <? 10)%N; lia. Qed.

Lemma hexdigit_inj (d d' : N) :
  (d < 16)%N -> (d' < 16)%N -> hexdigit d = hexdigit d' -> d = d'.
Proof.
  unfold hexdigit. intros Hd Hd'.
  destruct (d <? 10)%N eqn:E, (d' <? 10)%N eqn:E';
    try apply N.ltb_lt in E; try apply N.ltb_lt in E';
    try apply N.ltb_ge in E; try apply N.ltb_ge in E'; lia.
Qed.

Lemma byte_nibbles (b : byte) :
  (Byte.to_N b / 16 < 16 /\ Byte.to_N b mod 16 < 16)%N.
Proof.
  pose proof (Byte.to_N_bounded b). split.
  - apply N.Div0.div_lt_upper_bound. lia.
  - apply N.mod_lt. discriminate.
Qed.

Lemma hexdigest_ascii (d : bytes) :
  Forall (fun c => c < 128)%N (hexdigest d).
Proof.
  induction d as [|b d IH]; simpl; [constructor|].
  destruct (byte_nibbles b) as [Hq Hr].
  repeat constructor; auto using hexdigit_ascii.
Qed.

Lemma encode_hexdigest (d : bytes) : encode (hexdigest d) = Ok (hex_bytes d).
Proof. apply encode_ascii, hexdigest_ascii. Qed.

Lemma hexdigest_length (d : bytes) :
  length (hexdigest d) = (2 * length d)%nat.
Proof. induction d as [|b d IH]; simpl; [reflexivity | lia]. Qed.

Lemma hex_bytes_length (d : bytes) : length (hex_bytes d) = (2 * length d)%nat.
Proof. unfold hex_bytes. now rewrite length_map, hexdigest_length. Qed.

Lemma hexdigest_inj (d d' : bytes) : hexdigest d = hexdigest d' -> d = d'.
Proof.
  revert d'; induction d as [|b d IH]; intros [|b' d'] H; simpl in H;
    try discriminate; [reflexivity|].
  injection H as Hq Hr H. f_equal; [|now apply IH].
  destruct (byte_nibbles b) as [Hb1 Hb2], (byte_nibbles b') as [Hb1' Hb2'].
  apply hexdigit_inj in Hq; auto. apply hexdigit_inj in Hr; auto.
  apply to_N_inj.
  rewrite (N.div_mod (Byte.to_N b) 16), (N.div_mod (Byte.to_N b') 16)
    by discriminate.
  congruence.
Qed.

Lemma byte_of_N_inj (n m : N) :
  (n < 256)%N -> (m < 256)%N -> byte_of_N n = byte_of_N m -> n = m.
Proof.
  intros Hn Hm H. apply (f_equal Byte.to_N) in H.
  rewrite !to_N_byte_of_N, !N.mod_small in H by assumption. exact H.
Qed.

Lemma hex_bytes_inj (d d' : bytes) : hex_bytes d = hex_bytes d' -> d = d'.
Proof.
  unfold hex_bytes. intros H. apply hexdigest_inj.
  pose proof (hexdigest_ascii d) as Ha. pose proof (hexdigest_ascii d') as Ha'.
  revert Ha Ha' H. generalize (hexdigest d) as s, (hexdigest d') as s'.
  induction s as [|c s IH]; intros [|c' s'] Ha Ha' H; simpl in H;
    try discriminate; [reflexivity|].
  inversion Ha; inversion Ha'; subst. injection H as Hc H.
  f_equal; [apply byte_of_N_inj; auto; lia | now apply IH].
Qed.

Lemma digits_ascii (u : Decimal.uint) : Forall (fun c => c < 128)%N (digits u).
Proof. induction u; simpl; constructor; auto; lia. Qed.

Lemma str_of_int_ascii (n : Z) : Forall (fun c => c < 128)%N (str_of_int n).
Proof.
  unfold str_of_int. destruct (Z.to_int n).
  - apply digits_ascii.
  - constructor; [lia | apply digits_ascii].
Qed.

Lemma zero_hash_ascii : Forall (fun c => c < 128)%N zero_hash.
Proof.
  unfold zero_hash, str_repeat. apply Forall_forall. intros c Hc.
  apply repeat_spec in Hc. subst c. lia.
Qed.

Lemma app_inv_same_length {A} (x x' y y' : list A) :
  length x = length x' -> x ++ y = x' ++ y' -> x = x' /\ y = y'.
Proof.
  revert x'; induction x as [|a x IH]; intros [|a' x'] Hl H; simpl in *;
    try discriminate; [auto|].
  injection H as -> H. injection Hl as Hl.
  destruct (IH x' Hl H) as [-> ->]. auto.
Qed.

End EncodeFacts.

(** Flipping one bit changes the value. *)
Section BitFlips.
Import ProofGenerator.

Lemma flip_nonce_bit_neq (n k : Z) : 0 <= k -> flip_nonce_bit n k <> n.
Proof.
  unfold flip_nonce_bit. intros Hk H.
  assert (Z.lxor n (Z.lxor n (2 ^ k)) = 0) as H0
      by (rewrite H; apply Z.lxor_nilpotent).
  rewrite <- Z.lxor_assoc, Z.lxor_nilpotent, Z.lxor_0_l in H0.
  pose proof (Z.pow_pos_nonneg 2 k ltac:(lia) Hk). lia.
Qed.

Lemma flip_nonce_bit_range (n k : Z) :
  0 <= n < 2 ^ 64 -> 0 <= k < 64 -> 0 <= flip_nonce_bit n k < 2 ^ 64.
Proof.
  unfold flip_nonce_bit. intros Hn Hk.
  assert (0 < 2 ^ k) as Hp by (apply Z.pow_pos_nonneg; lia).
  assert (0 <= Z.lxor n (2 ^ k)) as H0 by (apply Z.lxor_nonneg; lia).
  split; [exact H0|].
  destruct (Z.eq_dec (Z.lxor n (2 ^ k)) 0) as [->|Hne]; [lia|].
  apply Z.log2_lt_pow2; [lia|].
  pose proof (Z.log2_lxor n (2 ^ k) ltac:(lia) ltac:(lia)) as Hl.
  rewrite Z.log2_pow2 in Hl by lia.
  assert (Z.log2 n < 64) as Hn'.
  { destruct (Z.eq_dec n 0) as [->|Hn0]; [simpl; lia|].
    apply Z.log2_lt_pow2; lia. }
  lia.
Qed.

Lemma flip_byte_bit_neq (b : byte) (k : N) :
  (k < 8)%N -> flip_byte_bit b k <> b.
Proof.
  intros Hk.
  assert (k = 0 \/ k = 1 \/ k = 2 \/ k = 3 \/ k = 4 \/ k = 5 \/ k = 6 \/ k = 7)%N
    as Hcases by lia.
  repeat (destruct Hcases as [->|Hcases]); try subst k;
    destruct b; vm_compute; discriminate.
Qed.

Lemma flip_hash_bit_neq (h : bytes) (i : nat) (k : N) :
  (i < length h)%nat -> (k < 8)%N -> flip_hash_bit h i k <> h.
Proof.
  revert i; induction h as [|b h IH]; intros [|i] Hi Hk; simpl in *; try lia.
  - intros [= H]. now apply flip_byte_bit_neq in H.
  - intros [= H]. apply IH in H; [exact H | lia | exact Hk].
Qed.

End BitFlips.

(* ================================================================== *)
(** * The proof-of-work engine *)

Module ProofGeneratorSpec.
Import ProofGenerator.

Section WithSha256.

Variable sha256 : bytes -> bytes.

Lemma hash_in_range self data n :
  0 <= n < 2 ^ 64 -> _hash sha256 self data n = Ok (digest_of sha256 data n).
Proof. intros H. unfold _hash. now rewrite pack_Q_Ok. Qed.

Lemma hash_out_of_range self data n :
  n < 0 \/ 2 ^ 64 <= n -> _hash sha256 self data n = Raise StructError.
Proof. intros H. unfold _hash. now rewrite pack_Q_Raise. Qed.

Lemma hash_Ok_inv self data n h :
  _hash sha256 self data n = Ok h ->
  0 <= n < 2 ^ 64 /\ h = digest_of sha256 data n.
Proof.
  unfold _hash. intros H.
  apply bind_Ok_inv in H. destruct H as (b & Hb & [= <-]).
  apply pack_Q_Ok_inv in Hb. destruct Hb as [Hn ->]. now split.
Qed.

(** ** The search loop *)

Lemma generate_from_found self data st r n k :
  0 <= n -> n <= k < n + Z.of_nat r -> k < 2 ^ 64 ->
  meets sha256 self data k = true ->
  (forall j, n <= j < k -> meets sha256 self data j = false) ->
  generate_from sha256 self data st r n
  = Ok (Some (mkProof data k (digest_of sha256 data k) st)).
Proof.
  revert n; induction r as [|r IH]; intros n Hn Hk Hk64 Hmeet Hmin.
  - simpl in Hk. lia.
  - simpl. rewrite hash_in_range by lia. simpl.
    destruct (Z.eq_dec k n) as [->|Hne].
    + unfold meets in Hmeet. now rewrite Hmeet.
    + assert (meets sha256 self data n = false) as Hn' by (apply Hmin; lia).
      unfold meets in Hn'. rewrite Hn'.
      apply IH; try lia; auto. intros j Hj. apply Hmin. lia.
Qed.

Lemma generate_from_exhausted self data st r n :
  0 <= n -> n + Z.of_nat r <= 2 ^ 64 ->
  (forall j, n <= j < n + Z.of_nat r -> meets sha256 self data j = false) ->
  generate_from sha256 self data st r n = Ok None.
Proof.
  revert n; induction r as [|r IH]; intros n Hn Hr Hall; [reflexivity|].
  simpl. rewrite hash_in_range by lia. simpl.
  assert (meets sha256 self data n = false) as Hn' by (apply Hall; lia).
  unfold meets in Hn'. rewrite Hn'.
  apply IH; try lia. intros j Hj. apply Hall. lia.
Qed.

Lemma generate_from_overflow self data st r n :
  0 <= n <= 2 ^ 64 -> 2 ^ 64 < n + Z.of_nat r ->
  (forall j, n <= j < 2 ^ 64 -> meets sha256 self data j = false) ->
  generate_from sha256 self data st r n = Raise StructError.
Proof.
  revert n; induction r as [|r IH]; intros n Hn Hr Hall; [simpl in Hr; lia|].
  simpl. destruct (Z.eq_dec n (2 ^ 64)) as [->|Hne].
  - now rewrite hash_out_of_range by lia.
  - rewrite hash_in_range by lia. simpl.
    assert (meets sha256 self data n = false) as Hn' by (apply Hall; lia).
    unfold meets in Hn'. rewrite Hn'.
    apply IH; try lia. intros j Hj. apply Hall. lia.
Qed.

Lemma generate_from_sound self data st r n p :
  generate_from sha256 self data st r n = Ok (Some p) ->
  ProofGenerator.data p = data /\ timestamp p = st
  /\ n <= nonce p < n + Z.of_nat r
  /\ _hash sha256 self data (nonce p) = Ok (hash p)
  /\ bytes_lt (hash p) (target self) = true
  /\ (forall j, n <= j < nonce p -> meets sha256 self data j = false).
Proof.
  revert n; induction r as [|r IH]; intros n H; [discriminate|].
  simpl in H. apply bind_Ok_inv in H. destruct H as (h & Hh & H).
  destruct (bytes_lt h (target self)) eqn:Hlt.
  - injection H as <-. simpl. repeat split; auto; try lia.
  - apply IH in H. destruct H as (Hd & Ht & Hn & Hh' & Hlt' & Hmin).
    repeat split; auto; try lia.
    intros j Hj. destruct (Z.eq_dec j n) as [->|Hne].
    + apply hash_Ok_inv in Hh. destruct Hh as [_ ->]. exact Hlt.
    + apply Hmin. lia.
Qed.

Lemma generate_proof_overflow self now data max_attempts :
  2 ^ 64 < max_attempts ->
  (forall j, 0 <= j < 2 ^ 64 -> meets sha256 self data j = false) ->
  generate_proof sha256 self now data max_attempts = Raise StructError.
Proof.
  intros Hm Hall. unfold generate_proof.
  apply generate_from_overflow; [lia | lia | exact Hall].
Qed.

Lemma generate_proof_found self now data max_attempts k :
  0 <= k < max_attempts -> k < 2 ^ 64 ->
  meets sha256 self data k = true ->
  (forall j, 0 <= j < k -> meets sha256 self data j = false) ->
  generate_proof sha256 self now data max_attempts
  = Ok (Some (mkProof data k (digest_of sha256 data k) now)).
Proof.
  intros Hk Hk64 Hmeet Hmin. unfold generate_proof.
  apply generate_from_found; auto; lia.
Qed.

Lemma generate_proof_sound self now data max_attempts p :
  generate_proof sha256 self now data max_attempts = Ok (Some p) ->
  ProofGenerator.data p = data /\ timestamp p = now
  /\ 0 <= nonce p < max_attempts /\ nonce p < 2 ^ 64
  /\ hash p = digest_of sha256 data (nonce p)
  /\ meets sha256 self data (nonce p) = true
  /\ (forall j, 0 <= j < nonce p -> meets sha256 self data j = false).
Proof.
  unfold generate_proof. intros H. apply generate_from_sound in H.
  destruct H as (Hd & Ht & Hn & Hh & Hlt & Hmin).
  apply hash_Ok_inv in Hh. destruct Hh as [Hr Hh].
  repeat split; auto; try lia.
  unfold meets. now rewrite <- Hh.
Qed.

Lemma generate_proof_exhausted self now data max_attempts :
  max_attempts <= 2 ^ 64 ->
  (forall j, 0 <= j < max_attempts -> meets sha256 self data j = false) ->
  generate_proof sha256 self now data max_attempts = Ok None.
Proof.
  intros Hm Hall. unfold generate_proof.
  apply generate_from_exhausted; try lia.
  intros j Hj. apply Hall. lia.
Qed.

(** C3, as amended: the search visits the nonces 0, 1, 2, ... in this
    order.  If some nonce below [max_attempts] (and below 2^64) has its
    digest [SHA256(data || big-endian-64-bit(nonce))] below the target,
    [generate_proof] returns the Proof of the least such nonce, with that
    digest as hash and the time taken at the start of the call as
    timestamp; a returned Proof is always of this kind; and when
    [max_attempts <= 2^64] and no nonce below [max_attempts] has its
    digest below the target, it returns [None]. *)
Theorem generate_proof_least_nonce self now data max_attempts :
  (forall k,
      0 <= k < max_attempts -> k < 2 ^ 64 ->
      meets sha256 self data k = true ->
      (forall j, 0 <= j < k -> meets sha256 self data j = false) ->
      generate_proof sha256 self now data max_attempts
      = Ok (Some (mkProof data k (digest_of sha256 data k) now)))
  /\ (forall p,
         generate_proof sha256 self now data max_attempts = Ok (Some p) ->
         ProofGenerator.data p = data /\ timestamp p = now
         /\ 0 <= nonce p < max_attempts /\ nonce p < 2 ^ 64
         /\ hash p = digest_of sha256 data (nonce p)
         /\ meets sha256 self data (nonce p) = true
         /\ (forall j, 0 <= j < nonce p ->
                       meets sha256 self data j = false))
  /\ (max_attempts <= 2 ^ 64 ->
      (forall j, 0 <= j < max_attempts -> meets sha256 self data j = false) ->
      generate_proof sha256 self now data max_attempts = Ok None).
Proof.
  split; [|split].
  - intros k. apply generate_proof_found.
  - intros p. apply generate_proof_sound.
  - apply generate_proof_exhausted.
Qed.

(** C6, as amended: with difficulty 0 and at least one attempt allowed,
    [generate_proof] returns the Proof of nonce 0 for every data whose
    digest at nonce 0 is not the 32 octets 0xFF (the target, compared
    strictly). *)
Theorem generate_proof_difficulty_zero self now data max_attempts :
  (forall b, length (sha256 b) = 32%nat) ->
  init 0 = Ok self ->
  0 < max_attempts ->
  digest_of sha256 data 0 <> repeat xff 32 ->
  generate_proof sha256 self now data max_attempts
  = Ok (Some (mkProof data 0 (digest_of sha256 data 0) now)).
Proof.
  intros Hlen Hself Hm Hne. injection Hself as <-.
  apply generate_proof_found; try lia.
  pose proof (bytes_lt_ones (digest_of sha256 data 0)) as Hlt.
  unfold digest_of in Hlt at 2 4. rewrite Hlen in Hlt.
  rewrite bytes_eqb_neq in Hlt by exact Hne. exact Hlt.
Qed.

(** The digest left out by C6: the 32 octets 0xFF are not below the
    target of difficulty 0. *)
Lemma difficulty_zero_all_ones self data n :
  init 0 = Ok self ->
  digest_of sha256 data n = repeat xff 32 ->
  meets sha256 self data n = false.
Proof.
  intros Hself H. injection Hself as <-. unfold meets. rewrite H.
  apply bytes_lt_irrefl.
Qed.

(** ** Verification of one proof *)

Lemma verify_proof_true_iff self p :
  verify_proof sha256 self p = Ok true
  <-> nonce_in_range p
      /\ hash p = digest_of sha256 (data p) (nonce p)
      /\ bytes_lt (hash p) (target self) = true.
Proof.
  unfold verify_proof, nonce_in_range. split.
  - intros H. apply bind_Ok_inv in H. destruct H as (h & Hh & [= H]).
    apply hash_Ok_inv in Hh. destruct Hh as [Hr ->].
    apply andb_true_iff in H. destruct H as [He Hl].
    apply bytes_eqb_eq in He. rewrite <- He. auto.
  - intros (Hr & Hh & Hl). rewrite hash_in_range by exact Hr. simpl.
    rewrite <- Hh, bytes_eqb_refl, Hl. reflexivity.
Qed.

Lemma verify_proof_in_range self p :
  nonce_in_range p ->
  verify_proof sha256 self p
  = Ok (bytes_eqb (digest_of sha256 (data p) (nonce p)) (hash p)
        && bytes_lt (digest_of sha256 (data p) (nonce p)) (target self)).
Proof.
  intros Hr. unfold verify_proof. now rewrite hash_in_range by exact Hr.
Qed.

(** ** The search for the next proof *)

Lemma verify_chain_not_later self p1 p2 :
  timestamp p1 >= timestamp p2 -> verify_chain sha256 self p1 p2 = Ok false.
Proof.
  intros H. unfold verify_chain.
  replace (timestamp p1 >=? timestamp p2) with true; [reflexivity|].
  symmetry. apply Z.geb_le. lia.
Qed.

Lemma find_from_not_later self prev data st r n :
  timestamp prev >= st -> 0 <= n -> n + Z.of_nat r <= 2 ^ 64 ->
  find_from sha256 self prev data st r n = Ok None.
Proof.
  intros Hts. revert n; induction r as [|r IH]; intros n Hn Hr;
    [reflexivity|].
  simpl. rewrite hash_in_range by lia. simpl.
  rewrite verify_chain_not_later by exact Hts. simpl.
  apply IH; lia.
Qed.

Lemma find_from_timestamp self prev data st r n p :
  find_from sha256 self prev data st r n = Ok (Some p) ->
  timestamp p = st.
Proof.
  revert n; induction r as [|r IH]; intros n H; [discriminate|].
  simpl in H. apply bind_Ok_inv in H. destruct H as (h & Hh & H).
  apply bind_Ok_inv in H. destruct H as ([|] & Hv & H).
  - now injection H as <-.
  - now apply IH in H.
Qed.

(** C10: [find_next_proof] stamps every candidate with the one time
    taken at the start of the call; when the previous proof's timestamp
    is not before that time, each of the 1,000,000 candidates fails the
    chronological check of [verify_chain] and the call returns [None],
    whatever the data, the difficulty and the digests. *)
Theorem find_next_proof_not_later self now previous_proof data :
  (forall p, find_next_proof sha256 self now previous_proof data
             = Ok (Some p) -> timestamp p = now)
  /\ (timestamp previous_proof >= now ->
      (forall nonce h,
          verify_chain sha256 self previous_proof
                       (mkProof data nonce h now) = Ok false)
      /\ find_next_proof sha256 self now previous_proof data = Ok None).
Proof.
  split.
  - intros p H. unfold find_next_proof in H.
    now apply find_from_timestamp in H.
  - intros Hts. split.
    + intros n h. now apply verify_chain_not_later.
    + unfold find_next_proof. apply find_from_not_later; [exact Hts|lia|].
      rewrite Z2Nat.id by lia. lia.
Qed.

(** ** Tampering with a verified proof *)

Lemma verify_proof_with_hash self p h' :
  verify_proof sha256 self p = Ok true -> h' <> hash p ->
  verify_proof sha256 self (with_hash p h') = Ok false.
Proof.
  intros Hv Hne. apply verify_proof_true_iff in Hv.
  destruct Hv as (Hr & Hh & Hl).
  rewrite verify_proof_in_range by exact Hr. simpl.
  rewrite <- Hh. now rewrite bytes_eqb_neq by congruence.
Qed.

Lemma verify_proof_with_nonce self p n' :
  verify_proof sha256 self p = Ok true ->
  0 <= n' < 2 ^ 64 -> n' <> nonce p ->
  no_collision sha256 (data p ++ be_bytes 8 n')
               (data p ++ be_bytes 8 (nonce p)) ->
  verify_proof sha256 self (with_nonce p n') = Ok false.
Proof.
  intros Hv Hr' Hne Hnc. apply verify_proof_true_iff in Hv.
  destruct Hv as (Hr & Hh & Hl).
  rewrite verify_proof_in_range by exact Hr'. simpl.
  rewrite bytes_eqb_neq; [reflexivity|].
  rewrite Hh. unfold digest_of. intros Heq.
  apply Hnc, app_inv_head in Heq.
  apply Hne, (be_bytes_inj 8); auto;
    change (256 ^ Z.of_nat 8) with (2 ^ 64); assumption.
Qed.

(** C7: [verify_proof] returns true exactly when the digest recomputed
    from [proof.data] and [proof.nonce] equals [proof.hash] and is below
    the target; it is true of every Proof [generate_proof] returns; and
    after a change of [proof.hash] (any other value, so any flipped
    bit) it is false, as it is after a change of [proof.nonce] (any
    other 64-bit value, so any flipped bit) unless SHA-256 sends the
    two preimages to one digest. *)
Theorem verify_proof_both_checks self :
  (forall p,
      verify_proof sha256 self p = Ok true
      <-> exists h, _hash sha256 self (data p) (nonce p) = Ok h
                    /\ h = hash p /\ bytes_lt h (target self) = true)
  /\ (forall now data max_attempts p,
         generate_proof sha256 self now data max_attempts = Ok (Some p) ->
         verify_proof sha256 self p = Ok true)
  /\ (forall p h',
         verify_proof sha256 self p = Ok true -> h' <> hash p ->
         verify_proof sha256 self (with_hash p h') = Ok false)
  /\ (forall p i k,
         verify_proof sha256 self p = Ok true ->
         (i < length (hash p))%nat -> (k < 8)%N ->
         verify_proof sha256 self
                      (with_hash p (flip_hash_bit (hash p) i k)) = Ok false)
  /\ (forall p n',
         verify_proof sha256 self p = Ok true ->
         0 <= n' < 2 ^ 64 -> n' <> nonce p ->
         no_collision sha256 (data p ++ be_bytes 8 n')
                      (data p ++ be_bytes 8 (nonce p)) ->
         verify_proof sha256 self (with_nonce p n') = Ok false)
  /\ (forall p k,
         verify_proof sha256 self p = Ok true -> 0 <= k < 64 ->
         no_collision sha256
                      (data p ++ be_bytes 8 (flip_nonce_bit (nonce p) k))
                      (data p ++ be_bytes 8 (nonce p)) ->
         verify_proof sha256 self
                      (with_nonce p (flip_nonce_bit (nonce p) k)) = Ok false).
Proof.
  repeat split.
  - intros H. apply verify_proof_true_iff in H.
    destruct H as (Hr & Hh & Hl). exists (hash p).
    rewrite hash_in_range by exact Hr.
    split; [now rewrite Hh | split; [reflexivity | exact Hl]].
  - intros (h & Hh & -> & Hl). apply verify_proof_true_iff.
    apply hash_Ok_inv in Hh. destruct Hh as [Hr Hh].
    unfold nonce_in_range. auto.
  - intros now data m p H. apply verify_proof_true_iff.
    apply generate_proof_sound in H.
    destruct H as (<- & _ & Hn & Hn64 & Hh & Hm & _).
    unfold nonce_in_range. repeat split; try lia; auto.
    unfold meets in Hm. now rewrite Hh.
  - intros p h'. apply verify_proof_with_hash.
  - intros p i k Hv Hi Hk. apply verify_proof_with_hash; [exact Hv|].
    now apply flip_hash_bit_neq.
  - intros p n'. apply verify_proof_with_nonce.
  - intros p k Hv Hk. pose proof Hv as Hv'.
    apply verify_proof_true_iff in Hv'. destruct Hv' as (Hr & _).
    apply verify_proof_with_nonce; auto.
    + now apply flip_nonce_bit_range.
    + apply flip_nonce_bit_neq. lia.
Qed.

(** ** Verification of a pair *)

Lemma verify_proof_returns self p :
  nonce_in_range p -> exists b, verify_proof sha256 self p = Ok b.
Proof. intros H. rewrite verify_proof_in_range by exact H. eauto. Qed.

(** C2: [verify_chain proofA proofB] returns true exactly when
    [proofA.timestamp < proofB.timestamp], [verify_proof] is true of
    both, and [SHA256(proofA.hash || proofB.hash)] is below the chain
    target, which has one zero octet fewer than the base target and
    its 0xFF octets counted from 33; equal timestamps give false
    whatever the proofs; and when one of the conditions fails the
    result is false. *)
Theorem verify_chain_three_conditions self proofA proofB :
  (verify_chain sha256 self proofA proofB = Ok true
   <-> timestamp proofA < timestamp proofB
       /\ verify_proof sha256 self proofA = Ok true
       /\ verify_proof sha256 self proofB = Ok true
       /\ bytes_lt (sha256 (hash proofA ++ hash proofB))
                   (chain_target (difficulty self)) = true)
  /\ (timestamp proofA >= timestamp proofB ->
      verify_chain sha256 self proofA proofB = Ok false)
  /\ (nonce_in_range proofA -> nonce_in_range proofB ->
      (verify_chain sha256 self proofA proofB = Ok false
       <-> ~ (timestamp proofA < timestamp proofB
              /\ verify_proof sha256 self proofA = Ok true
              /\ verify_proof sha256 self proofB = Ok true
              /\ bytes_lt (sha256 (hash proofA ++ hash proofB))
                          (chain_target (difficulty self)) = true)))
  /\ (forall d, 1 <= d <= 32 -> init d = Ok self ->
      target self
      = repeat x00 (Z.to_nat d) ++ repeat xff (32 - Z.to_nat d)
      /\ chain_target (difficulty self)
         = repeat x00 (Z.to_nat d - 1) ++ repeat xff (33 - Z.to_nat d)).
Proof.
  assert (verify_chain sha256 self proofA proofB = Ok true
   <-> timestamp proofA < timestamp proofB
       /\ verify_proof sha256 self proofA = Ok true
       /\ verify_proof sha256 self proofB = Ok true
       /\ bytes_lt (sha256 (hash proofA ++ hash proofB))
                   (chain_target (difficulty self)) = true) as Hiff.
  { unfold verify_chain, chain_target. rewrite Z.geb_leb.
    destruct (timestamp proofB <=? timestamp proofA) eqn:E.
    - apply Z.leb_le in E. split; [discriminate | lia].
    - apply Z.leb_gt in E.
      destruct (verify_proof sha256 self proofA) as [[|]|e]; simpl;
        [destruct (verify_proof sha256 self proofB) as [[|]|e']; simpl| |];
        (split; [intros [= H] || intros H; try discriminate
                | intros (_ & H1 & H2 & H3); try discriminate;
                  try congruence]).
      repeat split; auto. }
  split; [exact Hiff|]. split; [apply verify_chain_not_later|]. split.
  - intros HA HB.
    destruct (verify_proof_returns self proofA HA) as [a Ha].
    destruct (verify_proof_returns self proofB HB) as [b Hb].
    assert (exists r, verify_chain sha256 self proofA proofB = Ok r)
      as [r Hr].
    { unfold verify_chain.
      destruct (timestamp proofA >=? timestamp proofB); [eauto|].
      rewrite Ha. simpl. destruct a; simpl; [rewrite Hb; simpl|eauto].
      destruct b; simpl; eauto. }
    rewrite <- Hiff, Hr. destruct r; split; congruence.
  - intros d Hd Hinit. clear Hiff.
    assert (self = mk d (bytes_repeat x00 d ++ bytes_repeat xff (32 - d)))
      as -> by (unfold init in Hinit; congruence).
    cbn [target difficulty]. unfold chain_target, bytes_repeat.
    replace (Z.to_nat (d - 1)) with (Z.to_nat d - 1)%nat by lia.
    replace (Z.to_nat (32 - d)) with (32 - Z.to_nat d)%nat by lia.
    replace (Z.to_nat (33 - d)) with (33 - Z.to_nat d)%nat by lia.
    split; reflexivity.
Qed.

End WithSha256.

End ProofGeneratorSpec.

(** The engine on SHA-256 itself. *)
Module ProofGeneratorOnSHA256.
Import ProofGenerator ProofGeneratorSpec.




(** The search on [b"a"] with difficulty 1: nonce 6 is the first whose
    digest starts with a zero octet. *)
Example generate_proof_a :
  init 1 = Ok (mk 1 (x00 :: repeat xff 31))
  /\ generate_proof SHA256.digest (mk 1 (x00 :: repeat xff 31)) 1700000000
                    (btext "a") 100
     = Ok (Some (mkProof (btext "a") 6 (digest_of SHA256.digest (btext "a") 6)
                         1700000000))
  /\ hexdigest (digest_of SHA256.digest (btext "a") 6)
     = text "005742557a805eebd8741a3a85650ecc49337aa2d5c725374699f5227da33fe9".
Proof.
  split; [vm_compute; reflexivity|].
  split; vm_compute; reflexivity.
Qed.

Lemma generate_proof_least_nonce_witness :
  (0 <= 6 < 1000000 /\ 6 < 2 ^ 64
   /\ meets SHA256.digest (mk 1 (x00 :: repeat xff 31)) (btext "a") 6 = true
   /\ forall j, 0 <= j < 6 ->
                meets SHA256.digest (mk 1 (x00 :: repeat xff 31)) (btext "a") j
                = false)
  /\ generate_proof SHA256.digest (mk 1 (x00 :: repeat xff 31)) 1700000000
                    (btext "a") 1000000
     = Ok (Some (mkProof (btext "a") 6 (digest_of SHA256.digest (btext "a") 6)
                         1700000000))
  /\ (6 <= 2 ^ 64
      /\ generate_proof SHA256.digest (mk 1 (x00 :: repeat xff 31)) 1700000000
                        (btext "a") 6
         = Ok None).
Proof.
  destruct (generate_proof_least_nonce
              SHA256.digest (mk 1 (x00 :: repeat xff 31)) 1700000000
              (btext "a") 1000000)
    as (Hfound & _ & _).
  destruct (generate_proof_least_nonce
              SHA256.digest (mk 1 (x00 :: repeat xff 31)) 1700000000
              (btext "a") 6)
    as (_ & _ & Hnone).
  assert (meets SHA256.digest (mk 1 (x00 :: repeat xff 31)) (btext "a") 6
          = true) as Hmeet
      by (vm_compute; reflexivity).
  assert (forall j, 0 <= j < 6 ->
                    meets SHA256.digest (mk 1 (x00 :: repeat xff 31))
                          (btext "a") j = false) as Hbelow.
  { intros j Hj.
    assert (j = 0 \/ j = 1 \/ j = 2 \/ j = 3 \/ j = 4 \/ j = 5) as Hcases
        by lia.
    repeat (destruct Hcases as [->|Hcases]); try subst j;
      vm_compute; reflexivity. }
  split; [split; [lia | split; [lia | split; [exact Hmeet | exact Hbelow]]]|].
  split.
  - apply Hfound; [lia | lia | exact Hmeet | exact Hbelow].
  - split; [lia|]. apply Hnone; [lia | exact Hbelow].
Defined.

(** Against C3 as worded: with difficulty 32 the target is 32 zero
    octets, below which no digest is; with [2^64 + 1] attempts allowed
    the search leaves by the [struct.error] of nonce [2^64], not by
    [None]. *)
Lemma generate_proof_exhausted_past_64_bits :
  init 32 = Ok (mk 32 (repeat x00 32))
  /\ (forall j, 0 <= j < 2 ^ 64 + 1 ->
                meets SHA256.digest (mk 32 (repeat x00 32)) [] j = false)
  /\ generate_proof SHA256.digest (mk 32 (repeat x00 32)) 0 [] (2 ^ 64 + 1)
     = Raise StructError.
Proof.
  assert (forall j, meets SHA256.digest (mk 32 (repeat x00 32)) [] j = false)
    as Hnever.
  { intros j. unfold meets, digest_of. cbn [target].
    pose proof (bytes_lt_zeros (SHA256.digest ([] ++ be_bytes 8 j))) as H.
    now rewrite sha256_digest_length in H. }
  split; [reflexivity|]. split; [intros j _; apply Hnever|].
  apply generate_proof_overflow; [lia | intros j _; apply Hnever].
Qed.

Lemma generate_proof_difficulty_zero_witness :
  init 0 = Ok (mk 0 (repeat xff 32))
  /\ 0 < 1000000
  /\ digest_of SHA256.digest [] 0 <> repeat xff 32
  /\ generate_proof SHA256.digest (mk 0 (repeat xff 32)) 1700000000 []
                    1000000
     = Ok (Some (mkProof [] 0 (digest_of SHA256.digest [] 0) 1700000000)).
Proof.
  assert (digest_of SHA256.digest [] 0 <> repeat xff 32) as Hne
      by (vm_compute; discriminate).
  split; [reflexivity|]. split; [lia|]. split; [exact Hne|].
  apply (generate_proof_difficulty_zero SHA256.digest);
    [exact sha256_digest_length | reflexivity | lia | exact Hne].
Defined.

(** Against C6 as worded: with no attempt allowed there is no first
    attempt, and difficulty 0 gives [None] like any other. *)
Lemma generate_proof_difficulty_zero_no_attempt :
  init 0 = Ok (mk 0 (repeat xff 32))
  /\ generate_proof SHA256.digest (mk 0 (repeat xff 32)) 1700000000 [] 0
     = Ok None.
Proof. split; reflexivity. Qed.

Lemma find_next_proof_not_later_witness :
  5 >= 5
  /\ find_next_proof SHA256.digest (mk 0 (repeat xff 32)) 5
                     (mkProof [] 0 (digest_of SHA256.digest [] 0) 5) []
     = Ok None.
Proof.
  split; [lia|].
  apply (find_next_proof_not_later
           SHA256.digest (mk 0 (repeat xff 32)) 5
           (mkProof [] 0 (digest_of SHA256.digest [] 0) 5) []).
  simpl. lia.
Defined.

Lemma verify_proof_both_checks_witness :
  verify_proof SHA256.digest (mk 0 (repeat xff 32))
               (mkProof [] 0 (digest_of SHA256.digest [] 0) 7) = Ok true
  /\ (generate_proof SHA256.digest (mk 0 (repeat xff 32)) 7 [] 10
      = Ok (Some (mkProof [] 0 (digest_of SHA256.digest [] 0) 7))
      /\ verify_proof SHA256.digest (mk 0 (repeat xff 32))
                      (mkProof [] 0 (digest_of SHA256.digest [] 0) 7)
         = Ok true)
  /\ ((5 < 32)%nat /\ (2 < 8)%N
      /\ verify_proof SHA256.digest (mk 0 (repeat xff 32))
           (mkProof [] 0
              (flip_hash_bit (digest_of SHA256.digest [] 0) 5 2) 7)
         = Ok false)
  /\ (0 <= 3 < 64
      /\ no_collision SHA256.digest
                      ([] ++ be_bytes 8 (flip_nonce_bit 0 3))
                      ([] ++ be_bytes 8 0)
      /\ verify_proof SHA256.digest (mk 0 (repeat xff 32))
           (mkProof [] (flip_nonce_bit 0 3)
                    (digest_of SHA256.digest [] 0) 7)
         = Ok false).
Proof.
  destruct (verify_proof_both_checks SHA256.digest (mk 0 (repeat xff 32)))
    as (_ & Hgen & _ & Hflip & _ & Hnonce).
  assert (verify_proof SHA256.digest (mk 0 (repeat xff 32))
            (mkProof [] 0 (digest_of SHA256.digest [] 0) 7) = Ok true) as Hv
      by (vm_compute; reflexivity).
  assert (generate_proof SHA256.digest (mk 0 (repeat xff 32)) 7 [] 10
          = Ok (Some (mkProof [] 0 (digest_of SHA256.digest [] 0) 7))) as Hg
      by (vm_compute; reflexivity).
  assert (SHA256.digest ([] ++ be_bytes 8 (flip_nonce_bit 0 3))
          <> SHA256.digest ([] ++ be_bytes 8 0)) as Hdiff
      by (vm_compute; discriminate).
  assert (no_collision SHA256.digest
                       ([] ++ be_bytes 8 (flip_nonce_bit 0 3))
                       ([] ++ be_bytes 8 0)) as Hnc
      by (intros H; exfalso; exact (Hdiff H)).
  split; [exact Hv|]. split; [|split].
  - split; [exact Hg|]. exact (Hgen _ _ _ _ Hg).
  - split; [lia|]. split; [lia|].
    apply (Hflip (mkProof [] 0 (digest_of SHA256.digest [] 0) 7) 5%nat 2%N);
      [exact Hv | | lia].
    cbn [hash]. unfold digest_of. rewrite sha256_digest_length. lia.
  - split; [lia|]. split; [exact Hnc|].
    apply (Hnonce (mkProof [] 0 (digest_of SHA256.digest [] 0) 7) 3);
      [exact Hv | lia | exact Hnc].
Defined.

Lemma verify_chain_three_conditions_witness :
  (1 < 2
   /\ verify_chain SHA256.digest (mk 0 (repeat xff 32))
        (mkProof [] 0 (digest_of SHA256.digest [] 0) 1)
        (mkProof [] 0 (digest_of SHA256.digest [] 0) 2) = Ok true)
  /\ (2 >= 2
      /\ verify_chain SHA256.digest (mk 0 (repeat xff 32))
           (mkProof [] 0 (digest_of SHA256.digest [] 0) 2)
           (mkProof [] 0 (digest_of SHA256.digest [] 0) 2) = Ok false)
  /\ (nonce_in_range (mkProof [] 0 [] 1)
      /\ nonce_in_range (mkProof [] 0 (digest_of SHA256.digest [] 0) 2)
      /\ verify_chain SHA256.digest (mk 0 (repeat xff 32))
           (mkProof [] 0 [] 1)
           (mkProof [] 0 (digest_of SHA256.digest [] 0) 2) = Ok false)
  /\ (1 <= 3 <= 32 /\ init 3 = Ok (mk 3 (repeat x00 3 ++ repeat xff 29))
      /\ chain_target 3 = repeat x00 2 ++ repeat xff 30).
Proof.
  destruct (verify_chain_three_conditions
              SHA256.digest (mk 0 (repeat xff 32))
              (mkProof [] 0 (digest_of SHA256.digest [] 0) 1)
              (mkProof [] 0 (digest_of SHA256.digest [] 0) 2))
    as (Htrue & _ & _ & _).
  destruct (verify_chain_three_conditions
              SHA256.digest (mk 0 (repeat xff 32))
              (mkProof [] 0 (digest_of SHA256.digest [] 0) 2)
              (mkProof [] 0 (digest_of SHA256.digest [] 0) 2))
    as (_ & Hsame & _ & _).
  destruct (verify_chain_three_conditions
              SHA256.digest (mk 0 (repeat xff 32))
              (mkProof [] 0 [] 1)
              (mkProof [] 0 (digest_of SHA256.digest [] 0) 2))
    as (_ & _ & Hfalse & _).
  destruct (verify_chain_three_conditions
              SHA256.digest (mk 3 (repeat x00 3 ++ repeat xff 29))
              (mkProof [] 0 [] 1) (mkProof [] 0 [] 2))
    as (_ & _ & _ & Htarget).
  split; [|split; [|split]].
  - split; [lia|]. apply Htrue. cbn [timestamp hash].
    split; [lia|].
    split; [vm_compute; reflexivity|].
    split; vm_compute; reflexivity.
  - split; [lia|]. apply Hsame. cbn [timestamp]. lia.
  - assert (nonce_in_range (mkProof [] 0 [] 1)) as H1
        by (unfold nonce_in_range; cbn [nonce]; lia).
    assert (nonce_in_range (mkProof [] 0 (digest_of SHA256.digest [] 0) 2))
      as H2 by (unfold nonce_in_range; cbn [nonce]; lia).
    split; [exact H1|]. split; [exact H2|].
    assert (verify_proof SHA256.digest (mk 0 (repeat xff 32))
                         (mkProof [] 0 [] 1) = Ok false) as Hno
        by (vm_compute; reflexivity).
    apply (Hfalse H1 H2). intros (_ & Hv & _).
    rewrite Hno in Hv. discriminate.
  - split; [lia|]. split; [reflexivity|].
    apply (Htarget 3 ltac:(lia) eq_refl).
Defined.

End ProofGeneratorOnSHA256.

(* ================================================================== *)
(** * The hash-chain ledger *)

Module HashServiceSpec.
Import HashService.

Section WithSha256.

Variable sha256 : bytes -> bytes.

(** ** One turn of the verification loop *)

Lemma verify_from_step blocks i rest current previous :
  nth_error blocks i = Some current ->
  nth_error blocks (i - 1) = Some previous ->
  verify_from sha256 blocks (i :: rest)
  = if negb (str_eqb (previous_hash current) (hash previous))
    then Ok (Invalid i InvalidPreviousHashReference)
    else h <- recomputed sha256 blocks i ;;
         if negb (str_eqb h (hash current)) then Ok (Invalid i InvalidHash)
         else verify_from sha256 blocks rest.
Proof.
  intros Hc Hp. simpl. unfold recomputed, getitem. rewrite Hc, Hp. simpl.
  reflexivity.
Qed.

Lemma nth_error_in_range {A} (l : list A) (i : nat) :
  (i < length l)%nat -> exists x, nth_error l i = Some x.
Proof.
  intros H. destruct (nth_error l i) as [x|] eqn:E; [eauto|].
  apply nth_error_None in E. lia.
Qed.

Lemma passes_not_fails blocks i r :
  passes sha256 blocks i -> fails_with sha256 blocks i r -> False.
Proof.
  intros [(c & p & Hc & Hp & Hl) (c' & Hc' & Hh)].
  intros [(_ & c2 & p2 & Hc2 & Hp2 & Hn)
         |[(_ & _ & c2 & h & Hc2 & Hr & Hn) | (e & _ & _ & Hr)]].
  - congruence.
  - rewrite Hc' in Hc2. injection Hc2 as <-. congruence.
  - congruence.
Qed.

Lemma fails_with_functional blocks i r r' :
  fails_with sha256 blocks i r -> fails_with sha256 blocks i r' -> r = r'.
Proof.
  intros [(-> & c & p & Hc & Hp & Hn)
         |[(-> & (c & p & Hc & Hp & Hl) & c2 & h & Hc2 & Hr & Hn)
          | (e & -> & (c & p & Hc & Hp & Hl) & Hr)]];
  intros [(-> & c' & p' & Hc' & Hp' & Hn')
         |[(-> & (c' & p' & Hc' & Hp' & Hl') & c2' & h' & Hc2' & Hr' & Hn')
          | (e' & -> & (c' & p' & Hc' & Hp' & Hl') & Hr')]];
  try reflexivity; try congruence.
Qed.

(** The loop either visits every block and finds it sound, or stops at
    the first block that is not. *)
Lemma verify_from_outcome blocks m :
  forall k, (1 <= k)%nat -> (k + m = length blocks)%nat ->
  (verify_from sha256 blocks (seq k m) = Ok (Valid (length blocks))
   /\ forall j, (k <= j < k + m)%nat -> passes sha256 blocks j)
  \/ exists i, (k <= i < k + m)%nat
               /\ (forall j, (k <= j < i)%nat -> passes sha256 blocks j)
               /\ fails_with sha256 blocks i
                             (verify_from sha256 blocks (seq k m)).
Proof.
  induction m as [|m IH]; intros k Hk Hlen.
  - left. split; [reflexivity | intros j Hj; lia].
  - destruct (nth_error_in_range blocks k ltac:(lia)) as [c Hc].
    destruct (nth_error_in_range blocks (k - 1) ltac:(lia)) as [p Hp].
    cbn [seq]. rewrite (verify_from_step blocks k _ c p Hc Hp).
    destruct (str_eqb (previous_hash c) (hash p)) eqn:El; simpl.
    2:{ right. exists k. split; [lia|]. split; [intros j Hj; lia|].
        left. split; [reflexivity|]. exists c, p. repeat split; auto.
        intros H. apply str_eqb_eq in H. congruence. }
    apply str_eqb_eq in El.
    assert (link_ok blocks k) as Hlink by (exists c, p; auto).
    destruct (recomputed sha256 blocks k) as [h|e] eqn:Hr; simpl.
    2:{ right. exists k. split; [lia|]. split; [intros j Hj; lia|].
        right. right. exists e. auto. }
    destruct (str_eqb h (hash c)) eqn:Eh; simpl.
    2:{ right. exists k. split; [lia|]. split; [intros j Hj; lia|].
        right. left. split; [reflexivity|]. split; [exact Hlink|].
        exists c, h. repeat split; auto.
        intros H. apply str_eqb_eq in H. congruence. }
    apply str_eqb_eq in Eh. subst h.
    assert (passes sha256 blocks k) as Hpass
        by (split; [exact Hlink | exists c; auto]).
    destruct (IH (S k) ltac:(lia) ltac:(lia))
      as [[Hv Hall] | (i & Hi & Hpre & Hf)].
    + left. split; [exact Hv|]. intros j Hj.
      destruct (Nat.eq_dec j k) as [->|Hne]; [exact Hpass|].
      apply Hall. lia.
    + right. exists i. split; [lia|]. split; [|exact Hf].
      intros j Hj. destruct (Nat.eq_dec j k) as [->|Hne]; [exact Hpass|].
      apply Hpre. lia.
Qed.

Lemma verify_chain_outcome blocks :
  (verify_chain sha256 blocks = Ok (Valid (length blocks))
   /\ forall j, (1 <= j < length blocks)%nat -> passes sha256 blocks j)
  \/ exists i, (1 <= i < length blocks)%nat
               /\ (forall j, (1 <= j < i)%nat -> passes sha256 blocks j)
               /\ fails_with sha256 blocks i (verify_chain sha256 blocks).
Proof.
  unfold verify_chain. destruct blocks as [|b blocks].
  - left. split; [reflexivity | simpl; intros j Hj; lia].
  - destruct (verify_from_outcome (b :: blocks) (length (b :: blocks) - 1) 1
                ltac:(lia) ltac:(simpl; lia))
      as [[Hv Hall] | (i & Hi & Hpre & Hf)].
    + left. split; [exact Hv|]. intros j Hj. apply Hall. simpl in *. lia.
    + right. exists i. split; [simpl in *; lia|]. auto.
Qed.

(** The first failing block, and what is reported of it, are
    determined. *)
Lemma first_failure_unique blocks i i' r r' :
  (forall j, (1 <= j < i)%nat -> passes sha256 blocks j) ->
  fails_with sha256 blocks i r -> (1 <= i)%nat ->
  (forall j, (1 <= j < i')%nat -> passes sha256 blocks j) ->
  fails_with sha256 blocks i' r' -> (1 <= i')%nat ->
  i = i' /\ r = r'.
Proof.
  intros Hpre Hf Hi Hpre' Hf' Hi'.
  assert (i = i') as <-.
  { destruct (Nat.lt_trichotomy i i') as [Hlt|[Heq|Hgt]]; [|exact Heq|].
    - exfalso. apply (passes_not_fails blocks i r); [apply Hpre'; lia|auto].
    - exfalso. apply (passes_not_fails blocks i' r'); [apply Hpre; lia|auto]. }
  split; [reflexivity|]. eapply fails_with_functional; eauto.
Qed.

Lemma verify_chain_stops_at blocks i r :
  (1 <= i < length blocks)%nat ->
  (forall j, (1 <= j < i)%nat -> passes sha256 blocks j) ->
  fails_with sha256 blocks i r ->
  verify_chain sha256 blocks = r.
Proof.
  intros Hi Hpre Hf.
  destruct (verify_chain_outcome blocks)
    as [[_ Hall] | (i' & Hi' & Hpre' & Hf')].
  - exfalso. apply (passes_not_fails blocks i r); [apply Hall; lia|auto].
  - destruct (first_failure_unique blocks i i' r _ Hpre Hf ltac:(lia)
                                   Hpre' Hf' ltac:(lia)) as [_ ->].
    reflexivity.
Qed.

Lemma verify_chain_valid_iff blocks n :
  verify_chain sha256 blocks = Ok (Valid n)
  <-> n = length blocks
      /\ forall i, (1 <= i < length blocks)%nat -> passes sha256 blocks i.
Proof.
  destruct (verify_chain_outcome blocks)
    as [[Hv Hall] | (i & Hi & Hpre & Hf)].
  - rewrite Hv. split; [intros [= <-]; auto | intros [-> _]; reflexivity].
  - split.
    + intros Hv. rewrite Hv in Hf.
      destruct Hf as [(H & _)|[(H & _)|(e & H & _)]]; discriminate.
    + intros [_ Hall]. exfalso.
      apply (passes_not_fails blocks i _ (Hall i Hi) Hf).
Qed.

(** C4: [verify_chain] visits the blocks from index 1 on, checks of
    each first the link to the hash of the block before it and then the
    stored hash against the recomputed one, and returns at the first
    block that fails, so the index reported is the lowest failing one;
    an empty or single-block ledger is valid; a valid result carries
    the number of blocks. *)
Theorem verify_chain_fail_fast blocks :
  ((length blocks <= 1)%nat ->
   verify_chain sha256 blocks = Ok (Valid (length blocks)))
  /\ (forall n,
         verify_chain sha256 blocks = Ok (Valid n)
         <-> n = length blocks
             /\ forall i, (1 <= i < length blocks)%nat ->
                          passes sha256 blocks i)
  /\ (forall i,
         verify_chain sha256 blocks
         = Ok (Invalid i InvalidPreviousHashReference)
         <-> (1 <= i < length blocks)%nat
             /\ (forall j, (1 <= j < i)%nat -> passes sha256 blocks j)
             /\ link_broken blocks i)
  /\ (forall i,
         verify_chain sha256 blocks = Ok (Invalid i InvalidHash)
         <-> (1 <= i < length blocks)%nat
             /\ (forall j, (1 <= j < i)%nat -> passes sha256 blocks j)
             /\ link_ok blocks i /\ hash_broken sha256 blocks i)
  /\ (forall e,
         verify_chain sha256 blocks = Raise e
         <-> exists i,
             (1 <= i < length blocks)%nat
             /\ (forall j, (1 <= j < i)%nat -> passes sha256 blocks j)
             /\ link_ok blocks i /\ recomputed sha256 blocks i = Raise e).
Proof.
  split; [|split; [|split; [|split]]].
  - intros Hlen. apply verify_chain_valid_iff.
    split; [reflexivity | intros i Hi; lia].
  - intros n. apply verify_chain_valid_iff.
  - intros i. split.
    + intros Hv.
      destruct (verify_chain_outcome blocks)
        as [[Hv' _] | (i' & Hi' & Hpre & Hf)]; [congruence|].
      rewrite Hv in Hf.
      destruct Hf as [([= <-] & Hb)|[(H & _)|(e & H & _)]];
        try discriminate.
      auto.
    + intros (Hi & Hpre & Hb).
      apply verify_chain_stops_at with (i := i); auto.
      left. auto.
  - intros i. split.
    + intros Hv.
      destruct (verify_chain_outcome blocks)
        as [[Hv' _] | (i' & Hi' & Hpre & Hf)]; [congruence|].
      rewrite Hv in Hf.
      destruct Hf as [(H & _)|[([= <-] & Hl & Hb)|(e & H & _)]];
        try discriminate.
      auto.
    + intros (Hi & Hpre & Hl & Hb).
      apply verify_chain_stops_at with (i := i); auto.
      right. left. auto.
  - intros e. split.
    + intros Hv.
      destruct (verify_chain_outcome blocks)
        as [[Hv' _] | (i' & Hi' & Hpre & Hf)]; [congruence|].
      rewrite Hv in Hf.
      destruct Hf as [(H & _)|[(H & _)|(e' & [= <-] & Hl & Hr)]];
        try discriminate.
      exists i'. auto.
    + intros (i & Hi & Hpre & Hl & Hr).
      apply verify_chain_stops_at with (i := i); auto.
      right. right. exists e. auto.
Qed.

(** ** Appending *)

Lemma create_block_Ok_inv utcnow data blocks b blocks' :
  create_block sha256 utcnow data blocks = Ok (b, blocks') ->
  blocks' = blocks ++ [b]
  /\ index b = Z.of_nat (length blocks)
  /\ timestamp b = utcnow /\ HashService.data b = data
  /\ previous_hash b = match blocks with
                       | [] => zero_hash
                       | b0 :: _ => hash (last blocks b0)
                       end
  /\ calculate_hash sha256 (index b) (timestamp b) (HashService.data b)
                    (previous_hash b) = Ok (hash b).
Proof.
  unfold create_block. intros H.
  apply bind_Ok_inv in H. destruct H as (h & Hh & [= <- <-]).
  cbn [index timestamp HashService.data previous_hash hash].
  repeat split; auto.
Qed.

Lemma encode_Raise (s : str) (e : exn) :
  encode s = Raise e -> e = UnicodeEncodeError.
Proof.
  revert e; induction s as [|c s IH]; intros e E; simpl in E;
    [discriminate|].
  destruct (utf8_char c) as [bs|e1] eqn:Ec; simpl in E.
  - destruct (encode s) as [bs'|e2]; simpl in E; [discriminate|].
    injection E as <-. now apply IH.
  - injection E as <-. unfold utf8_char in Ec.
    repeat match type of Ec with
           | (if ?c then _ else _) = _ => destruct c
           end; congruence.
Qed.

Lemma create_block_Raise utcnow data blocks e :
  create_block sha256 utcnow data blocks = Raise e ->
  e = UnicodeEncodeError.
Proof.
  unfold create_block, calculate_hash, sha256_hex. intros H.
  destruct (encode _) as [b|e'] eqn:E; simpl in H; [discriminate|].
  injection H as <-. eapply encode_Raise; eauto.
Qed.

Lemma last_nth_error {A} (l : list A) (d : A) :
  l <> [] -> nth_error l (length l - 1) = Some (last l d).
Proof.
  induction l as [|x l IH]; intros H; [congruence|].
  destruct l as [|y l]; [reflexivity|].
  change (last (x :: y :: l) d) with (last (y :: l) d).
  rewrite <- IH by discriminate. simpl. now rewrite Nat.sub_0_r.
Qed.

Lemma recomputed_app blocks b i :
  (i < length blocks)%nat ->
  recomputed sha256 (blocks ++ [b]) i = recomputed sha256 blocks i.
Proof.
  intros H. unfold recomputed, getitem. now rewrite nth_error_app1.
Qed.

Lemma chain_invariant_nil : chain_invariant sha256 [].
Proof.
  split; [|split]; simpl.
  - intros b H. discriminate.
  - intros i Hi. lia.
  - intros i Hi. lia.
Qed.

Lemma chain_invariant_step utcnow data blocks b blocks' :
  chain_invariant sha256 blocks ->
  create_block sha256 utcnow data blocks = Ok (b, blocks') ->
  chain_invariant sha256 blocks'.
Proof.
  intros (Hzero & Hlink & Hhash) Hc.
  apply create_block_Ok_inv in Hc.
  destruct Hc as (-> & Hidx & Hts & Hd & Hprev & Hcalc).
  assert (nth_error (blocks ++ [b]) (length blocks) = Some b) as Hb
      by (rewrite nth_error_app2, Nat.sub_diag by lia; reflexivity).
  split; [|split].
  - intros b0 H0. destruct blocks as [|b1 blocks].
    + simpl in H0. injection H0 as <-. exact Hprev.
    + apply Hzero. exact H0.
  - intros i Hi. rewrite length_app in Hi. simpl in Hi.
    destruct (Nat.eq_dec i (length blocks)) as [->|Hne].
    + destruct blocks as [|b1 blocks]; [simpl in Hi; lia|].
      exists b, (last (b1 :: blocks) b1). split; [exact Hb|]. split.
      * rewrite nth_error_app1 by (simpl; lia).
        apply last_nth_error. discriminate.
      * exact Hprev.
    + destruct (Hlink i ltac:(lia)) as (c & p & Hc & Hp & Hl).
      exists c, p. rewrite !nth_error_app1 by lia. auto.
  - intros i Hi. rewrite length_app in Hi. simpl in Hi.
    destruct (Nat.eq_dec i (length blocks)) as [->|Hne].
    + split; [|exists b; auto].
      exists b. split; [exact Hb|].
      unfold recomputed, getitem. rewrite Hb. simpl. exact Hcalc.
    + destruct (Hhash i ltac:(lia)) as [(c & Hc & Hr) (c' & Hc' & Hi')].
      split.
      * exists c. rewrite nth_error_app1, recomputed_app by lia. auto.
      * exists c'. rewrite nth_error_app1 by lia. auto.
Qed.

Lemma chain_invariant_verify blocks :
  chain_invariant sha256 blocks ->
  verify_chain sha256 blocks = Ok (Valid (length blocks)).
Proof.
  intros (_ & Hlink & Hhash). apply verify_chain_valid_iff.
  split; [reflexivity|]. intros i Hi. split.
  - apply Hlink. lia.
  - apply Hhash. lia.
Qed.

Lemma run_invariant calls :
  forall blocks appended blocks' appended',
    chain_invariant sha256 blocks -> appended = length blocks ->
    run sha256 calls blocks appended = (blocks', appended') ->
    chain_invariant sha256 blocks' /\ appended' = length blocks'.
Proof.
  induction calls as [|[utcnow data] calls IH];
    intros blocks n blocks' n' Hinv Hn Hrun; simpl in Hrun.
  - injection Hrun as <- <-. auto.
  - destruct (create_block sha256 utcnow data blocks) as [[b bs]|e] eqn:Hc.
    + apply (IH bs (S n)); [| |exact Hrun].
      * eapply chain_invariant_step; eauto.
      * apply create_block_Ok_inv in Hc. destruct Hc as (-> & _).
        rewrite length_app. simpl. lia.
    + apply (IH blocks n); auto.
Qed.

Lemma hash_ok_hexdigest blocks i c :
  hash_ok sha256 blocks i -> nth_error blocks i = Some c ->
  exists d, hash c = hexdigest d.
Proof.
  intros (c' & Hc' & Hr) Hc. assert (c' = c) as -> by congruence.
  unfold recomputed, getitem in Hr. rewrite Hc in Hr.
  unfold bind at 1 in Hr. unfold calculate_hash, sha256_hex in Hr.
  apply bind_Ok_inv in Hr. destruct Hr as (bs & _ & Hd).
  injection Hd as Hd. eauto.
Qed.

(** [create_block] returns whenever the clock reading and the data
    encode: the number and the previous hash always do. *)
Lemma create_block_returns utcnow data blocks :
  chain_invariant sha256 blocks ->
  encodable utcnow -> encodable data ->
  exists b, create_block sha256 utcnow data blocks = Ok (b, blocks ++ [b]).
Proof.
  intros (_ & _ & Hhash) Hts Hd.
  assert (encodable match blocks with
                    | [] => zero_hash
                    | b :: _ => hash (last blocks b)
                    end) as Hprev.
  { destruct blocks as [|b0 blocks].
    - apply encodable_ascii, zero_hash_ascii.
    - destruct (Hhash (length (b0 :: blocks) - 1)%nat ltac:(simpl; lia))
        as [Hok _].
      destruct (hash_ok_hexdigest _ _ _ Hok
                  (last_nth_error (b0 :: blocks) b0 ltac:(discriminate)))
        as [d Hd'].
      rewrite Hd'. apply encodable_ascii, hexdigest_ascii. }
  unfold create_block, calculate_hash, sha256_hex.
  destruct (encodable_app _ _ (encodable_ascii _
              (str_of_int_ascii (Z.of_nat (length blocks))))
              (encodable_app _ _ Hts (encodable_app _ _ Hd Hprev)))
    as [bs Hbs].
  rewrite Hbs. simpl. eauto.
Qed.

Lemma run_all_appended calls :
  forall blocks appended,
    chain_invariant sha256 blocks ->
    Forall (fun c => encodable (fst c) /\ encodable (snd c)) calls ->
    snd (run sha256 calls blocks appended) = (appended + length calls)%nat.
Proof.
  induction calls as [|[utcnow data] calls IH];
    intros blocks n Hinv Hall; simpl; [lia|].
  inversion Hall as [|c cs [Hts Hd] Hrest]; subst. simpl in Hts, Hd.
  destruct (create_block_returns utcnow data blocks Hinv Hts Hd) as [b Hb].
  rewrite Hb. rewrite IH; [lia | | exact Hrest].
  eapply chain_invariant_step; eauto.
Qed.

(** C1: in every ledger reached from the empty one by [create_block]
    calls, block 0 refers to the sentinel of 64 characters "0", every
    later block refers to the stored hash of the block before it, every
    stored hash is the one recomputed from the block's index, timestamp,
    data and previous hash, and [verify_chain] returns valid with the
    number of appended blocks as block count. *)
Theorem create_block_keeps_chain_valid calls blocks appended :
  run sha256 calls [] 0 = (blocks, appended) ->
  (forall b, nth_error blocks 0 = Some b ->
             previous_hash b = zero_hash /\ zero_hash = repeat 48%N 64)
  /\ (forall i, (0 < i < length blocks)%nat ->
                exists current previous,
                  nth_error blocks i = Some current
                  /\ nth_error blocks (i - 1) = Some previous
                  /\ previous_hash current = hash previous)
  /\ (forall i b, nth_error blocks i = Some b ->
                  index b = Z.of_nat i
                  /\ calculate_hash sha256 (index b) (timestamp b)
                                    (HashService.data b) (previous_hash b)
                     = Ok (hash b))
  /\ appended = length blocks
  /\ verify_chain sha256 blocks = Ok (Valid appended)
  /\ (Forall (fun c => encodable (fst c) /\ encodable (snd c)) calls ->
      appended = length calls).
Proof.
  intros Hrun.
  destruct (run_invariant calls [] 0%nat blocks appended
                          chain_invariant_nil eq_refl Hrun) as [Hinv Hn].
  pose proof (chain_invariant_verify blocks Hinv) as Hv.
  destruct Hinv as (Hzero & Hlink & Hhash).
  split; [|split; [|split; [|split; [|split]]]].
  - intros b Hb. split; [now apply Hzero | reflexivity].
  - exact Hlink.
  - intros i b Hb.
    assert (i < length blocks)%nat as Hi
        by (apply nth_error_Some; congruence).
    destruct (Hhash i Hi) as [(c & Hc & Hr) (c' & Hc' & Hidx)].
    assert (c = b) as -> by congruence.
    assert (c' = b) as -> by congruence.
    split; [exact Hidx|].
    unfold recomputed, getitem in Hr. rewrite Hb in Hr. exact Hr.
  - exact Hn.
  - now rewrite Hn.
  - intros Hall.
    pose proof (run_all_appended calls [] 0%nat chain_invariant_nil Hall)
      as H.
    rewrite Hrun in H. exact H.
Qed.

(** ** The Merkle root *)

Lemma list_pair_ind {A} (P : list A -> Prop) :
  P [] -> (forall a, P [a]) ->
  (forall a b l, P l -> P (a :: b :: l)) ->
  forall l, P l.
Proof.
  intros H0 H1 H2 l.
  assert (P l /\ forall a, P (a :: l)) as [H _]; [|exact H].
  induction l as [|x l [IH IH']]; split; auto.
Qed.

Lemma half_up_step (n : nat) : ((S (S n) + 1) / 2 = S ((n + 1) / 2))%nat.
Proof.
  replace (S (S n) + 1)%nat with ((n + 1) + 1 * 2)%nat by lia.
  rewrite Nat.div_add by discriminate. lia.
Qed.

Lemma half_up_lt (n : nat) : (2 <= n -> (n + 1) / 2 < n)%nat.
Proof.
  intros H. apply Nat.Div0.div_lt_upper_bound. lia.
Qed.

Lemma half_up_pos (n : nat) : (1 <= n -> 1 <= (n + 1) / 2)%nat.
Proof.
  intros H. apply Nat.div_le_lower_bound; [discriminate | lia].
Qed.

Lemma pair_up_length hashes :
  forall next_level,
    pair_up sha256 hashes = Ok next_level ->
    length next_level = ((length hashes + 1) / 2)%nat.
Proof.
  induction hashes as [| a | a b l IH] using list_pair_ind;
    intros next H.
  - injection H as <-. reflexivity.
  - simpl in H. apply bind_Ok_inv in H. destruct H as (h & _ & [= <-]).
    reflexivity.
  - cbn [pair_up] in H. apply bind_Ok_inv in H.
    destruct H as (h & _ & H). apply bind_Ok_inv in H.
    destruct H as (t & Ht & [= <-]).
    cbn [length]. rewrite half_up_step. f_equal. now apply IH.
Qed.

(** The index loop over an even number of hashes pairs them up. *)
Lemma combine_pairs_even (l : list str) :
  Nat.even (length l) = true ->
  forall done,
    combine_pairs sha256 (done ++ l)
      (map (fun k => length done + 2 * k)%nat (seq 0 (length l / 2)))
    = pair_up sha256 l.
Proof.
  induction l as [| a | a b l IH] using list_pair_ind; intros Hev done.
  - reflexivity.
  - discriminate.
  - cbn [length]. change (S (S (length l))) with (1 * 2 + length l)%nat.
    rewrite Nat.div_add_l by discriminate.
    cbn [Nat.add seq map combine_pairs pair_up].
    unfold getitem.
    rewrite Nat.mul_0_r, Nat.add_0_r.
    rewrite nth_error_app2, Nat.sub_diag by lia. cbn [nth_error].
    rewrite nth_error_app2 by lia.
    replace (length done + 1 - length done)%nat with 1%nat by lia.
    cbn [nth_error bind].
    destruct (sha256_hex sha256 (a ++ b)) as [h|e]; cbn [bind];
      [|reflexivity].
    rewrite <- seq_shift, map_map.
    specialize (IH Hev (done ++ [a; b])).
    rewrite <- app_assoc in IH. cbn [app] in IH.
    rewrite <- IH. f_equal. f_equal. apply map_ext. intros k.
    rewrite length_app. simpl. lia.
Qed.

Lemma pair_up_duplicate_last (l : list str) :
  Nat.even (length l) = false ->
  pair_up sha256 (l ++ [last l []]) = pair_up sha256 l.
Proof.
  induction l as [| a | a b l IH] using list_pair_ind; intros Hodd.
  - discriminate.
  - cbn [app last pair_up].
    destruct (sha256_hex sha256 (a ++ a)); reflexivity.
  - assert (l <> []) as Hne by (intros ->; discriminate).
    replace (last (a :: b :: l) []) with (last l [])
      by (destruct l; [congruence | reflexivity]).
    cbn [app pair_up]. now rewrite (IH Hodd).
Qed.

(** One turn of the loop is one level of the specification. *)
Lemma merkle_level_pair_up (hashes : list str) :
  merkle_level sha256 hashes = pair_up sha256 hashes.
Proof.
  unfold merkle_level, duplicate_last, range_by_2.
  destruct (Nat.even (length hashes)) eqn:Hev.
  - replace (length hashes mod 2 =? 1)%nat with false.
    2:{ symmetry. apply Nat.eqb_neq. apply Nat.even_spec in Hev.
        destruct Hev as [m ->]. rewrite Nat.mul_comm, Nat.Div0.mod_mul.
        discriminate. }
    replace ((length hashes + 1) / 2)%nat with (length hashes / 2)%nat.
    2:{ apply Nat.even_spec in Hev. destruct Hev as [m ->].
        rewrite (Nat.mul_comm 2 m), Nat.div_mul by discriminate.
        rewrite Nat.add_comm, Nat.div_add by discriminate. reflexivity. }
    apply (combine_pairs_even hashes Hev []).
  - assert (Nat.odd (length hashes) = true) as Hodd
        by (unfold Nat.odd; now rewrite Hev).
    apply Nat.odd_spec in Hodd. destruct Hodd as [m Hm].
    replace (length hashes mod 2 =? 1)%nat with true.
    2:{ symmetry. apply Nat.eqb_eq. rewrite Hm, Nat.add_comm, Nat.mul_comm.
        rewrite Nat.Div0.mod_add. reflexivity. }
    rewrite <- (pair_up_duplicate_last hashes Hev).
    assert (Nat.even (length (hashes ++ [last hashes []])) = true) as Hev'.
    { rewrite length_app, Hm. cbn [length].
      replace (2 * m + 1 + 1)%nat with (2 * (m + 1))%nat by lia.
      apply Nat.even_spec. now exists (m + 1)%nat. }
    replace ((length (hashes ++ [last hashes []]) + 1) / 2)%nat
      with (length (hashes ++ [last hashes []]) / 2)%nat.
    2:{ apply Nat.even_spec in Hev'. destruct Hev' as [m' ->].
        rewrite (Nat.mul_comm 2 m'), Nat.div_mul by discriminate.
        rewrite Nat.add_comm, Nat.div_add by discriminate. reflexivity. }
    apply (combine_pairs_even _ Hev' []).
Qed.

(** As many turns as there are hashes are enough for the loop, which
    builds the levels down to the root. *)
Lemma merkle_while_reduces fuel :
  forall hashes,
    (1 <= length hashes <= fuel)%nat ->
    (exists h, merkle_while sha256 fuel hashes = Some (Ok [h])
               /\ reduces_to sha256 hashes (Ok h))
    \/ (exists e, merkle_while sha256 fuel hashes = Some (Raise e)
                  /\ reduces_to sha256 hashes (Raise e)).
Proof.
  induction fuel as [|fuel IH]; intros hashes Hlen; [lia|].
  cbn [merkle_while].
  destruct (length hashes <=? 1)%nat eqn:E.
  - apply Nat.leb_le in E.
    destruct hashes as [|h [|h' hashes]]; simpl in *; try lia.
    left. exists h. split; [reflexivity | constructor].
  - apply Nat.leb_gt in E. rewrite merkle_level_pair_up.
    destruct (pair_up sha256 hashes) as [next|e] eqn:Hp.
    + pose proof (pair_up_length hashes next Hp) as Hn.
      pose proof (half_up_lt (length hashes) ltac:(lia)).
      pose proof (half_up_pos (length hashes) ltac:(lia)).
      destruct (IH next ltac:(lia)) as [(h & Hw & Hr)|(e & Hw & Hr)].
      * left. exists h. split; [exact Hw|].
        eapply reduces_level; eauto; lia.
      * right. exists e. split; [exact Hw|].
        eapply reduces_level; eauto; lia.
    + right. exists e. split; [reflexivity|].
      apply reduces_raise; [lia | exact Hp].
Qed.

Lemma reduces_to_functional hashes r :
  reduces_to sha256 hashes r ->
  forall r', reduces_to sha256 hashes r' -> r = r'.
Proof.
  induction 1 as [h | hashes e Hlen Hp | hashes next r Hlen Hp Hr IH];
    intros r' H'.
  - inversion H'; subst; simpl in *; try lia. reflexivity.
  - inversion H'; subst; simpl in *; try lia; congruence.
  - inversion H'; subst; simpl in *; try lia; try congruence.
    apply IH. congruence.
Qed.

Lemma hash_all_length data_list hashes :
  hash_all sha256 data_list = Ok hashes ->
  Forall2 (fun data h => sha256_hex sha256 data = Ok h) data_list hashes.
Proof.
  revert hashes; induction data_list as [|x l IH]; intros hashes H;
    simpl in H.
  - injection H as <-. constructor.
  - apply bind_Ok_inv in H. destruct H as (h & Hh & H).
    apply bind_Ok_inv in H. destruct H as (hs & Hhs & [= <-]).
    constructor; auto.
Qed.

Lemma calculate_merkle_root_reduces data_list hashes :
  (1 <= length data_list)%nat ->
  hash_all sha256 data_list = Ok hashes ->
  exists r, calculate_merkle_root sha256 data_list = Some r
            /\ reduces_to sha256 hashes r.
Proof.
  intros Hlen Hh. unfold calculate_merkle_root.
  destruct data_list as [|x l]; [simpl in Hlen; lia|].
  rewrite Hh.
  assert (length hashes = length (x :: l)) as Hl
      by (symmetry; eapply Forall2_length, hash_all_length; eauto).
  destruct (merkle_while_reduces (length hashes) hashes ltac:(lia))
    as [(h & -> & Hr)|(e & -> & Hr)]; eauto.
Qed.

Lemma calculate_merkle_root_single x :
  calculate_merkle_root sha256 [x] = Some (sha256_hex sha256 x).
Proof.
  unfold calculate_merkle_root. cbn [hash_all].
  destruct (sha256_hex sha256 x) as [h|e]; reflexivity.
Qed.

Lemma calculate_merkle_root_pair a b ha hb :
  sha256_hex sha256 a = Ok ha -> sha256_hex sha256 b = Ok hb ->
  calculate_merkle_root sha256 [a; b]
  = Some (sha256_hex sha256 (ha ++ hb)).
Proof.
  intros Ha Hb. unfold calculate_merkle_root. cbn [hash_all].
  rewrite Ha, Hb. cbn [bind length merkle_while Nat.leb].
  rewrite merkle_level_pair_up. cbn [pair_up].
  destruct (sha256_hex sha256 (ha ++ hb)) as [h|e]; reflexivity.
Qed.

Lemma calculate_merkle_root_triple a b c ha hb hc :
  sha256_hex sha256 a = Ok ha -> sha256_hex sha256 b = Ok hb ->
  sha256_hex sha256 c = Ok hc ->
  calculate_merkle_root sha256 [a; b; c]
  = Some (left <- sha256_hex sha256 (ha ++ hb) ;;
          right <- sha256_hex sha256 (hc ++ hc) ;;
          sha256_hex sha256 (left ++ right)).
Proof.
  intros Ha Hb Hc. unfold calculate_merkle_root. cbn [hash_all].
  rewrite Ha, Hb, Hc. cbn [bind length merkle_while Nat.leb].
  rewrite merkle_level_pair_up. cbn [pair_up].
  destruct (sha256_hex sha256 (ha ++ hb)) as [l|e]; [|reflexivity].
  destruct (sha256_hex sha256 (hc ++ hc)) as [r|e]; [|reflexivity].
  cbn [bind length Nat.leb]. rewrite merkle_level_pair_up. cbn [pair_up].
  destruct (sha256_hex sha256 (l ++ r)) as [h|e]; reflexivity.
Qed.

(** C5: the empty list gives [SHA256("")]; a single item [x] gives
    [SHA256(x)], not paired with itself; for more items every item is
    hashed, and each level is made from the one before by pairing
    adjacent hashes left to right and hashing the concatenation of each
    pair, the last hash of an odd level being repeated as it is to
    complete the last pair, until one hash, the root, remains. *)
Theorem calculate_merkle_root_levels :
  calculate_merkle_root sha256 [] = Some (Ok (hexdigest (sha256 [])))
  /\ (forall x, calculate_merkle_root sha256 [x]
                = Some (sha256_hex sha256 x))
  /\ (forall hashes,
         merkle_level sha256 hashes = pair_up sha256 hashes)
  /\ (forall data_list,
         (1 <= length data_list)%nat ->
         (forall e, hash_all sha256 data_list = Raise e ->
                    calculate_merkle_root sha256 data_list
                    = Some (Raise e))
         /\ (forall hashes,
                hash_all sha256 data_list = Ok hashes ->
                Forall2 (fun data h => sha256_hex sha256 data = Ok h)
                        data_list hashes
                /\ exists r,
                    calculate_merkle_root sha256 data_list = Some r
                    /\ reduces_to sha256 hashes r
                    /\ forall r', reduces_to sha256 hashes r' -> r' = r))
  /\ (forall a b c ha hb hc,
         sha256_hex sha256 a = Ok ha -> sha256_hex sha256 b = Ok hb ->
         sha256_hex sha256 c = Ok hc ->
         calculate_merkle_root sha256 [a; b] 
         = Some (sha256_hex sha256 (ha ++ hb))
         /\ calculate_merkle_root sha256 [a; b; c]
            = Some (left <- sha256_hex sha256 (ha ++ hb) ;;
                    right <- sha256_hex sha256 (hc ++ hc) ;;
                    sha256_hex sha256 (left ++ right))).
Proof.
  split; [reflexivity|]. split; [apply calculate_merkle_root_single|].
  split; [apply merkle_level_pair_up|]. split.
  - intros data_list Hlen. split.
    + intros e He. unfold calculate_merkle_root.
      destruct data_list; [simpl in Hlen; lia|]. now rewrite He.
    + intros hashes Hh. split; [now apply hash_all_length|].
      destruct (calculate_merkle_root_reduces data_list hashes Hlen Hh)
        as (r & Hr & Hred).
      exists r. split; [exact Hr|]. split; [exact Hred|].
      intros r' Hr'. eapply reduces_to_functional; eauto.
  - intros a b c ha hb hc Ha Hb Hc. split.
    + now apply calculate_merkle_root_pair.
    + now apply calculate_merkle_root_triple.
Qed.

(** C9: the root depends on the order: when [SHA256(a)] and
    [SHA256(b)] differ, so do the roots of [[a, b]] and [[b, a]],
    SHA-256 sending the two concatenations of the hex digests to two
    digests. *)
Theorem calculate_merkle_root_order_sensitive a b ea eb :
  (forall x, length (sha256 x) = 32%nat) ->
  encode a = Ok ea -> encode b = Ok eb ->
  sha256 ea <> sha256 eb ->
  no_collision sha256
               (hex_bytes (sha256 ea) ++ hex_bytes (sha256 eb))
               (hex_bytes (sha256 eb) ++ hex_bytes (sha256 ea)) ->
  exists rab rba,
    calculate_merkle_root sha256 [a; b] = Some (Ok rab)
    /\ calculate_merkle_root sha256 [b; a] = Some (Ok rba)
    /\ rab <> rba.
Proof.
  intros Hlen Ha Hb Hne Hnc.
  assert (sha256_hex sha256 a = Ok (hexdigest (sha256 ea))) as Hha
      by (unfold sha256_hex; now rewrite Ha).
  assert (sha256_hex sha256 b = Ok (hexdigest (sha256 eb))) as Hhb
      by (unfold sha256_hex; now rewrite Hb).
  assert (forall d d', sha256_hex sha256 (hexdigest d ++ hexdigest d')
                       = Ok (hexdigest (sha256 (hex_bytes d ++ hex_bytes d'))))
    as Hcat.
  { intros d d'. unfold sha256_hex.
    now rewrite encode_app, !encode_hexdigest. }
  exists (hexdigest (sha256 (hex_bytes (sha256 ea) ++ hex_bytes (sha256 eb)))),
         (hexdigest (sha256 (hex_bytes (sha256 eb) ++ hex_bytes (sha256 ea)))).
  rewrite (calculate_merkle_root_pair a b _ _ Hha Hhb).
  rewrite (calculate_merkle_root_pair b a _ _ Hhb Hha).
  rewrite !Hcat. split; [reflexivity|]. split; [reflexivity|].
  intros H. apply hexdigest_inj, Hnc in H.
  apply app_inv_same_length in H;
    [|now rewrite !hex_bytes_length, !Hlen].
  destruct H as [H _]. apply hex_bytes_inj in H. contradiction.
Qed.

End WithSha256.

End HashServiceSpec.

(** The ledger on SHA-256 itself. *)
Module HashServiceOnSHA256.
Import HashService HashServiceSpec.

(** Three blocks "a", "b", "c", as [hashlib] hashes them. *)
Example three_blocks :
  map hash
      (fst (run SHA256.digest
                [(text "2024-01-01T00:00:00", text "a");
                 (text "2024-01-01T00:00:00", text "b");
                 (text "2024-01-01T00:00:00", text "c")] [] 0))
  = [text "b3b39273afdf85a843c3ec5ef933c5ef661a8511ece4573ff82edcbfc3dd6a6e";
     text "98959f555fce35789c091314809e4000d4af856784d968860a96fcca3ff8e04f";
     text "dc498b145be2ca88b22c51ee2b3b28e2b2f3a87db24b15e989c0e05aeb61eb42"].
Proof. vm_compute. reflexivity. Qed.

Example merkle_root_abc :
  calculate_merkle_root SHA256.digest [text "a"; text "b"; text "c"]
  = Some (Ok (text "0bdf27bf7ec894ca7cadfe491ec1a3ece840f117989e8c5e9bd7086467bf6c38")).
Proof. vm_compute. reflexivity. Qed.

Lemma create_block_keeps_chain_valid_witness :
  run SHA256.digest
      [(text "2024-01-01T00:00:00", text "a");
       (text "2024-01-01T00:00:01", text "b");
       (text "2024-01-01T00:00:02", text "c")] [] 0
  = (fst (run SHA256.digest
              [(text "2024-01-01T00:00:00", text "a");
               (text "2024-01-01T00:00:01", text "b");
               (text "2024-01-01T00:00:02", text "c")] [] 0), 3%nat)
  /\ verify_chain SHA256.digest
       (fst (run SHA256.digest
                 [(text "2024-01-01T00:00:00", text "a");
                  (text "2024-01-01T00:00:01", text "b");
                  (text "2024-01-01T00:00:02", text "c")] [] 0))
     = Ok (Valid 3).
Proof.
  assert (run SHA256.digest
              [(text "2024-01-01T00:00:00", text "a");
               (text "2024-01-01T00:00:01", text "b");
               (text "2024-01-01T00:00:02", text "c")] [] 0
          = (fst (run SHA256.digest
                      [(text "2024-01-01T00:00:00", text "a");
                       (text "2024-01-01T00:00:01", text "b");
                       (text "2024-01-01T00:00:02", text "c")] [] 0), 3%nat))
    as Hrun by (vm_compute; reflexivity).
  split; [exact Hrun|].
  apply (create_block_keeps_chain_valid SHA256.digest _ _ _ Hrun).
Defined.

Lemma verify_chain_fail_fast_witness :
  ((length [mkBlock 7 [] [] [] []] <= 1)%nat
   /\ verify_chain SHA256.digest [mkBlock 7 [] [] [] []] = Ok (Valid 1))
  /\ ((1 <= 1 < length [mkBlock 0 [] [] [] (text "h0");
                        mkBlock 1 [] [] (text "h1") []])%nat
      /\ link_broken [mkBlock 0 [] [] [] (text "h0");
                      mkBlock 1 [] [] (text "h1") []] 1
      /\ verify_chain SHA256.digest
           [mkBlock 0 [] [] [] (text "h0"); mkBlock 1 [] [] (text "h1") []]
         = Ok (Invalid 1 InvalidPreviousHashReference)).
Proof.
  destruct (verify_chain_fail_fast SHA256.digest [mkBlock 7 [] [] [] []])
    as (Hsingle & _).
  destruct (verify_chain_fail_fast SHA256.digest
              [mkBlock 0 [] [] [] (text "h0");
               mkBlock 1 [] [] (text "h1") []])
    as (_ & _ & Hlink & _).
  assert (link_broken [mkBlock 0 [] [] [] (text "h0");
                       mkBlock 1 [] [] (text "h1") []] 1) as Hbroken.
  { eexists _, _. split; [reflexivity|]. split; [reflexivity|].
    simpl. discriminate. }
  split.
  - split; [simpl; lia|]. apply Hsingle. simpl. lia.
  - split; [simpl; lia|]. split; [exact Hbroken|].
    apply Hlink. split; [simpl; lia|]. split; [intros j Hj; lia|].
    exact Hbroken.
Defined.

Lemma calculate_merkle_root_levels_witness :
  (1 <= length [text "a"; text "b"; text "c"])%nat
  /\ sha256_hex SHA256.digest (text "a")
     = Ok (hexdigest (SHA256.digest (btext "a")))
  /\ sha256_hex SHA256.digest (text "b")
     = Ok (hexdigest (SHA256.digest (btext "b")))
  /\ sha256_hex SHA256.digest (text "c")
     = Ok (hexdigest (SHA256.digest (btext "c")))
  /\ calculate_merkle_root SHA256.digest [text "a"; text "b"; text "c"]
     = Some (left <- sha256_hex SHA256.digest
                       (hexdigest (SHA256.digest (btext "a"))
                        ++ hexdigest (SHA256.digest (btext "b"))) ;;
             right <- sha256_hex SHA256.digest
                        (hexdigest (SHA256.digest (btext "c"))
                         ++ hexdigest (SHA256.digest (btext "c"))) ;;
             sha256_hex SHA256.digest (left ++ right)).
Proof.
  destruct (calculate_merkle_root_levels SHA256.digest)
    as (_ & _ & _ & _ & Htriple).
  split; [simpl; lia|].
  split; [reflexivity|]. split; [reflexivity|]. split; [reflexivity|].
  apply (Htriple (text "a") (text "b") (text "c")); reflexivity.
Defined.

Lemma calculate_merkle_root_order_sensitive_witness :
  encode (text "a") = Ok (btext "a") /\ encode (text "b") = Ok (btext "b")
  /\ SHA256.digest (btext "a") <> SHA256.digest (btext "b")
  /\ no_collision SHA256.digest
       (hex_bytes (SHA256.digest (btext "a"))
        ++ hex_bytes (SHA256.digest (btext "b")))
       (hex_bytes (SHA256.digest (btext "b"))
        ++ hex_bytes (SHA256.digest (btext "a")))
  /\ exists rab rba,
      calculate_merkle_root SHA256.digest [text "a"; text "b"] = Some (Ok rab)
      /\ calculate_merkle_root SHA256.digest [text "b"; text "a"]
         = Some (Ok rba)
      /\ rab <> rba.
Proof.
  assert (SHA256.digest (btext "a") <> SHA256.digest (btext "b")) as Hne
      by (vm_compute; discriminate).
  assert (no_collision SHA256.digest
            (hex_bytes (SHA256.digest (btext "a"))
             ++ hex_bytes (SHA256.digest (btext "b")))
            (hex_bytes (SHA256.digest (btext "b"))
             ++ hex_bytes (SHA256.digest (btext "a")))) as Hnc.
 { assert (SHA256.digest
             (hex_bytes (SHA256.digest (btext "a"))
              ++ hex_bytes (SHA256.digest (btext "b")))
           <> SHA256.digest
                (hex_bytes (SHA256.digest (btext "b"))
                 ++ hex_bytes (SHA256.digest (btext "a")))) as Hdiff
       by (vm_compute; discriminate).
   intros H. exfalso. exact (Hdiff H). }
 split; [vm_compute; reflexivity|]. split; [vm_compute; reflexivity|].
 split; [exact Hne|].
  split; [exact Hnc|].
  apply (calculate_merkle_root_order_sensitive
           SHA256.digest (text "a") (text "b") (btext "a") (btext "b")
           sha256_digest_length);
    [vm_compute; reflexivity | vm_compute; reflexivity | exact Hne | exact Hnc].
Defined.

End HashServiceOnSHA256.

(** [encode] is one to one: UTF-8 is a prefix code. *)
Section EncodeInjective.





End EncodeInjective.

(* ================================================================== *)
(** * More of the hash-chain ledger: lookup, errors, formats *)

Module HashServiceMore.
Import HashService HashServiceSpec.

Section WithSha256.

Variable sha256 : bytes -> bytes.

(** ** Lookup *)

Lemma get_block_Some blocks i b :
  get_block blocks i = Some b
  <-> 0 <= i < Z.of_nat (length blocks)
      /\ nth_error blocks (Z.to_nat i) = Some b.
Proof.
  unfold get_block.
  destruct (0 <=? i) eqn:E0; [apply Z.leb_le in E0 | apply Z.leb_gt in E0];
    simpl.
  - destruct (i <? Z.of_nat (length blocks)) eqn:E1;
      [apply Z.ltb_lt in E1 | apply Z.ltb_ge in E1].
    + split; [intros H; split; [lia | exact H] | intros [_ H]; exact H].
    + split; [discriminate | intros [H _]; lia].
  - split; [discriminate | intros [H _]; lia].
Qed.

Lemma get_block_None blocks i :
  get_block blocks i = None <-> i < 0 \/ Z.of_nat (length blocks) <= i.
Proof.
  split.
  - intros H. destruct (Z_lt_dec i 0) as [|Hi]; [auto|].
    destruct (Z_le_dec (Z.of_nat (length blocks)) i) as [|Hl]; [auto|].
    exfalso.
    destruct (nth_error_in_range blocks (Z.to_nat i) ltac:(lia)) as [b Hb].
    assert (get_block blocks i = Some b) as H'
        by (apply get_block_Some; split; [lia | exact Hb]).
    congruence.
  - intros H. destruct (get_block blocks i) as [b|] eqn:E; [|reflexivity].
    apply get_block_Some in E. lia.
Qed.

(** X1: the block [create_block] returns is the one [get_block] then finds
    at the index it carries, the former length; every block found before
    the call is found unchanged after it; and the ledger is one block
    longer. *)
Theorem get_block_after_create_block utcnow data blocks b blocks' :
  create_block sha256 utcnow data blocks = Ok (b, blocks') ->
  index b = Z.of_nat (length blocks)
  /\ get_block blocks' (index b) = Some b
  /\ length blocks' = S (length blocks)
  /\ (forall i b0, get_block blocks i = Some b0 ->
                   get_block blocks' i = Some b0)
  /\ (forall i, i < 0 \/ Z.of_nat (length blocks) < i ->
                get_block blocks' i = None).
Proof.
  intros Hc. apply create_block_Ok_inv in Hc.
  destruct Hc as (-> & Hidx & _).
  assert (length (blocks ++ [b]) = S (length blocks)) as Hlen
      by (rewrite length_app; simpl; lia).
  split; [exact Hidx|]. split; [|split; [exact Hlen|split]].
  - apply get_block_Some. rewrite Hidx, Hlen. split; [lia|].
    rewrite Nat2Z.id, nth_error_app2, Nat.sub_diag by lia. reflexivity.
  - intros i b0 H. apply get_block_Some in H. destruct H as [Hi Hb].
    apply get_block_Some. rewrite Hlen. split; [lia|].
    rewrite nth_error_app1 by lia. exact Hb.
  - intros i Hi. apply get_block_None. rewrite Hlen. lia.
Qed.

(** X2: in a ledger built by [create_block] calls, [get_block i] finds a
    block exactly for [0 <= i < len], and that block carries the index
    [i]; a negative index finds nothing (no counting from the end). *)
Theorem get_block_by_index calls blocks appended i :
  run sha256 calls [] 0 = (blocks, appended) ->
  (0 <= i < Z.of_nat appended ->
   exists b, get_block blocks i = Some b /\ index b = i)
  /\ (i < 0 \/ Z.of_nat appended <= i -> get_block blocks i = None).
Proof.
  intros Hrun.
  destruct (run_invariant sha256 calls [] 0%nat blocks appended
                          (chain_invariant_nil sha256) eq_refl Hrun)
    as [(_ & _ & Hhash) ->].
  split.
  - intros Hi.
    destruct (Hhash (Z.to_nat i) ltac:(lia)) as [_ (b & Hb & Hidx)].
    exists b. split; [apply get_block_Some; auto | lia].
  - intros Hi. now apply get_block_None.
Qed.

(** ** Errors of [create_block] *)

Lemma encodable_app_inv (s t : str) :
  encodable (s ++ t) -> encodable s /\ encodable t.
Proof.
  intros [b Hb]. rewrite encode_app in Hb.
  destruct (encode s) as [bs|e] eqn:Es; simpl in Hb; [|discriminate].
  destruct (encode t) as [bt|e] eqn:Et; simpl in Hb; [|discriminate].
  split; [exists bs | exists bt]; assumption.
Qed.

(** X3: on a ledger built by [create_block] calls, a further call returns
    exactly when the clock text and the data encode; otherwise it raises
    UnicodeEncodeError (and nothing is appended, the result being the
    raise alone). *)
Theorem create_block_raises_iff calls blocks appended utcnow data :
  run sha256 calls [] 0 = (blocks, appended) ->
  (encodable utcnow /\ encodable data ->
   exists b, create_block sha256 utcnow data blocks = Ok (b, blocks ++ [b]))
  /\ (~ (encodable utcnow /\ encodable data) ->
      create_block sha256 utcnow data blocks = Raise UnicodeEncodeError).
Proof.
  intros Hrun.
  destruct (run_invariant sha256 calls [] 0%nat blocks appended
                          (chain_invariant_nil sha256) eq_refl Hrun)
    as [Hinv _].
  split.
  - intros [Hts Hd]. now apply create_block_returns.
  - intros Hno.
    destruct (create_block sha256 utcnow data blocks) as [[b bs]|e] eqn:Hc.
    + exfalso. apply Hno. unfold create_block, calculate_hash, sha256_hex in Hc.
      destruct (encode _) as [x|e] eqn:E; simpl in Hc; [|discriminate].
      assert (encodable
                (str_of_int (Z.of_nat (length blocks)) ++ utcnow ++ data ++
                 match blocks with
                 | [] => zero_hash
                 | b0 :: _ => hash (last blocks b0)
                 end)) as Henc by (eexists; exact E).
      apply encodable_app_inv in Henc. destruct Henc as [_ Henc].
      apply encodable_app_inv in Henc. destruct Henc as [Hts Henc].
      apply encodable_app_inv in Henc. tauto.
    + apply create_block_Raise in Hc. now subst e.
Qed.

(** ** The form of the hashes *)

Lemma is_hex_char_hexdigit (d : N) : (d < 16)%N -> is_hex_char (hexdigit d) = true.
Proof.
  intros Hd.
  assert (d = 0 \/ d = 1 \/ d = 2 \/ d = 3 \/ d = 4 \/ d = 5 \/ d = 6 \/ d = 7
          \/ d = 8 \/ d = 9 \/ d = 10 \/ d = 11 \/ d = 12 \/ d = 13 \/ d = 14
          \/ d = 15)%N as Hcases by lia.
  repeat (destruct Hcases as [->|Hcases]); try subst d; reflexivity.
Qed.

Lemma hexdigest_is_hex (d : bytes) : forallb is_hex_char (hexdigest d) = true.
Proof.
  induction d as [|b d IH]; [reflexivity|].
  destruct (byte_nibbles b) as [Hq Hr].
  change (hexdigest (b :: d))
    with (hexdigit (Byte.to_N b / 16) :: hexdigit (Byte.to_N b mod 16)
          :: hexdigest d).
  cbn [forallb]. now rewrite !is_hex_char_hexdigit, IH.
Qed.

Lemma sha256_hex_Ok_inv (s h : str) :
  sha256_hex sha256 s = Ok h -> exists d, h = hexdigest (sha256 d).
Proof.
  unfold sha256_hex. intros H. apply bind_Ok_inv in H.
  destruct H as (b & _ & [= <-]). eauto.
Qed.

Lemma sha256_hex_hexdigests (d d' : bytes) :
  sha256_hex sha256 (hexdigest d ++ hexdigest d')
  = Ok (hexdigest (sha256 (hex_bytes d ++ hex_bytes d'))).
Proof. unfold sha256_hex. now rewrite encode_app, !encode_hexdigest. Qed.

Lemma pair_up_hexdigests (hashes : list str) :
  Forall (fun h => exists d, h = hexdigest d) hashes ->
  exists next_level,
    pair_up sha256 hashes = Ok next_level
    /\ Forall (fun h => exists d, h = hexdigest d) next_level.
Proof.
  induction hashes as [| a | a b l IH] using list_pair_ind; intros Hall.
  - exists []. split; [reflexivity | constructor].
  - inversion Hall as [|? ? [d ->] _]; subst.
    cbn [pair_up]. rewrite sha256_hex_hexdigests. cbn [bind].
    eexists. split; [reflexivity|]. repeat constructor. eauto.
  - inversion Hall as [|? ? [d ->] Hall']; subst.
    inversion Hall' as [|? ? [d' ->] Hall'']; subst.
    destruct (IH Hall'') as (next & Hnext & Hhex).
    cbn [pair_up]. rewrite sha256_hex_hexdigests, Hnext. cbn [bind].
    eexists. split; [reflexivity|]. constructor; eauto.
Qed.

Lemma reduces_to_hexdigest (hashes : list str) (r : result str) :
  reduces_to sha256 hashes r ->
  Forall (fun h => exists d, h = hexdigest d) hashes ->
  exists h d, r = Ok h /\ h = hexdigest d.
Proof.
  induction 1 as [h | hashes e Hlen Hp | hashes next r Hlen Hp Hr IH];
    intros Hall.
  - inversion Hall as [|? ? [d ->] _]; subst. eauto.
  - destruct (pair_up_hexdigests hashes Hall) as (next & Hn & _). congruence.
  - destruct (pair_up_hexdigests hashes Hall) as (next' & Hn & Hhex).
    apply IH. congruence.
Qed.

Lemma hash_all_hexdigests (data_list hashes : list str) :
  hash_all sha256 data_list = Ok hashes ->
  Forall (fun h => exists d, h = hexdigest d) hashes.
Proof.
  intros H. apply hash_all_length in H.
  induction H as [|x h l hs Hh _ IH]; constructor; auto.
  apply sha256_hex_Ok_inv in Hh. destruct Hh as [d ->]. eauto.
Qed.

Lemma pair_up_Ok_digests (hashes : list str) :
  forall next_level,
    pair_up sha256 hashes = Ok next_level ->
    Forall (fun h => exists d, h = hexdigest (sha256 d)) next_level.
Proof.
  induction hashes as [| a | a b l IH] using list_pair_ind; intros next Hp.
  - injection Hp as <-. constructor.
  - cbn [pair_up] in Hp. apply bind_Ok_inv in Hp.
    destruct Hp as (h & Hh & [= <-]).
    apply sha256_hex_Ok_inv in Hh. repeat constructor. exact Hh.
  - cbn [pair_up] in Hp. apply bind_Ok_inv in Hp.
    destruct Hp as (h & Hh & Hp). apply bind_Ok_inv in Hp.
    destruct Hp as (t & Ht & [= <-]).
    apply sha256_hex_Ok_inv in Hh. constructor; auto.
Qed.

Lemma hash_all_digests (data_list hashes : list str) :
  hash_all sha256 data_list = Ok hashes ->
  Forall (fun h => exists d, h = hexdigest (sha256 d)) hashes.
Proof.
  intros H. apply hash_all_length in H.
  induction H as [|y h l' hs Hy _ IH]; constructor; auto.
  now apply sha256_hex_Ok_inv in Hy.
Qed.

Lemma reduces_to_digest (hashes : list str) (res : result str) :
  reduces_to sha256 hashes res ->
  forall r, res = Ok r ->
  Forall (fun h => exists d, h = hexdigest (sha256 d)) hashes ->
  exists d, r = hexdigest (sha256 d).
Proof.
  induction 1 as [h | hs e Hlen Hp | hs next res Hlen Hp Hr IH];
    intros r Hres Hsha.
  - injection Hres as ->. now inversion Hsha.
  - discriminate.
  - apply IH; [exact Hres|]. now apply (pair_up_Ok_digests hs).
Qed.

Lemma calculate_merkle_root_Ok_hexdigest (data_list : list str) (r : str) :
  calculate_merkle_root sha256 data_list = Some (Ok r) ->
  exists d, r = hexdigest (sha256 d).
Proof.
  intros H. destruct data_list as [|x l].
  - injection H as <-. now exists [].
  - destruct (hash_all sha256 (x :: l)) as [hashes|e] eqn:Hh.
    + destruct (calculate_merkle_root_reduces
                  sha256 (x :: l) hashes ltac:(simpl; lia) Hh)
        as (r' & Hr' & Hred).
      assert (r' = Ok r) as -> by congruence.
      eapply reduces_to_digest; eauto using hash_all_digests.
    + unfold calculate_merkle_root in H. rewrite Hh in H. discriminate.
Qed.

(** X4: with digests of 32 octets, every hash the service returns is 64
    characters out of [0123456789abcdef]: the result of [calculate_hash],
    the hash of a block [create_block] returns, and the root
    [calculate_merkle_root] returns. *)
Theorem hashes_are_64_hex_characters :
  (forall x, length (sha256 x) = 32%nat) ->
  (forall i timestamp data previous_hash h,
      calculate_hash sha256 i timestamp data previous_hash = Ok h ->
      length h = 64%nat /\ forallb is_hex_char h = true)
  /\ (forall utcnow data blocks b blocks',
         create_block sha256 utcnow data blocks = Ok (b, blocks') ->
         length (hash b) = 64%nat /\ forallb is_hex_char (hash b) = true)
  /\ (forall data_list r,
         calculate_merkle_root sha256 data_list = Some (Ok r) ->
         length r = 64%nat /\ forallb is_hex_char r = true).
Proof.
  intros Hlen.
  assert (forall h, (exists d, h = hexdigest (sha256 d)) ->
                    length h = 64%nat /\ forallb is_hex_char h = true)
    as Hform.
  { intros h [d ->]. rewrite hexdigest_length, Hlen.
    split; [reflexivity | apply hexdigest_is_hex]. }
  split; [|split].
  - intros i ts d p h H. apply Hform. unfold calculate_hash in H.
    now apply sha256_hex_Ok_inv in H.
  - intros utcnow data blocks b blocks' H. apply create_block_Ok_inv in H.
    destruct H as (_ & _ & _ & _ & _ & H). apply Hform.
    unfold calculate_hash in H. now apply sha256_hex_Ok_inv in H.
  - intros l r H. apply Hform.
    now apply calculate_merkle_root_Ok_hexdigest in H.
Qed.

(** ** Errors of [calculate_merkle_root] *)

Lemma sha256_hex_encodable (x : str) :
  encodable x -> exists h, sha256_hex sha256 x = Ok h.
Proof. intros [b Hb]. unfold sha256_hex. rewrite Hb. simpl. eauto. Qed.

Lemma sha256_hex_not_encodable (x : str) :
  ~ encodable x -> sha256_hex sha256 x = Raise UnicodeEncodeError.
Proof.
  intros Hno. unfold sha256_hex.
  destruct (encode x) as [b|e] eqn:E; [exfalso; apply Hno; now exists b|].
  apply encode_Raise in E. now subst e.
Qed.

Lemma hash_all_encodable (data_list : list str) :
  Forall encodable data_list -> exists hashes, hash_all sha256 data_list = Ok hashes.
Proof.
  induction 1 as [|x l Hx _ [hs IH]]; [exists []; reflexivity|].
  destruct (sha256_hex_encodable x Hx) as [h Hh].
  exists (h :: hs). cbn [hash_all]. now rewrite Hh, IH.
Qed.

Lemma hash_all_not_encodable (data_list : list str) :
  (exists x, In x data_list /\ ~ encodable x) ->
  hash_all sha256 data_list = Raise UnicodeEncodeError.
Proof.
  induction data_list as [|y l IH]; intros (x & Hin & Hno); [destruct Hin|].
  cbn [hash_all].
  destruct (sha256_hex sha256 y) as [h|e] eqn:Hy.
  - destruct Hin as [->|Hin].
    + rewrite sha256_hex_not_encodable in Hy by exact Hno. discriminate.
    + cbn [bind]. rewrite IH by eauto. reflexivity.
  - unfold sha256_hex in Hy.
    destruct (encode y) as [b|e'] eqn:E; [discriminate|].
    apply encode_Raise in E. subst e'. simpl in Hy. injection Hy as <-.
    reflexivity.
Qed.

(** X5: [calculate_merkle_root] always returns or raises (the loop ends),
    and never with an IndexError: it returns a root when every item
    encodes, and raises UnicodeEncodeError as soon as one item does
    not. *)
Theorem calculate_merkle_root_raises_iff (data_list : list str) :
  (Forall encodable data_list ->
   exists r, calculate_merkle_root sha256 data_list = Some (Ok r))
  /\ ((exists x, In x data_list /\ ~ encodable x) ->
      calculate_merkle_root sha256 data_list = Some (Raise UnicodeEncodeError)).
Proof.
  split.
  - intros Hall. destruct data_list as [|x l]; [eexists; reflexivity|].
    destruct (hash_all_encodable _ Hall) as [hashes Hh].
    destruct (calculate_merkle_root_reduces
                sha256 (x :: l) hashes ltac:(simpl; lia) Hh)
      as (r & Hr & Hred).
    destruct (reduces_to_hexdigest _ _ Hred (hash_all_hexdigests _ _ Hh))
      as (h & d & -> & _).
    eauto.
  - intros Hex. pose proof (hash_all_not_encodable _ Hex) as Hh.
    destruct data_list as [|x l]; [destruct Hex as (x & [] & _)|].
    unfold calculate_merkle_root. now rewrite Hh.
Qed.

(** ** Two lists, one root *)

Lemma hash_all_app (l l' : list str) :
  hash_all sha256 (l ++ l')
  = (hs <- hash_all sha256 l ;; hs' <- hash_all sha256 l' ;; Ok (hs ++ hs')).
Proof.
  induction l as [|x l IH]; cbn [app hash_all bind].
  - destruct (hash_all sha256 l'); reflexivity.
  - destruct (sha256_hex sha256 x) as [h|e]; cbn [bind]; [|reflexivity].
    rewrite IH. destruct (hash_all sha256 l) as [hs|e]; cbn [bind];
      [|reflexivity].
    destruct (hash_all sha256 l') as [hs'|e]; reflexivity.
Qed.

Lemma hash_all_last (l hashes : list str) :
  l <> [] -> hash_all sha256 l = Ok hashes ->
  sha256_hex sha256 (last l []) = Ok (last hashes []).
Proof.
  intros Hne H. apply hash_all_length in H.
  induction H as [|x h l' hs Hx Hrest IH]; [congruence|].
  destruct Hrest as [|y h' l'' hs' Hy Hrest']; [exact Hx|].
  apply IH. discriminate.
Qed.

Lemma reduces_to_duplicate_last (hashes : list str) (r : result str) :
  (3 <= length hashes)%nat -> Nat.even (length hashes) = false ->
  reduces_to sha256 (hashes ++ [last hashes []]) r ->
  reduces_to sha256 hashes r.
Proof.
  intros Hlen Hodd H.
  inversion H as [h Heq | hs e Hl Hp | hs next r' Hl Hp Hr]; subst.
  - apply (f_equal (@length str)) in Heq. rewrite length_app in Heq.
    simpl in Heq. lia.
  - rewrite pair_up_duplicate_last in Hp by exact Hodd.
    apply reduces_raise; [lia | exact Hp].
  - rewrite pair_up_duplicate_last in Hp by exact Hodd.
    eapply reduces_level; eauto. lia.
Qed.

(** X6: a list of an odd number of items, three or more, has the root of
    the list with its last item repeated: the two lists are not told
    apart. *)
Theorem calculate_merkle_root_repeated_last (data_list : list str) :
  (3 <= length data_list)%nat -> Nat.even (length data_list) = false ->
  calculate_merkle_root sha256 (data_list ++ [last data_list []])
  = calculate_merkle_root sha256 data_list.
Proof.
  intros Hlen Hodd.
  assert (data_list <> []) as Hne by (intros ->; simpl in Hlen; lia).
  assert (data_list ++ [last data_list []] <> []) as Hne'
      by (destruct data_list; discriminate).
  destruct (hash_all sha256 data_list) as [hashes|e] eqn:Hh.
  - pose proof (hash_all_last _ _ Hne Hh) as Hlast.
    assert (hash_all sha256 (data_list ++ [last data_list []])
            = Ok (hashes ++ [last hashes []])) as Hh'.
    { rewrite hash_all_app, Hh. cbn [hash_all bind]. now rewrite Hlast. }
    assert (length hashes = length data_list) as Hl
        by (symmetry; eapply Forall2_length, hash_all_length; eauto).
    destruct (calculate_merkle_root_reduces
                sha256 data_list hashes ltac:(lia) Hh)
      as (r & Hr & Hred).
    destruct (calculate_merkle_root_reduces
                sha256 (data_list ++ [last data_list []])
                (hashes ++ [last hashes []])
                ltac:(rewrite length_app; simpl; lia) Hh')
      as (r' & Hr' & Hred').
    apply reduces_to_duplicate_last in Hred'; [|lia|now rewrite Hl].
    rewrite Hr, Hr'. f_equal.
    eapply reduces_to_functional; eauto.
  - assert (hash_all sha256 (data_list ++ [last data_list []]) = Raise e)
      as Hh' by (rewrite hash_all_app, Hh; reflexivity).
    unfold calculate_merkle_root.
    destruct data_list as [|x l]; [congruence|].
    cbn [app]. cbn [app] in Hh'. now rewrite Hh, Hh'.
Qed.

(** ** Mutations of stored blocks *)

Lemma replace_block_length blocks i b :
  length (replace_block blocks i b) = length blocks.
Proof.
  unfold replace_block. destruct (nth_error blocks i) as [x|] eqn:E;
    [|reflexivity].
  assert (i < length blocks)%nat by (apply nth_error_Some; congruence).
  rewrite length_app, length_firstn. cbn [length]. rewrite length_skipn. lia.
Qed.

Lemma nth_error_replace_block blocks i b j :
  (i < length blocks)%nat ->
  nth_error (replace_block blocks i b) j
  = if Nat.eqb j i then Some b else nth_error blocks j.
Proof.
  intros Hi. unfold replace_block.
  destruct (nth_error_in_range blocks i Hi) as [x ->].
  assert (length (firstn i blocks) = i) as Hl
      by (rewrite length_firstn; lia).
  destruct (Nat.eqb_spec j i) as [->|Hne].
  - rewrite nth_error_app2, Hl, Nat.sub_diag by lia. reflexivity.
  - destruct (Nat.lt_ge_cases j i) as [Hlt|Hge].
    + rewrite nth_error_app1, nth_error_firstn by lia.
      now replace (j <? i)%nat with true by (symmetry; apply Nat.ltb_lt; lia).
    + rewrite nth_error_app2, Hl by lia.
      replace (j - i)%nat with (S (j - i - 1)) by lia. cbn [nth_error].
      rewrite nth_error_skipn. f_equal. lia.
Qed.

Lemma recomputed_ext blocks blocks' i j :
  nth_error blocks' j = nth_error blocks i ->
  recomputed sha256 blocks' j = recomputed sha256 blocks i.
Proof. intros H. unfold recomputed, getitem. now rewrite H. Qed.

Lemma passes_ext blocks blocks' i j :
  nth_error blocks' j = nth_error blocks i ->
  nth_error blocks' (j - 1) = nth_error blocks (i - 1) ->
  passes sha256 blocks i -> passes sha256 blocks' j.
Proof.
  intros Hc Hp [(c & p & Hc' & Hp' & Hl) (c2 & Hc2 & Hr)]. split.
  - exists c, p. rewrite Hc, Hp. auto.
  - exists c2. rewrite Hc, (recomputed_ext blocks blocks' i j Hc). auto.
Qed.

Lemma recomputed_preimage blocks i b :
  nth_error blocks i = Some b ->
  recomputed sha256 blocks i = sha256_hex sha256 (preimage b).
Proof. intros H. unfold recomputed, getitem. now rewrite H. Qed.

Lemma valid_passes blocks n i :
  verify_chain sha256 blocks = Ok (Valid n) ->
  (1 <= i < length blocks)%nat -> passes sha256 blocks i.
Proof. intros Hv Hi. apply verify_chain_valid_iff in Hv. now apply Hv. Qed.

(** Blocks before the mutated one pass as they did. *)
Lemma passes_before_replaced blocks n i b' j :
  verify_chain sha256 blocks = Ok (Valid n) ->
  (i < length blocks)%nat -> (1 <= j < i)%nat ->
  passes sha256 (replace_block blocks i b') j.
Proof.
  intros Hv Hi Hj.
  apply (passes_ext blocks _ j j); [| |eapply valid_passes; eauto; lia].
  - rewrite nth_error_replace_block by exact Hi.
    now replace (j =? i)%nat with false by (symmetry; apply Nat.eqb_neq; lia).
  - rewrite nth_error_replace_block by exact Hi.
    now replace (j - 1 =? i)%nat with false
      by (symmetry; apply Nat.eqb_neq; lia).
Qed.

Lemma stored_hash_detected blocks n i b h' :
  verify_chain sha256 blocks = Ok (Valid n) ->
  (1 <= i)%nat -> nth_error blocks i = Some b -> h' <> hash b ->
  verify_chain sha256 (replace_block blocks i (set_hash b h'))
  = Ok (Invalid i InvalidHash).
Proof.
  intros Hv H1 Hb Hne.
  assert (i < length blocks)%nat as Hi by (apply nth_error_Some; congruence).
  destruct (valid_passes blocks n i Hv ltac:(lia))
    as [(c & p & Hc & Hp & Hl) (c2 & Hc2 & Hr)].
  assert (c = b) as -> by congruence. assert (c2 = b) as -> by congruence.
  assert (nth_error (replace_block blocks i (set_hash b h')) i
          = Some (set_hash b h')) as Hnew
      by (rewrite nth_error_replace_block, Nat.eqb_refl by exact Hi;
          reflexivity).
  assert (nth_error (replace_block blocks i (set_hash b h')) (i - 1) = Some p)
    as Hprev.
  { rewrite nth_error_replace_block by exact Hi.
    now replace (i - 1 =? i)%nat with false
      by (symmetry; apply Nat.eqb_neq; lia). }
  apply verify_chain_stops_at with (i := i).
  - rewrite replace_block_length. lia.
  - intros j Hj. eapply passes_before_replaced; eauto.
  - right. left. split; [reflexivity|]. split.
    + exists (set_hash b h'), p. auto.
    + exists (set_hash b h'), (hash b). split; [exact Hnew|]. split.
      * rewrite (recomputed_preimage _ _ _ Hnew).
        rewrite (recomputed_preimage _ _ _ Hb) in Hr. exact Hr.
      * cbn [set_hash hash]. congruence.
Qed.

Lemma genesis_hash_detected blocks n b h' :
  verify_chain sha256 blocks = Ok (Valid n) ->
  (2 <= length blocks)%nat -> nth_error blocks 0 = Some b -> h' <> hash b ->
  verify_chain sha256 (replace_block blocks 0 (set_hash b h'))
  = Ok (Invalid 1 InvalidPreviousHashReference).
Proof.
  intros Hv Hlen Hb Hne.
  destruct (valid_passes blocks n 1 Hv ltac:(lia))
    as [(c & p & Hc & Hp & Hl) _].
  cbn [Nat.sub] in Hp. assert (p = b) as -> by congruence.
  apply verify_chain_stops_at with (i := 1%nat).
  - rewrite replace_block_length. lia.
  - intros j Hj. lia.
  - left. split; [reflexivity|]. exists c, (set_hash b h').
    rewrite !nth_error_replace_block by lia. cbn [Nat.eqb Nat.sub].
    split; [exact Hc|]. split; [reflexivity|].
    cbn [set_hash hash]. congruence.
Qed.

(** X7: on a ledger that verifies, a change of the stored hash of block
    [i >= 1] is reported at [i] as an invalid hash; a change of the stored
    hash of block 0 is reported at block 1 as an invalid previous hash
    reference when there is a block 1, and is not seen when there is
    none. *)
Theorem verify_chain_detects_stored_hash blocks n i b h' :
  verify_chain sha256 blocks = Ok (Valid n) ->
  nth_error blocks i = Some b -> h' <> hash b ->
  ((1 <= i)%nat ->
   verify_chain sha256 (replace_block blocks i (set_hash b h'))
   = Ok (Invalid i InvalidHash))
  /\ (i = 0%nat -> (2 <= length blocks)%nat ->
      verify_chain sha256 (replace_block blocks i (set_hash b h'))
      = Ok (Invalid 1 InvalidPreviousHashReference))
  /\ (i = 0%nat -> length blocks = 1%nat ->
      verify_chain sha256 (replace_block blocks i (set_hash b h'))
      = Ok (Valid 1)).
Proof.
  intros Hv Hb Hne. split; [|split].
  - intros Hi. eapply stored_hash_detected; eauto.
  - intros -> Hlen. eapply genesis_hash_detected; eauto.
  - intros -> Hlen. apply verify_chain_valid_iff.
    rewrite replace_block_length, Hlen. split; [reflexivity|]. intros j Hj. lia.
Qed.

(** X8: on a ledger that verifies, a change of the previous hash of block
    [i >= 1] is reported at [i] as an invalid previous hash reference. *)
Theorem verify_chain_detects_previous_hash blocks n i b p' :
  verify_chain sha256 blocks = Ok (Valid n) ->
  (1 <= i)%nat -> nth_error blocks i = Some b -> p' <> previous_hash b ->
  verify_chain sha256 (replace_block blocks i (set_previous_hash b p'))
  = Ok (Invalid i InvalidPreviousHashReference).
Proof.
  intros Hv H1 Hb Hne.
  assert (i < length blocks)%nat as Hi by (apply nth_error_Some; congruence).
  destruct (valid_passes blocks n i Hv ltac:(lia))
    as [(c & p & Hc & Hp & Hl) _].
  assert (c = b) as -> by congruence.
  apply verify_chain_stops_at with (i := i).
  - rewrite replace_block_length. lia.
  - intros j Hj. eapply passes_before_replaced; eauto.
  - left. split; [reflexivity|]. exists (set_previous_hash b p'), p.
    rewrite !nth_error_replace_block, Nat.eqb_refl by exact Hi.
    replace (i - 1 =? i)%nat with false by (symmetry; apply Nat.eqb_neq; lia).
    split; [reflexivity|]. split; [exact Hp|].
    cbn [set_previous_hash previous_hash]. congruence.
Qed.




(** ** What [verify_chain] does not look at *)

Lemma verify_from_congr blocks blocks' indices :
  (forall i, In i indices ->
     match nth_error blocks i, nth_error blocks' i with
     | Some c, Some c' =>
         previous_hash c = previous_hash c' /\ hash c = hash c'
         /\ preimage c = preimage c'
     | None, None => True
     | _, _ => False
     end
     /\ match nth_error blocks (i - 1), nth_error blocks' (i - 1) with
        | Some p, Some p' => hash p = hash p'
        | None, None => True
        | _, _ => False
        end) ->
  length blocks = length blocks' ->
  verify_from sha256 blocks indices = verify_from sha256 blocks' indices.
Proof.
  intros Hrel Hlen. induction indices as [|i rest IH]; cbn [verify_from].
  - now rewrite Hlen.
  - destruct (Hrel i (or_introl eq_refl)) as [Hc Hp].
    unfold getitem.
    destruct (nth_error blocks i) as [c|], (nth_error blocks' i) as [c'|];
      try contradiction; [|reflexivity].
    destruct (nth_error blocks (i - 1)) as [q|],
             (nth_error blocks' (i - 1)) as [q'|];
      try contradiction; [|reflexivity].
    cbn [bind]. destruct Hc as (Hprev & Hhash & Hpre).
    change (calculate_hash sha256 (index c) (timestamp c) (data c)
                           (previous_hash c))
      with (sha256_hex sha256 (preimage c)).
    change (calculate_hash sha256 (index c') (timestamp c') (data c')
                           (previous_hash c'))
      with (sha256_hex sha256 (preimage c')).
    rewrite Hprev, Hhash, Hpre, Hp, IH; [reflexivity|].
    intros j Hj. apply Hrel. now right.
Qed.

Lemma verify_chain_replace_alike blocks i b b' :
  nth_error blocks i = Some b ->
  previous_hash b' = previous_hash b -> hash b' = hash b ->
  preimage b' = preimage b ->
  verify_chain sha256 (replace_block blocks i b') = verify_chain sha256 blocks.
Proof.
  intros Hb Hprev Hhash Hpre.
  assert (i < length blocks)%nat as Hi by (apply nth_error_Some; congruence).
  unfold verify_chain. rewrite replace_block_length.
  apply verify_from_congr; [|apply replace_block_length].
  intros j _. rewrite !nth_error_replace_block by exact Hi. split.
  - destruct (Nat.eqb_spec j i) as [->|_].
    + rewrite Hb. auto.
    + destruct (nth_error blocks j); auto.
  - destruct (Nat.eqb_spec (j - 1) i) as [->|_].
    + rewrite Hb. auto.
    + destruct (nth_error blocks (j - 1)); auto.
Qed.

(** X10: [verify_chain] never looks at the index, timestamp, data or
    previous hash of block 0: on any ledger, putting any block with the
    same stored hash in its place leaves the result as it was. *)
Theorem verify_chain_ignores_genesis_content blocks b0 b0' :
  nth_error blocks 0 = Some b0 -> hash b0' = hash b0 ->
  verify_chain sha256 (replace_block blocks 0 b0') = verify_chain sha256 blocks.
Proof.
  intros Hb Hhash.
  assert (0 < length blocks)%nat as Hi by (apply nth_error_Some; congruence).
  unfold verify_chain. rewrite replace_block_length.
  apply verify_from_congr; [|apply replace_block_length].
  intros j Hj. apply in_seq in Hj.
  rewrite !nth_error_replace_block by exact Hi. split.
  - replace (j =? 0)%nat with false by (symmetry; apply Nat.eqb_neq; lia).
    destruct (nth_error blocks j); auto.
  - destruct (Nat.eqb_spec (j - 1) 0) as [->|_].
    + rewrite Hb. auto.
    + destruct (nth_error blocks (j - 1)); auto.
Qed.

(** X11: the hashed text has no separators: on any ledger, moving
    characters from the end of a block's timestamp to the front of its
    data leaves the result of [verify_chain] as it was. *)
Theorem verify_chain_ignores_field_boundary blocks i idx t x d p h :
  nth_error blocks i = Some (mkBlock idx (t ++ x) d p h) ->
  verify_chain sha256 (replace_block blocks i (mkBlock idx t (x ++ d) p h))
  = verify_chain sha256 blocks.
Proof.
  intros Hb. eapply verify_chain_replace_alike; eauto.
  unfold preimage. cbn [index timestamp data previous_hash].
  now rewrite <- !app_assoc.
Qed.

(** X12: every run of consecutive blocks of a ledger that verifies is a
    ledger that verifies: neither the loss of the last blocks nor the loss
    of the first ones is seen, the stored indices and the sentinel of
    block 0 not being looked at. *)
Theorem verify_chain_of_sub_chain blocks n k m :
  verify_chain sha256 blocks = Ok (Valid n) ->
  verify_chain sha256 (firstn m (skipn k blocks))
  = Ok (Valid (length (firstn m (skipn k blocks)))).
Proof.
  intros Hv. apply verify_chain_valid_iff. split; [reflexivity|].
  intros j Hj. rewrite length_firstn, length_skipn in Hj.
  apply (passes_ext blocks _ (k + j) j).
  - rewrite nth_error_firstn, nth_error_skipn.
    now replace (j <? m)%nat with true by (symmetry; apply Nat.ltb_lt; lia).
  - rewrite nth_error_firstn, nth_error_skipn.
    replace (j - 1 <? m)%nat with true by (symmetry; apply Nat.ltb_lt; lia).
    f_equal. lia.
  - eapply valid_passes; eauto. lia.
Qed.

(** ** [health_check] *)

(** X13: [health_check] reports healthy, with the number of blocks and a
    valid test hash, whenever the clock text encodes (an ISO date always
    does) and digests have 32 octets; a clock text that does not encode is
    reported as unhealthy, not raised. *)
Theorem health_check_healthy utcnow blocks :
  (forall x, length (sha256 x) = 32%nat) ->
  (encodable utcnow ->
   health_check sha256 utcnow blocks = Healthy (length blocks) true)
  /\ (~ encodable utcnow ->
      health_check sha256 utcnow blocks = Unhealthy UnicodeEncodeError).
Proof.
  intros Hlen. unfold health_check, calculate_hash. split.
  - intros Hts.
    assert (encodable (str_of_int 0 ++ utcnow ++ text "test"
                       ++ str_repeat 48%N 64)) as Henc.
    { apply encodable_app; [apply encodable_ascii, str_of_int_ascii|].
      apply encodable_app; [exact Hts|].
      apply encodable_app; apply encodable_ascii.
      - repeat constructor; lia.
      - apply zero_hash_ascii. }
    destruct (sha256_hex_encodable _ Henc) as [h Hh]. rewrite Hh.
    apply sha256_hex_Ok_inv in Hh. destruct Hh as [d ->].
    now rewrite hexdigest_length, Hlen, hexdigest_is_hex.
  - intros Hno. rewrite sha256_hex_not_encodable; [reflexivity|].
    intros Henc. apply encodable_app_inv in Henc. destruct Henc as [_ Henc].
    apply encodable_app_inv in Henc. tauto.
Qed.

End WithSha256.

End HashServiceMore.

(** The further properties of the ledger on SHA-256 itself. *)
Module HashServiceMoreOnSHA256.
Import HashService HashServiceSpec HashServiceMore Samples.

Lemma get_block_after_create_block_witness :
  create_block SHA256.digest sample_time (text "a") []
  = Ok (block_a, [block_a])
  /\ get_block [block_a] 0 = Some block_a
  /\ get_block [block_a] 1 = None.
Proof.
  assert (create_block SHA256.digest sample_time (text "a") []
          = Ok (block_a, [block_a])) as H by (vm_compute; reflexivity).
  destruct (get_block_after_create_block SHA256.digest _ _ _ _ _ H)
    as (_ & Hg & _ & _ & Hn).
  split; [exact H|]. split; [exact Hg|]. apply Hn. right. simpl. lia.
Defined.

Lemma get_block_by_index_witness :
  run SHA256.digest [(sample_time, text "a"); (sample_time, text "b")] [] 0
  = ([block_a; block_b], 2%nat)
  /\ (0 <= 1 < Z.of_nat 2
      /\ exists b, get_block [block_a; block_b] 1 = Some b /\ index b = 1)
  /\ (Z.of_nat 2 <= 2 /\ get_block [block_a; block_b] 2 = None).
Proof.
  assert (run SHA256.digest
              [(sample_time, text "a"); (sample_time, text "b")] [] 0
          = ([block_a; block_b], 2%nat)) as Hrun by (vm_compute; reflexivity).
  destruct (get_block_by_index SHA256.digest _ _ _ 1 Hrun) as (Hin & _).
  destruct (get_block_by_index SHA256.digest _ _ _ 2 Hrun) as (_ & Hout).
  split; [exact Hrun|]. split; (split; [lia|]).
  - apply Hin. lia.
  - apply Hout. right. lia.
Defined.

Lemma create_block_raises_iff_witness :
  run SHA256.digest [(sample_time, text "a")] [] 0 = ([block_a], 1%nat)
  /\ (encodable sample_time /\ encodable (text "b")
      /\ exists b, create_block SHA256.digest sample_time (text "b") [block_a]
                   = Ok (b, [block_a] ++ [b]))
  /\ (~ (encodable sample_time /\ encodable lone_surrogate)
      /\ create_block SHA256.digest sample_time lone_surrogate [block_a]
         = Raise UnicodeEncodeError).
Proof.
  assert (run SHA256.digest [(sample_time, text "a")] [] 0
          = ([block_a], 1%nat)) as Hrun by (vm_compute; reflexivity).
  destruct (create_block_raises_iff SHA256.digest _ _ _ sample_time
                                    (text "b") Hrun) as (Hok & _).
  destruct (create_block_raises_iff SHA256.digest _ _ _ sample_time
                                    lone_surrogate Hrun) as (_ & Hraise).
  assert (encodable sample_time) as Ht by (eexists; reflexivity).
  assert (encodable (text "b")) as Hb by (eexists; reflexivity).
  assert (~ (encodable sample_time /\ encodable lone_surrogate)) as Hs
      by (intros [_ [b Hb']]; discriminate Hb').
  split; [exact Hrun|]. split.
  - split; [exact Ht|]. split; [exact Hb|]. apply Hok. now split.
  - split; [exact Hs|]. now apply Hraise.
Defined.

Lemma hashes_are_64_hex_characters_witness :
  (forall x, length (SHA256.digest x) = 32%nat)
  /\ calculate_hash SHA256.digest 0 sample_time (text "a") zero_hash
     = Ok (hash block_a)
  /\ length (hash block_a) = 64%nat
  /\ forallb is_hex_char (hash block_a) = true.
Proof.
  destruct (hashes_are_64_hex_characters SHA256.digest sha256_digest_length)
    as (Hc & _).
  assert (calculate_hash SHA256.digest 0 sample_time (text "a") zero_hash
          = Ok (hash block_a)) as H by (vm_compute; reflexivity).
  split; [exact sha256_digest_length|]. split; [exact H|].
  exact (Hc _ _ _ _ _ H).
Defined.

Lemma calculate_merkle_root_raises_iff_witness :
  (Forall encodable [text "a"; text "b"]
   /\ exists r, calculate_merkle_root SHA256.digest [text "a"; text "b"]
                = Some (Ok r))
  /\ (In lone_surrogate [text "a"; lone_surrogate]
      /\ ~ encodable lone_surrogate
      /\ calculate_merkle_root SHA256.digest [text "a"; lone_surrogate]
         = Some (Raise UnicodeEncodeError)).
Proof.
  destruct (calculate_merkle_root_raises_iff SHA256.digest
                                             [text "a"; text "b"])
    as (Hok & _).
  destruct (calculate_merkle_root_raises_iff SHA256.digest
                                             [text "a"; lone_surrogate])
    as (_ & Hraise).
  assert (Forall encodable [text "a"; text "b"]) as Hall
      by (repeat constructor; eexists; reflexivity).
  assert (In lone_surrogate [text "a"; lone_surrogate]) as Hin
      by (right; left; reflexivity).
  assert (~ encodable lone_surrogate) as Hs
      by (intros [b Hb]; discriminate Hb).
  split.
  - split; [exact Hall|]. now apply Hok.
  - split; [exact Hin|]. split; [exact Hs|]. apply Hraise.
    exists lone_surrogate. now split.
Defined.

Lemma calculate_merkle_root_repeated_last_witness :
  (3 <= length [text "a"; text "b"; text "c"])%nat
  /\ Nat.even (length [text "a"; text "b"; text "c"]) = false
  /\ calculate_merkle_root SHA256.digest
       ([text "a"; text "b"; text "c"]
        ++ [last [text "a"; text "b"; text "c"] []])
     = calculate_merkle_root SHA256.digest [text "a"; text "b"; text "c"].
Proof.
  split; [simpl; lia|]. split; [reflexivity|].
  apply (calculate_merkle_root_repeated_last
           SHA256.digest [text "a"; text "b"; text "c"]);
    [simpl; lia | reflexivity].
Defined.

Lemma verify_chain_detects_stored_hash_witness :
  verify_chain SHA256.digest [block_a; block_b] = Ok (Valid 2)
  /\ nth_error [block_a; block_b] 1 = Some block_b
  /\ text "00" <> hash block_b
  /\ verify_chain SHA256.digest
       (replace_block [block_a; block_b] 1 (set_hash block_b (text "00")))
     = Ok (Invalid 1 InvalidHash).
Proof.
  assert (verify_chain SHA256.digest [block_a; block_b] = Ok (Valid 2))
    as Hv by (vm_compute; reflexivity).
  assert (text "00" <> hash block_b) as Hne by (vm_compute; discriminate).
  destruct (verify_chain_detects_stored_hash
              SHA256.digest [block_a; block_b] 2 1 block_b (text "00")
              Hv eq_refl Hne) as (Hlater & _).
  split; [exact Hv|]. split; [reflexivity|]. split; [exact Hne|].
  apply Hlater. lia.
Defined.

Lemma verify_chain_detects_previous_hash_witness :
  verify_chain SHA256.digest [block_a; block_b] = Ok (Valid 2)
  /\ (1 <= 1)%nat
  /\ nth_error [block_a; block_b] 1 = Some block_b
  /\ text "00" <> previous_hash block_b
  /\ verify_chain SHA256.digest
       (replace_block [block_a; block_b] 1
                      (set_previous_hash block_b (text "00")))
     = Ok (Invalid 1 InvalidPreviousHashReference).
Proof.
  assert (verify_chain SHA256.digest [block_a; block_b] = Ok (Valid 2))
    as Hv by (vm_compute; reflexivity).
  assert (text "00" <> previous_hash block_b) as Hne
      by (vm_compute; discriminate).
  split; [exact Hv|]. split; [lia|]. split; [reflexivity|].
  split; [exact Hne|].
  apply (verify_chain_detects_previous_hash
           SHA256.digest [block_a; block_b] 2 1 block_b (text "00")
           Hv ltac:(lia) eq_refl Hne).
Defined.


Lemma verify_chain_ignores_genesis_content_witness :
  nth_error [block_a; block_b] 0 = Some block_a
  /\ hash (mkBlock 7 (text "x") (text "forged") (text "y") (hash block_a))
     = hash block_a
  /\ verify_chain SHA256.digest
       (replace_block [block_a; block_b] 0
          (mkBlock 7 (text "x") (text "forged") (text "y") (hash block_a)))
     = verify_chain SHA256.digest [block_a; block_b].
Proof.
  split; [reflexivity|]. split; [reflexivity|].
  apply (verify_chain_ignores_genesis_content
           SHA256.digest [block_a; block_b] block_a
           (mkBlock 7 (text "x") (text "forged") (text "y") (hash block_a))
           eq_refl eq_refl).
Defined.

Lemma verify_chain_ignores_field_boundary_witness :
  nth_error [block_a; block_b] 1
  = Some (mkBlock 1 (text "2024-01-01T" ++ text "00:00:00") (text "b")
                  (hash block_a) (hash block_b))
  /\ verify_chain SHA256.digest
       (replace_block [block_a; block_b] 1
          (mkBlock 1 (text "2024-01-01T") (text "00:00:00" ++ text "b")
                   (hash block_a) (hash block_b)))
     = verify_chain SHA256.digest [block_a; block_b].
Proof.
  split; [reflexivity|].
  apply (verify_chain_ignores_field_boundary
           SHA256.digest [block_a; block_b] 1 1
           (text "2024-01-01T") (text "00:00:00") (text "b")
           (hash block_a) (hash block_b) eq_refl).
Defined.

Lemma verify_chain_of_sub_chain_witness :
  verify_chain SHA256.digest [block_a; block_b; block_c] = Ok (Valid 3)
  /\ verify_chain SHA256.digest
       (firstn 2 (skipn 1 [block_a; block_b; block_c]))
     = Ok (Valid 2).
Proof.
  assert (verify_chain SHA256.digest [block_a; block_b; block_c]
          = Ok (Valid 3)) as Hv by (vm_compute; reflexivity).
  split; [exact Hv|].
  exact (verify_chain_of_sub_chain
           SHA256.digest [block_a; block_b; block_c] 3 1 2 Hv).
Defined.

Lemma health_check_healthy_witness :
  (forall x, length (SHA256.digest x) = 32%nat)
  /\ encodable sample_time
  /\ health_check SHA256.digest sample_time [block_a] = Healthy 1 true.
Proof.
  destruct (health_check_healthy SHA256.digest sample_time [block_a]
                                 sha256_digest_length) as (Hok & _).
  assert (encodable sample_time) as Ht by (eexists; reflexivity).
  split; [exact sha256_digest_length|]. split; [exact Ht|].
  now apply Hok.
Defined.

End HashServiceMoreOnSHA256.

(* ================================================================== *)
(** * More of the proof-of-work engine: targets, budgets, chaining *)

(** The order of [bytes]. *)
Section BytesOrder.

Lemma bytes_lt_app_same (p a b : bytes) :
  bytes_lt (p ++ a) (p ++ b) = bytes_lt a b.
Proof.
  induction p as [|x p IH]; [reflexivity|].
  cbn [app bytes_lt]. now rewrite N.ltb_irrefl.
Qed.

Lemma bytes_lt_trans (a b c : bytes) :
  bytes_lt a b = true -> bytes_lt b c = true -> bytes_lt a c = true.
Proof.
  revert b c; induction a as [|x a IH]; intros [|y b] [|z c] Hab Hbc;
    simpl in *; try discriminate; try reflexivity.
  destruct (Byte.to_N x <? Byte.to_N y)%N eqn:Exy;
    destruct (Byte.to_N y <? Byte.to_N z)%N eqn:Eyz;
    try apply N.ltb_lt in Exy; try apply N.ltb_ge in Exy;
    try apply N.ltb_lt in Eyz; try apply N.ltb_ge in Eyz.
  - replace (Byte.to_N x <? Byte.to_N z)%N with true
      by (symmetry; apply N.ltb_lt; lia). reflexivity.
  - destruct (Byte.to_N z <? Byte.to_N y)%N eqn:Ezy; [discriminate|].
    apply N.ltb_ge in Ezy.
    replace (Byte.to_N x <? Byte.to_N z)%N with true
      by (symmetry; apply N.ltb_lt; lia). reflexivity.
  - destruct (Byte.to_N y <? Byte.to_N x)%N eqn:Eyx; [discriminate|].
    apply N.ltb_ge in Eyx.
    replace (Byte.to_N x <? Byte.to_N z)%N with true
      by (symmetry; apply N.ltb_lt; lia). reflexivity.
  - destruct (Byte.to_N y <? Byte.to_N x)%N eqn:Eyx; [discriminate|].
    destruct (Byte.to_N z <? Byte.to_N y)%N eqn:Ezy; [discriminate|].
    apply N.ltb_ge in Eyx, Ezy.
    replace (Byte.to_N x <? Byte.to_N z)%N with false
      by (symmetry; apply N.ltb_ge; lia).
    replace (Byte.to_N z <? Byte.to_N x)%N with false
      by (symmetry; apply N.ltb_ge; lia).
    eapply IH; eauto.
Qed.

(** Below [n] zero octets followed by [t]: [n] zero octets, then
    below [t]. *)
Lemma bytes_lt_zeros_then (n : nat) (h t : bytes) :
  (n <= length h)%nat ->
  bytes_lt h (repeat x00 n ++ t)
  = bytes_eqb (firstn n h) (repeat x00 n) && bytes_lt (skipn n h) t.
Proof.
  unfold bytes_eqb.
  revert h; induction n as [|n IH]; intros h Hn; [reflexivity|].
  destruct h as [|x h]; [simpl in Hn; lia|].
  cbn [repeat app bytes_lt firstn skipn seq_eqb].
  change (Byte.to_N x00) with 0%N.
  replace (Byte.to_N x <? 0)%N with false by (symmetry; apply N.ltb_ge; lia).
  destruct (0 <? Byte.to_N x)%N eqn:E.
  - apply N.ltb_lt in E.
    replace (Byte.eqb x x00) with false; [reflexivity|].
    symmetry. destruct (Byte.eqb x x00) eqn:E'; [|reflexivity].
    apply Byte.byte_dec_bl in E'. subst x. simpl in E. lia.
  - apply N.ltb_ge in E.
    assert (x = x00) as -> by (apply to_N_inj; simpl; lia).
    simpl. apply IH. simpl in Hn. lia.
Qed.

Lemma bytes_lt_ones_prefix (n m : nat) :
  (n < m)%nat -> bytes_lt (repeat xff n) (repeat xff m) = true.
Proof.
  intros H. apply bytes_lt_ones_longer. now rewrite repeat_length.
Qed.

End BytesOrder.

Module ProofGeneratorMore.
Import ProofGenerator ProofGeneratorSpec.

(** ** Targets *)

Lemma init_target_of (d : Z) : init d = Ok (mk d (target_of d)).
Proof. reflexivity. Qed.

Lemma target_of_nonneg (d : Z) :
  0 <= d <= 32 ->
  target_of d = repeat x00 (Z.to_nat d) ++ repeat xff (32 - Z.to_nat d).
Proof.
  intros Hd. unfold target_of, bytes_repeat.
  now replace (Z.to_nat (32 - d)) with (32 - Z.to_nat d)%nat by lia.
Qed.

Lemma target_of_neg (d : Z) :
  d <= 0 -> target_of d = repeat xff (Z.to_nat (32 - d)).
Proof.
  intros Hd. unfold target_of, bytes_repeat.
  now replace (Z.to_nat d) with 0%nat by lia.
Qed.

(** A higher difficulty has a lower target, up to 32. *)
Lemma target_of_decreasing (d d' : Z) :
  d < d' <= 32 -> bytes_lt (target_of d') (target_of d) = true.
Proof.
  intros Hd. destruct (Z_le_dec d' 0) as [Hneg|Hpos].
  - rewrite !target_of_neg by lia. apply bytes_lt_ones_prefix. lia.
  - unfold target_of, bytes_repeat.
    replace (Z.to_nat d') with (Z.to_nat d + S (Z.to_nat d' - Z.to_nat d - 1))%nat
      by lia.
    rewrite repeat_app, <- app_assoc, bytes_lt_app_same.
    replace (Z.to_nat (32 - d)) with (S (Z.to_nat (32 - d) - 1)) by lia.
    reflexivity.
Qed.

Lemma target_below_chain_target (d : Z) :
  d <= 32 -> bytes_lt (target_of d) (chain_target d) = true.
Proof.
  intros Hd. destruct (Z_le_dec d 0) as [Hneg|Hpos].
  - rewrite target_of_neg by lia. unfold chain_target, bytes_repeat.
    replace (Z.to_nat (d - 1)) with 0%nat by lia.
    apply bytes_lt_ones_prefix. lia.
  - unfold target_of, chain_target, bytes_repeat.
    replace (Z.to_nat d) with (Z.to_nat (d - 1) + 1)%nat by lia.
    rewrite repeat_app, <- app_assoc, bytes_lt_app_same.
    replace (Z.to_nat (33 - d)) with (S (Z.to_nat (33 - d) - 1)) by lia.
    reflexivity.
Qed.

Section WithSha256.

Variable sha256 : bytes -> bytes.

Hypothesis sha256_length : forall x, length (sha256 x) = 32%nat.

Lemma digest_of_length data n : length (digest_of sha256 data n) = 32%nat.
Proof. apply sha256_length. Qed.

Lemma verified_hash_length self p :
  verify_proof sha256 self p = Ok true -> length (hash p) = 32%nat.
Proof.
  intros H. apply verify_proof_true_iff in H. destruct H as (_ & -> & _).
  apply digest_of_length.
Qed.

Lemma below_target_iff (d : Z) (h : bytes) :
  0 <= d <= 32 -> length h = 32%nat ->
  (bytes_lt h (target_of d) = true
   <-> firstn (Z.to_nat d) h = repeat x00 (Z.to_nat d)
       /\ skipn (Z.to_nat d) h <> repeat xff (32 - Z.to_nat d)).
Proof.
  intros Hd Hh. rewrite target_of_nonneg by exact Hd.
  rewrite bytes_lt_zeros_then by lia.
  assert (length (skipn (Z.to_nat d) h) = (32 - Z.to_nat d)%nat) as Hs
      by (rewrite length_skipn; lia).
  pose proof (bytes_lt_ones (skipn (Z.to_nat d) h)) as Hones.
  rewrite Hs in Hones. rewrite Hones, andb_true_iff, bytes_eqb_eq.
  rewrite negb_true_iff. split; intros [H1 H2]; (split; [exact H1|]).
  - intros Heq. apply bytes_eqb_eq in Heq. congruence.
  - now apply bytes_eqb_neq.
Qed.

(** X14: with a difficulty [d] from 0 to 32, the hash of every proof
    [verify_proof] accepts, and of every proof [generate_proof] returns,
    starts with [d] zero octets; a digest is below the target exactly when
    it starts with [d] zero octets and the octets after them are not all
    0xFF. *)
Theorem accepted_hash_starts_with_zero_octets d self :
  0 <= d <= 32 -> init d = Ok self ->
  (forall p, verify_proof sha256 self p = Ok true ->
             firstn (Z.to_nat d) (hash p) = repeat x00 (Z.to_nat d))
  /\ (forall now data max_attempts p,
         generate_proof sha256 self now data max_attempts = Ok (Some p) ->
         firstn (Z.to_nat d) (hash p) = repeat x00 (Z.to_nat d))
  /\ (forall h, length h = 32%nat ->
                (bytes_lt h (target self) = true
                 <-> firstn (Z.to_nat d) h = repeat x00 (Z.to_nat d)
                     /\ skipn (Z.to_nat d) h
                        <> repeat xff (32 - Z.to_nat d))).
Proof.
  intros Hd Hinit. rewrite init_target_of in Hinit. injection Hinit as <-.
  cbn [target].
  assert (forall p, verify_proof sha256 (mk d (target_of d)) p = Ok true ->
                    firstn (Z.to_nat d) (hash p) = repeat x00 (Z.to_nat d))
    as Hacc.
  { intros p Hv. pose proof (verified_hash_length _ _ Hv) as Hl.
    apply verify_proof_true_iff in Hv. destruct Hv as (_ & _ & Hlt).
    cbn [target] in Hlt. now apply below_target_iff in Hlt. }
  split; [exact Hacc|]. split.
  - intros now data m p Hg. apply Hacc.
    apply verify_proof_true_iff. apply generate_proof_sound in Hg.
    destruct Hg as (<- & _ & Hn & Hn64 & Hh & Hm & _).
    unfold nonce_in_range. repeat split; try lia; auto.
    unfold meets in Hm. now rewrite Hh.
  - intros h Hh. now apply below_target_iff.
Qed.

(** ** One difficulty against another *)

Lemma generate_from_complete self data st r :
  forall n k,
    0 <= n <= k -> k < n + Z.of_nat r -> k < 2 ^ 64 ->
    meets sha256 self data k = true ->
    exists p, generate_from sha256 self data st r n = Ok (Some p)
              /\ n <= nonce p <= k.
Proof.
  induction r as [|r IH]; intros n k Hn Hk Hk64 Hmeet; [simpl in Hk; lia|].
  cbn [generate_from]. rewrite hash_in_range by lia. cbn [bind].
  destruct (bytes_lt (digest_of sha256 data n) (target self)) eqn:Hlt.
  - eexists. split; [reflexivity|]. cbn [nonce]. lia.
  - destruct (Z.eq_dec k n) as [->|Hne];
      [unfold meets in Hmeet; congruence|].
    destruct (IH (n + 1) k ltac:(lia) ltac:(lia) Hk64 Hmeet) as (p & Hp & Hnp).
    exists p. split; [exact Hp | lia].
Qed.

Lemma generate_proof_complete self now data max_attempts k :
  0 <= k < max_attempts -> k < 2 ^ 64 ->
  meets sha256 self data k = true ->
  exists p, generate_proof sha256 self now data max_attempts = Ok (Some p)
            /\ 0 <= nonce p <= k.
Proof.
  intros Hk Hk64 Hmeet. unfold generate_proof.
  apply generate_from_complete; auto; lia.
Qed.

(** X15: a proof of a difficulty up to 32 is a proof of every lower
    difficulty, and a search that succeeds at the higher difficulty
    succeeds at the lower one with a nonce that is not larger. *)
Theorem lower_difficulty_accepts_more d d' self self' :
  d <= d' <= 32 -> init d = Ok self -> init d' = Ok self' ->
  (forall p, verify_proof sha256 self' p = Ok true ->
             verify_proof sha256 self p = Ok true)
  /\ (forall now data max_attempts p',
         generate_proof sha256 self' now data max_attempts = Ok (Some p') ->
         exists p, generate_proof sha256 self now data max_attempts
                   = Ok (Some p)
                   /\ nonce p <= nonce p').
Proof.
  intros Hd Hinit Hinit'. rewrite init_target_of in Hinit, Hinit'.
  injection Hinit as <-. injection Hinit' as <-.
  assert (forall h, bytes_lt h (target_of d') = true ->
                    bytes_lt h (target_of d) = true) as Hmono.
  { intros h Hh. destruct (Z.eq_dec d d') as [->|Hne]; [exact Hh|].
    eapply bytes_lt_trans; [exact Hh|]. apply target_of_decreasing. lia. }
  split.
  - intros p Hv. apply verify_proof_true_iff in Hv.
    apply verify_proof_true_iff. cbn [target] in *.
    destruct Hv as (Hr & Hh & Hlt). auto.
  - intros now data m p' Hg. apply generate_proof_sound in Hg.
    destruct Hg as (_ & _ & Hn & Hn64 & _ & Hm & _).
    destruct (generate_proof_complete (mk d (target_of d)) now data m
                                      (nonce p') Hn Hn64) as (p & Hp & Hle).
    + unfold meets in *. cbn [target] in *. auto.
    + exists p. split; [exact Hp | lia].
Qed.

(** X16: with difficulty 32 the target is 32 zero octets and no digest is
    below it: [verify_proof] accepts no proof and [generate_proof] finds
    none, whatever the data and the budget (up to 2^64). *)
Theorem difficulty_32_admits_no_proof self :
  init 32 = Ok self ->
  (forall p, verify_proof sha256 self p <> Ok true)
  /\ (forall now data max_attempts p,
         generate_proof sha256 self now data max_attempts <> Ok (Some p))
  /\ (forall now data max_attempts,
         max_attempts <= 2 ^ 64 ->
         generate_proof sha256 self now data max_attempts = Ok None).
Proof.
  intros Hinit. rewrite init_target_of in Hinit. injection Hinit as <-.
  assert (forall data n,
             meets sha256 (mk 32 (target_of 32)) data n = false) as Hnever.
  { intros data n. unfold meets. cbn [target].
    pose proof (bytes_lt_zeros (digest_of sha256 data n)) as H.
    now rewrite digest_of_length in H. }
  split; [|split].
  - intros p Hv. apply verify_proof_true_iff in Hv.
    destruct Hv as (_ & Hh & Hlt).
    pose proof (Hnever (data p) (nonce p)) as H. unfold meets in H.
    rewrite <- Hh in H. congruence.
  - intros now data m p Hg. apply generate_proof_sound in Hg.
    destruct Hg as (_ & _ & _ & _ & _ & Hm & _). rewrite Hnever in Hm.
    discriminate.
  - intros now data m Hm. apply generate_proof_exhausted; [exact Hm|].
    intros j _. apply Hnever.
Qed.


(** X18: a found proof does not depend on the budget nor on the clock: a
    larger budget, at any time, finds the same data, nonce and hash. *)
Theorem generate_proof_stable_under_budget self now data max_attempts p :
  generate_proof sha256 self now data max_attempts = Ok (Some p) ->
  forall now' max_attempts',
    max_attempts <= max_attempts' ->
    generate_proof sha256 self now' data max_attempts'
    = Ok (Some (mkProof (ProofGenerator.data p) (nonce p) (hash p) now')).
Proof.
  intros Hg now' m' Hm. apply generate_proof_sound in Hg.
  destruct Hg as (-> & _ & Hn & Hn64 & -> & Hmeet & Hmin).
  apply generate_proof_found; auto. lia.
Qed.

(** ** The pair check and the search for the next proof *)

Lemma verify_chain_true_iff self proofA proofB :
  verify_chain sha256 self proofA proofB = Ok true
  <-> timestamp proofA < timestamp proofB
      /\ verify_proof sha256 self proofA = Ok true
      /\ verify_proof sha256 self proofB = Ok true
      /\ bytes_lt (sha256 (hash proofA ++ hash proofB))
                  (chain_target (difficulty self)) = true.
Proof.
  unfold verify_chain, chain_target. rewrite Z.geb_leb.
  destruct (timestamp proofB <=? timestamp proofA) eqn:E.
  - apply Z.leb_le in E. split; [discriminate | lia].
  - apply Z.leb_gt in E.
    destruct (verify_proof sha256 self proofA) as [[|]|e]; simpl;
      [destruct (verify_proof sha256 self proofB) as [[|]|e']; simpl| |];
      (split; [intros [= H] || intros H; try discriminate
              | intros (_ & H1 & H2 & H3); try discriminate;
                try congruence]).
    repeat split; auto.
Qed.

Lemma verify_chain_first_rejected self proofA proofB :
  verify_proof sha256 self proofA = Ok false ->
  verify_chain sha256 self proofA proofB = Ok false.
Proof.
  intros H. unfold verify_chain.
  destruct (timestamp proofA >=? timestamp proofB); [reflexivity|].
  now rewrite H.
Qed.

Lemma verify_chain_first_raises self proofA proofB :
  timestamp proofA < timestamp proofB -> ~ nonce_in_range proofA ->
  verify_chain sha256 self proofA proofB = Raise StructError.
Proof.
  intros Hts Hr. unfold verify_chain.
  destruct (timestamp proofA >=? timestamp proofB) eqn:E;
    [apply Z.geb_le in E; lia|].
  unfold verify_proof. rewrite hash_out_of_range; [reflexivity|].
  unfold nonce_in_range in Hr. lia.
Qed.

Lemma verify_chain_second_raises self proofA proofB :
  timestamp proofA < timestamp proofB ->
  verify_proof sha256 self proofA = Ok true -> ~ nonce_in_range proofB ->
  verify_chain sha256 self proofA proofB = Raise StructError.
Proof.
  intros Hts HA Hr. unfold verify_chain.
  destruct (timestamp proofA >=? timestamp proofB) eqn:E;
    [apply Z.geb_le in E; lia|].
  rewrite HA. cbn [bind].
  unfold verify_proof. rewrite hash_out_of_range; [reflexivity|].
  unfold nonce_in_range in Hr. lia.
Qed.

Lemma verify_proof_Ok_range self p b :
  verify_proof sha256 self p = Ok b -> nonce_in_range p.
Proof.
  unfold verify_proof. intros H.
  apply bind_Ok_inv in H. destruct H as (h & Hh & _).
  apply hash_Ok_inv in Hh. now destruct Hh.
Qed.

Lemma verify_proof_Raise_inv self p e :
  verify_proof sha256 self p = Raise e ->
  ~ nonce_in_range p /\ e = StructError.
Proof.
  intros H.
  destruct (Z_le_gt_dec 0 (nonce p)) as [H0|H0];
    [destruct (Z_lt_le_dec (nonce p) (2 ^ 64)) as [H1|H1]|].
  - rewrite verify_proof_in_range in H by (split; assumption). discriminate.
  - unfold verify_proof in H. rewrite hash_out_of_range in H by lia.
    injection H as <-. unfold nonce_in_range. split; [lia | reflexivity].
  - unfold verify_proof in H. rewrite hash_out_of_range in H by lia.
    injection H as <-. unfold nonce_in_range. split; [lia | reflexivity].
Qed.

Lemma verify_chain_Raise_inv self proofA proofB e :
  verify_chain sha256 self proofA proofB = Raise e ->
  e = StructError
  /\ timestamp proofA < timestamp proofB
  /\ (~ nonce_in_range proofA
      \/ (verify_proof sha256 self proofA = Ok true
          /\ ~ nonce_in_range proofB)).
Proof.
  intros H. unfold verify_chain in H.
  destruct (timestamp proofA >=? timestamp proofB) eqn:E; [discriminate|].
  assert (timestamp proofA < timestamp proofB) as Hts.
  { destruct (Z_lt_le_dec (timestamp proofA) (timestamp proofB)) as [|Hle];
      [assumption|].
    assert ((timestamp proofA >=? timestamp proofB) = true)
      by (apply Z.geb_le; lia). congruence. }
  destruct (verify_proof sha256 self proofA) as [[|]|eA] eqn:HA;
    cbn [bind] in H.
  - destruct (verify_proof sha256 self proofB) as [[|]|eB] eqn:HB;
      cbn [bind negb] in H; try discriminate.
    injection H as <-. apply verify_proof_Raise_inv in HB.
    destruct HB as [HB ->]. auto.
  - discriminate.
  - injection H as <-. apply verify_proof_Raise_inv in HA.
    destruct HA as [HA ->]. auto.
Qed.

(** X19: [verify_chain] raises exactly when it comes to pack a nonce that
    does not fit 64 bits: the first proof's after the timestamps passed, or
    the second proof's after the first proof was accepted.  The
    short-circuit of [and] keeps a malformed second proof from raising
    when the first proof is rejected, and the timestamp check keeps both
    from raising when the order is wrong. *)
Theorem verify_chain_raises_iff self proofA proofB e :
  verify_chain sha256 self proofA proofB = Raise e
  <-> e = StructError
      /\ timestamp proofA < timestamp proofB
      /\ (~ nonce_in_range proofA
          \/ (verify_proof sha256 self proofA = Ok true
              /\ ~ nonce_in_range proofB)).
Proof.
  split.
  - apply verify_chain_Raise_inv.
  - intros (-> & Hts & [HA | [HA HB]]).
    + now apply verify_chain_first_raises.
    + now apply verify_chain_second_raises.
Qed.

(** X20: [verify_chain] orders the two proofs strictly by timestamp: no
    proof chains with itself, and two proofs never chain in both
    orders. *)
Theorem verify_chain_is_one_way self proofA proofB :
  verify_chain sha256 self proofA proofA = Ok false
  /\ (verify_chain sha256 self proofA proofB = Ok true ->
      verify_chain sha256 self proofB proofA = Ok false).
Proof.
  split.
  - apply verify_chain_not_later. lia.
  - intros H. apply verify_chain_true_iff in H. destruct H as (Hts & _).
    apply verify_chain_not_later. lia.
Qed.

Lemma find_from_sound self prev data st r :
  forall n p,
    find_from sha256 self prev data st r n = Ok (Some p) ->
    exists k, n <= k < n + Z.of_nat r /\ 0 <= k < 2 ^ 64
              /\ p = candidate sha256 data st k
              /\ verify_chain sha256 self prev p = Ok true
              /\ (forall j, n <= j < k ->
                     verify_chain sha256 self prev
                                  (candidate sha256 data st j) = Ok false).
Proof.
  induction r as [|r IH]; intros n p H; [discriminate|].
  cbn [find_from] in H. apply bind_Ok_inv in H. destruct H as (h & Hh & H).
  apply hash_Ok_inv in Hh. destruct Hh as [Hr ->].
  apply bind_Ok_inv in H. destruct H as (ok & Hv & H). destruct ok.
  - injection H as <-. exists n. unfold candidate.
    repeat split; auto; try lia.
  - apply IH in H. destruct H as (k & Hk & Hk64 & -> & Hvk & Hmin).
    exists k. repeat split; auto; try lia.
    intros j Hj. destruct (Z.eq_dec j n) as [->|Hne]; [exact Hv|].
    apply Hmin. lia.
Qed.

Lemma find_from_found self prev data st r :
  forall n k,
    0 <= n <= k -> k < n + Z.of_nat r -> k < 2 ^ 64 ->
    verify_chain sha256 self prev (candidate sha256 data st k) = Ok true ->
    (forall j, n <= j < k ->
               verify_chain sha256 self prev (candidate sha256 data st j)
               = Ok false) ->
    find_from sha256 self prev data st r n
    = Ok (Some (candidate sha256 data st k)).
Proof.
  induction r as [|r IH]; intros n k Hn Hk Hk64 Hv Hmin; [simpl in Hk; lia|].
  cbn [find_from]. rewrite hash_in_range by lia. cbn [bind].
  destruct (Z.eq_dec k n) as [->|Hne].
  - unfold candidate in Hv. now rewrite Hv.
  - pose proof (Hmin n ltac:(lia)) as Hn'. unfold candidate in Hn'.
    rewrite Hn'. cbn [bind]. apply IH; auto; try lia.
    intros j Hj. apply Hmin. lia.
Qed.

Lemma find_from_exhausted self prev data st r :
  forall n,
    0 <= n -> n + Z.of_nat r <= 2 ^ 64 ->
    (forall j, n <= j < n + Z.of_nat r ->
               verify_chain sha256 self prev (candidate sha256 data st j)
               = Ok false) ->
    find_from sha256 self prev data st r n = Ok None.
Proof.
  induction r as [|r IH]; intros n Hn Hr Hall; [reflexivity|].
  cbn [find_from]. rewrite hash_in_range by lia. cbn [bind].
  pose proof (Hall n ltac:(lia)) as Hn'. unfold candidate in Hn'.
  rewrite Hn'. cbn [bind]. apply IH; try lia.
  intros j Hj. apply Hall. lia.
Qed.

Lemma find_from_None_inv self prev data st r :
  forall n,
    find_from sha256 self prev data st r n = Ok None ->
    forall j, n <= j < n + Z.of_nat r ->
              verify_chain sha256 self prev (candidate sha256 data st j)
              = Ok false.
Proof.
  induction r as [|r IH]; intros n H j Hj; [simpl in Hj; lia|].
  cbn [find_from] in H. apply bind_Ok_inv in H. destruct H as (h & Hh & H).
  apply hash_Ok_inv in Hh. destruct Hh as [Hr ->].
  apply bind_Ok_inv in H. destruct H as (ok & Hv & H).
  destruct ok; [discriminate|].
  destruct (Z.eq_dec j n) as [->|Hne]; [exact Hv|].
  apply (IH (n + 1) H). lia.
Qed.

Lemma find_from_previous_raises self prev data st r n :
  timestamp prev < st -> ~ nonce_in_range prev -> 0 <= n < 2 ^ 64 ->
  find_from sha256 self prev data st (S r) n = Raise StructError.
Proof.
  intros Hts Hprev Hn. cbn [find_from]. rewrite hash_in_range by lia.
  cbn [bind]. rewrite verify_chain_first_raises; auto.
Qed.

Lemma find_from_returns self prev data st r :
  nonce_in_range prev ->
  forall n, 0 <= n -> n + Z.of_nat r <= 2 ^ 64 ->
            exists res, find_from sha256 self prev data st r n = Ok res.
Proof.
  intros Hprev. induction r as [|r IH]; intros n Hn Hr;
    [exists None; reflexivity|].
  cbn [find_from]. rewrite hash_in_range by lia. cbn [bind].
  destruct (verify_chain sha256 self prev
              (mkProof data n (digest_of sha256 data n) st))
    as [[|]|e] eqn:Hv; cbn [bind].
  - eauto.
  - apply IH; lia.
  - exfalso. apply verify_chain_Raise_inv in Hv.
    destruct Hv as (_ & _ & [Hv | [_ Hv]]); [now apply Hv|].
    apply Hv. unfold nonce_in_range. cbn [nonce]. lia.
Qed.

Lemma million_turns : Z.of_nat (Z.to_nat (1000000 - 0)) = 1000000.
Proof. lia. Qed.

(** X21: [find_next_proof] visits the nonces 0, 1, 2, ... below 1,000,000
    and returns the candidate of the least nonce that [verify_chain]
    accepts after the previous proof, stamped with the time of the call;
    it returns [None] exactly when [verify_chain] rejects all 1,000,000
    candidates; and with a previous proof whose nonce fits 64 bits it
    returns one or the other and does not raise. *)
Theorem find_next_proof_least_nonce self now previous_proof data :
  (forall p,
      find_next_proof sha256 self now previous_proof data = Ok (Some p)
      <-> exists k,
          0 <= k < 1000000
          /\ p = candidate sha256 data now k
          /\ verify_chain sha256 self previous_proof p = Ok true
          /\ (forall j, 0 <= j < k ->
                 verify_chain sha256 self previous_proof
                              (candidate sha256 data now j) = Ok false))
  /\ (find_next_proof sha256 self now previous_proof data = Ok None
      <-> forall j, 0 <= j < 1000000 ->
                    verify_chain sha256 self previous_proof
                                 (candidate sha256 data now j) = Ok false)
  /\ (nonce_in_range previous_proof ->
      exists r, find_next_proof sha256 self now previous_proof data = Ok r).
Proof.
  unfold find_next_proof. split; [|split].
  - intros p. split.
    + intros H. apply find_from_sound in H.
      destruct H as (k & Hk & _ & Hp & Hv & Hmin).
      rewrite million_turns in Hk. exists k. repeat split; auto; lia.
    + intros (k & Hk & -> & Hv & Hmin).
      apply find_from_found; auto; lia.
  - split.
    + intros H j Hj. apply (find_from_None_inv _ _ _ _ _ _ H).
      rewrite million_turns. lia.
    + intros Hall. apply find_from_exhausted; try lia.
      intros j Hj. apply Hall. lia.
  - intros Hprev. apply find_from_returns; [exact Hprev | lia |].
    rewrite million_turns. lia.
Qed.

(** X22: what [find_next_proof] does with a previous proof that cannot be
    chained.  If [verify_proof] rejects the previous proof, all 1,000,000
    candidates are tried and the result is [None]; and the call raises
    exactly when the previous proof's nonce does not fit 64 bits and its
    timestamp is before the time of the call, the error being that of
    [struct.pack] on the previous proof's nonce, met with the first
    candidate. *)
Theorem find_next_proof_unchainable_previous self now previous_proof data :
  (verify_proof sha256 self previous_proof = Ok false ->
   find_next_proof sha256 self now previous_proof data = Ok None)
  /\ (forall e,
         find_next_proof sha256 self now previous_proof data = Raise e
         <-> e = StructError
             /\ timestamp previous_proof < now
             /\ ~ nonce_in_range previous_proof).
Proof.
  unfold find_next_proof. split.
  - intros Hrej. apply find_from_exhausted; try lia.
    intros j _. now apply verify_chain_first_rejected.
  - intros e. split.
    + intros H.
      destruct (Z_lt_le_dec (timestamp previous_proof) now) as [Hts|Hts].
      * destruct (Z_le_gt_dec 0 (nonce previous_proof)) as [H0|H0];
          [destruct (Z_lt_le_dec (nonce previous_proof) (2 ^ 64))
            as [H1|H1]|].
        -- destruct (find_from_returns self previous_proof data now
                       (Z.to_nat (1000000 - 0)) (conj H0 H1) 0)
             as [res Hres]; try lia. congruence.
        -- assert (~ nonce_in_range previous_proof) as Hout
               by (unfold nonce_in_range; lia).
           replace (Z.to_nat (1000000 - 0)) with (S (Z.to_nat 999999)) in H
             by lia.
           rewrite find_from_previous_raises in H by (auto; lia).
           injection H as <-. auto.
        -- assert (~ nonce_in_range previous_proof) as Hout
               by (unfold nonce_in_range; lia).
           replace (Z.to_nat (1000000 - 0)) with (S (Z.to_nat 999999)) in H
             by lia.
           rewrite find_from_previous_raises in H by (auto; lia).
           injection H as <-. auto.
      * rewrite find_from_not_later in H by lia. discriminate.
    + intros (-> & Hts & Hout).
      replace (Z.to_nat (1000000 - 0)) with (S (Z.to_nat 999999)) by lia.
      apply find_from_previous_raises; auto. lia.
Qed.

(** X23: the proof [find_next_proof] returns stands on its own and in the
    pair: the previous proof is before the time of the call and
    [verify_proof] accepts it, [verify_proof] accepts the new proof,
    [generate_proof] on the same data finds a proof with a nonce that is
    not larger, and a second [find_next_proof] started from the new proof
    within the same second returns [None]. *)
Theorem find_next_proof_result_verifies self now previous_proof data p :
  find_next_proof sha256 self now previous_proof data = Ok (Some p) ->
  timestamp previous_proof < now
  /\ verify_proof sha256 self previous_proof = Ok true
  /\ verify_proof sha256 self p = Ok true
  /\ (exists q, generate_proof sha256 self now data 1000000 = Ok (Some q)
                /\ nonce q <= nonce p)
  /\ (forall data',
         find_next_proof sha256 self now p data' = Ok None).
Proof.
  unfold find_next_proof. intros H. apply find_from_sound in H.
  destruct H as (k & Hk & Hk64 & -> & Hv & _).
  apply verify_chain_true_iff in Hv. destruct Hv as (Hts & HA & HB & _).
  cbn [timestamp candidate] in Hts.
  split; [exact Hts|]. split; [exact HA|]. split; [exact HB|]. split.
  - apply verify_proof_true_iff in HB. destruct HB as (_ & _ & Hlt).
    destruct (generate_proof_complete self now data 1000000 k)
      as (q & Hq & Hle); try lia.
    + exact Hlt.
    + exists q. split; [exact Hq|]. cbn [nonce candidate]. lia.
  - intros data'. apply find_from_not_later; cbn [timestamp candidate]; lia.
Qed.

(** X24: the chain target is above the base target of the same difficulty
    (up to 32), so a digest below the base target is below the chain
    target; and with a difficulty of 0 or less the chain target is longer
    than a digest, the chain hash always passes, and [verify_chain] is
    the timestamp order together with [verify_proof] of both. *)
Theorem chain_target_above_target d self :
  d <= 32 -> init d = Ok self ->
  bytes_lt (target self) (chain_target (difficulty self)) = true
  /\ (forall h, bytes_lt h (target self) = true ->
                bytes_lt h (chain_target (difficulty self)) = true)
  /\ (d <= 0 ->
      forall proofA proofB,
        verify_chain sha256 self proofA proofB = Ok true
        <-> timestamp proofA < timestamp proofB
            /\ verify_proof sha256 self proofA = Ok true
            /\ verify_proof sha256 self proofB = Ok true).
Proof.
  intros Hd Hinit. rewrite init_target_of in Hinit. injection Hinit as <-.
  cbn [target difficulty].
  split; [now apply target_below_chain_target|]. split.
  - intros h Hh. eapply bytes_lt_trans; [exact Hh|].
    now apply target_below_chain_target.
  - intros Hd0 proofA proofB. rewrite verify_chain_true_iff.
    cbn [difficulty].
    assert (bytes_lt (sha256 (hash proofA ++ hash proofB)) (chain_target d)
            = true) as Hlt.
    { unfold chain_target, bytes_repeat.
      replace (Z.to_nat (d - 1)) with 0%nat by lia. cbn [repeat app].
      apply bytes_lt_ones_longer. rewrite sha256_length. lia. }
    intuition.
Qed.

End WithSha256.

End ProofGeneratorMore.

(** The further properties of the engine on SHA-256 itself. *)
Module ProofGeneratorMoreOnSHA256.
Import ProofGenerator ProofGeneratorSpec ProofGeneratorMore.

Lemma accepted_hash_starts_with_zero_octets_witness :
  0 <= 1 <= 32
  /\ init 1 = Ok (mk 1 (x00 :: repeat xff 31))
  /\ verify_proof SHA256.digest (mk 1 (x00 :: repeat xff 31))
       (mkProof (btext "a") 6 (digest_of SHA256.digest (btext "a") 6) 7)
     = Ok true
  /\ firstn 1 (digest_of SHA256.digest (btext "a") 6) = [x00].
Proof.
  destruct (accepted_hash_starts_with_zero_octets
              SHA256.digest sha256_digest_length 1
              (mk 1 (x00 :: repeat xff 31)) ltac:(lia) eq_refl)
    as (Hacc & _).
  assert (verify_proof SHA256.digest (mk 1 (x00 :: repeat xff 31))
            (mkProof (btext "a") 6 (digest_of SHA256.digest (btext "a") 6) 7)
          = Ok true) as Hv by (vm_compute; reflexivity).
  split; [lia|]. split; [reflexivity|]. split; [exact Hv|].
  exact (Hacc _ Hv).
Defined.

Lemma lower_difficulty_accepts_more_witness :
  0 <= 1 <= 32
  /\ init 0 = Ok (mk 0 (repeat xff 32))
  /\ init 1 = Ok (mk 1 (x00 :: repeat xff 31))
  /\ verify_proof SHA256.digest (mk 1 (x00 :: repeat xff 31))
       (mkProof (btext "a") 6 (digest_of SHA256.digest (btext "a") 6) 7)
     = Ok true
  /\ verify_proof SHA256.digest (mk 0 (repeat xff 32))
       (mkProof (btext "a") 6 (digest_of SHA256.digest (btext "a") 6) 7)
     = Ok true.
Proof.
  destruct (lower_difficulty_accepts_more
              SHA256.digest 0 1 (mk 0 (repeat xff 32))
              (mk 1 (x00 :: repeat xff 31)) ltac:(lia) eq_refl eq_refl)
    as (Hacc & _).
  assert (verify_proof SHA256.digest (mk 1 (x00 :: repeat xff 31))
            (mkProof (btext "a") 6 (digest_of SHA256.digest (btext "a") 6) 7)
          = Ok true) as Hv by (vm_compute; reflexivity).
  split; [lia|]. split; [reflexivity|]. split; [reflexivity|].
  split; [exact Hv|]. exact (Hacc _ Hv).
Defined.

Lemma difficulty_32_admits_no_proof_witness :
  (forall x, length (SHA256.digest x) = 32%nat)
  /\ init 32 = Ok (mk 32 (repeat x00 32))
  /\ 1000 <= 2 ^ 64
  /\ generate_proof SHA256.digest (mk 32 (repeat x00 32)) 7 (btext "a") 1000
     = Ok None.
Proof.
  destruct (difficulty_32_admits_no_proof
              SHA256.digest sha256_digest_length (mk 32 (repeat x00 32))
              eq_refl) as (_ & _ & Hnone).
  split; [exact sha256_digest_length|]. split; [reflexivity|].
  split; [lia|]. apply Hnone. lia.
Defined.


Lemma generate_proof_stable_under_budget_witness :
  generate_proof SHA256.digest (mk 0 (repeat xff 32)) 7 [] 10
  = Ok (Some (mkProof [] 0 (digest_of SHA256.digest [] 0) 7))
  /\ 10 <= 1000000
  /\ generate_proof SHA256.digest (mk 0 (repeat xff 32)) 9 [] 1000000
     = Ok (Some (mkProof [] 0 (digest_of SHA256.digest [] 0) 9)).
Proof.
  assert (generate_proof SHA256.digest (mk 0 (repeat xff 32)) 7 [] 10
          = Ok (Some (mkProof [] 0 (digest_of SHA256.digest [] 0) 7))) as Hg
      by (vm_compute; reflexivity).
  split; [exact Hg|]. split; [lia|].
  apply (generate_proof_stable_under_budget
           SHA256.digest (mk 0 (repeat xff 32)) 7 [] 10 _ Hg 9 1000000).
  lia.
Defined.

Lemma verify_chain_raises_iff_witness :
  1 < 2
  /\ ~ nonce_in_range (mkProof [] (-1) [] 1)
  /\ verify_chain SHA256.digest (mk 0 (repeat xff 32))
                  (mkProof [] (-1) [] 1) (mkProof [] 0 [] 2)
     = Raise StructError.
Proof.
  assert (~ nonce_in_range (mkProof [] (-1) [] 1)) as Hout
      by (unfold nonce_in_range; cbn [nonce]; lia).
  split; [lia|]. split; [exact Hout|].
  apply (verify_chain_raises_iff
           SHA256.digest (mk 0 (repeat xff 32))
           (mkProof [] (-1) [] 1) (mkProof [] 0 [] 2) StructError).
  split; [reflexivity|]. split; [cbn [timestamp]; lia|]. left. exact Hout.
Defined.

Lemma verify_chain_is_one_way_witness :
  verify_chain SHA256.digest (mk 0 (repeat xff 32))
    (mkProof [] 0 (digest_of SHA256.digest [] 0) 1)
    (mkProof [] 0 (digest_of SHA256.digest [] 0) 2) = Ok true
  /\ verify_chain SHA256.digest (mk 0 (repeat xff 32))
       (mkProof [] 0 (digest_of SHA256.digest [] 0) 2)
       (mkProof [] 0 (digest_of SHA256.digest [] 0) 1) = Ok false.
Proof.
  destruct (verify_chain_is_one_way
              SHA256.digest (mk 0 (repeat xff 32))
              (mkProof [] 0 (digest_of SHA256.digest [] 0) 1)
              (mkProof [] 0 (digest_of SHA256.digest [] 0) 2))
    as (_ & Hback).
  assert (verify_chain SHA256.digest (mk 0 (repeat xff 32))
            (mkProof [] 0 (digest_of SHA256.digest [] 0) 1)
            (mkProof [] 0 (digest_of SHA256.digest [] 0) 2) = Ok true)
    as Hv by (vm_compute; reflexivity).
  split; [exact Hv|]. exact (Hback Hv).
Defined.

Lemma find_next_proof_least_nonce_witness :
  0 <= 0 < 1000000
  /\ verify_chain SHA256.digest (mk 0 (repeat xff 32))
       (mkProof [] 0 (digest_of SHA256.digest [] 0) 1)
       (candidate SHA256.digest (btext "a") 2 0) = Ok true
  /\ find_next_proof SHA256.digest (mk 0 (repeat xff 32)) 2
       (mkProof [] 0 (digest_of SHA256.digest [] 0) 1) (btext "a")
     = Ok (Some (candidate SHA256.digest (btext "a") 2 0))
  /\ (nonce_in_range (mkProof [] 0 [] 1)
      /\ exists r,
          find_next_proof SHA256.digest (mk 0 (repeat xff 32)) 2
                          (mkProof [] 0 [] 1) (btext "a") = Ok r).
Proof.
  destruct (find_next_proof_least_nonce
              SHA256.digest (mk 0 (repeat xff 32)) 2
              (mkProof [] 0 (digest_of SHA256.digest [] 0) 1) (btext "a"))
    as (Hfound & _ & _).
  destruct (find_next_proof_least_nonce
              SHA256.digest (mk 0 (repeat xff 32)) 2
              (mkProof [] 0 [] 1) (btext "a"))
    as (_ & _ & Hreturns).
  assert (verify_chain SHA256.digest (mk 0 (repeat xff 32))
            (mkProof [] 0 (digest_of SHA256.digest [] 0) 1)
            (candidate SHA256.digest (btext "a") 2 0) = Ok true)
    as Hv by (vm_compute; reflexivity).
  assert (nonce_in_range (mkProof [] 0 [] 1)) as Hin
      by (unfold nonce_in_range; cbn [nonce]; lia).
  split; [lia|]. split; [exact Hv|]. split.
  - apply Hfound. exists 0. split; [lia|]. split; [reflexivity|].
    split; [exact Hv|]. intros j Hj. lia.
  - split; [exact Hin|]. exact (Hreturns Hin).
Defined.

Lemma find_next_proof_unchainable_previous_witness :
  (verify_proof SHA256.digest (mk 0 (repeat xff 32)) (mkProof [] 0 [] 1)
   = Ok false
   /\ find_next_proof SHA256.digest (mk 0 (repeat xff 32)) 2
                      (mkProof [] 0 [] 1) (btext "a") = Ok None)
  /\ (1 < 2
      /\ ~ nonce_in_range (mkProof [] (2 ^ 64) [] 1)
      /\ find_next_proof SHA256.digest (mk 0 (repeat xff 32)) 2
                         (mkProof [] (2 ^ 64) [] 1) (btext "a")
         = Raise StructError).
Proof.
  destruct (find_next_proof_unchainable_previous
              SHA256.digest (mk 0 (repeat xff 32)) 2
              (mkProof [] 0 [] 1) (btext "a")) as (Hnone & _).
  destruct (find_next_proof_unchainable_previous
              SHA256.digest (mk 0 (repeat xff 32)) 2
              (mkProof [] (2 ^ 64) [] 1) (btext "a")) as (_ & Hraise).
  assert (verify_proof SHA256.digest (mk 0 (repeat xff 32))
                       (mkProof [] 0 [] 1) = Ok false) as Hrej
      by (vm_compute; reflexivity).
  assert (~ nonce_in_range (mkProof [] (2 ^ 64) [] 1)) as Hout
      by (unfold nonce_in_range; cbn [nonce]; lia).
  split.
  - split; [exact Hrej|]. exact (Hnone Hrej).
  - split; [lia|]. split; [exact Hout|]. apply Hraise.
    split; [reflexivity|]. split; [cbn [timestamp]; lia | exact Hout].
Defined.

Lemma find_next_proof_result_verifies_witness :
  find_next_proof SHA256.digest (mk 0 (repeat xff 32)) 2
    (mkProof [] 0 (digest_of SHA256.digest [] 0) 1) (btext "a")
  = Ok (Some (candidate SHA256.digest (btext "a") 2 0))
  /\ verify_proof SHA256.digest (mk 0 (repeat xff 32))
                  (candidate SHA256.digest (btext "a") 2 0) = Ok true
  /\ find_next_proof SHA256.digest (mk 0 (repeat xff 32)) 2
       (candidate SHA256.digest (btext "a") 2 0) (btext "b") = Ok None.
Proof.
  assert (find_next_proof SHA256.digest (mk 0 (repeat xff 32)) 2
            (mkProof [] 0 (digest_of SHA256.digest [] 0) 1) (btext "a")
          = Ok (Some (candidate SHA256.digest (btext "a") 2 0))) as Hf
      by (vm_compute; reflexivity).
  destruct (find_next_proof_result_verifies
              SHA256.digest (mk 0 (repeat xff 32)) 2
              (mkProof [] 0 (digest_of SHA256.digest [] 0) 1) (btext "a")
              _ Hf) as (_ & _ & Hv & _ & Hsame).
  split; [exact Hf|]. split; [exact Hv|]. apply Hsame.
Defined.

Lemma chain_target_above_target_witness :
  (forall x, length (SHA256.digest x) = 32%nat)
  /\ 0 <= 32
  /\ init 0 = Ok (mk 0 (repeat xff 32))
  /\ bytes_lt (repeat xff 32) (chain_target 0) = true
  /\ (1 < 2
      /\ verify_proof SHA256.digest (mk 0 (repeat xff 32))
           (mkProof [] 0 (digest_of SHA256.digest [] 0) 1) = Ok true
      /\ verify_proof SHA256.digest (mk 0 (repeat xff 32))
           (mkProof [] 0 (digest_of SHA256.digest [] 0) 2) = Ok true
      /\ verify_chain SHA256.digest (mk 0 (repeat xff 32))
           (mkProof [] 0 (digest_of SHA256.digest [] 0) 1)
           (mkProof [] 0 (digest_of SHA256.digest [] 0) 2) = Ok true).
Proof.
  destruct (chain_target_above_target
              SHA256.digest sha256_digest_length 0 (mk 0 (repeat xff 32))
              ltac:(lia) eq_refl) as (Habove & _ & Hzero).
  assert (verify_proof SHA256.digest (mk 0 (repeat xff 32))
            (mkProof [] 0 (digest_of SHA256.digest [] 0) 1) = Ok true)
    as H1 by (vm_compute; reflexivity).
  assert (verify_proof SHA256.digest (mk 0 (repeat xff 32))
            (mkProof [] 0 (digest_of SHA256.digest [] 0) 2) = Ok true)
    as H2 by (vm_compute; reflexivity).
  split; [exact sha256_digest_length|]. split; [lia|].
  split; [reflexivity|]. split; [exact Habove|].
  split; [lia|]. split; [exact H1|]. split; [exact H2|].
  apply (Hzero ltac:(lia)). cbn [timestamp].
  split; [lia|]. split; [exact H1 | exact H2].
Defined.

End ProofGeneratorMoreOnSHA256.
